(** * postcss-mixins: a shallow embedding of the mixin expansion engine

    The development follows [index.js] function by function.  The style-sheet
    tree is an inductive type of nodes, the registry of mixins is a finite map
    from names to records, and every function that can throw returns an
    [outcome].  The host library (tree walking, cloning, splitting a parameter
    string on commas, the variable substitution plug-in) is modelled in the
    modules [Js] and [Host]; the functions of [index.js] are in [Mixins].

    Conventions of the model.
    - A JavaScript string is a Rocq [string], one [ascii] per code unit; the
      model covers text whose code units are below 256.
    - Trees are values: a clone of a node is the node itself, and an in-place
      edit is a function from the old list of children to the new one.
    - Formatting data ([raws]) is not part of the model, and with it the
      text of a node as the stringifier prints it; see [Plugin.postcss].
    - A plain JavaScript object used as a dictionary (the registry, the table
      of bound values) is a [gmap].  What a read of the registry finds under
      a name that has no entry, through [Object.prototype] or through an
      entry that was stored under [__proto__], is given by
      [Mixins.inherited]; for the table of bound values inherited keys, and
      a formal called [__proto__], are outside the model.
    - The host picks the listener of an at-rule by its name in lower case,
      the engine compares names letter for letter; the model does both.
    - A call that depends on what the model leaves out gives [Unmodelled],
      and no statement is made about it.
    - A function mixin is a function of the invocation and the actuals that
      returns an object or nothing, and does not edit the tree itself.
    - Of the loading of definitions from files, the reading of the files (the
      glob, the file system, [require]) is not modelled; the bookkeeping
      around it is, in [Loader]. *)

From Stdlib Require Import String Ascii List ZArith Lia Bool.
From stdpp Require Import base option list strings gmap.
Import ListNotations.
Open Scope string_scope.
Open Scope list_scope.
Set Warnings "-register-all".

(** ** JavaScript string primitives used by the engine *)

Module Js.

(** The characters matched by [\s], which are also the ones [trim] removes. *)
Definition is_space (c : ascii) : bool :=
  let n := nat_of_ascii c in
  (Nat.leb 9 n && Nat.leb n 13) || Nat.eqb n 32 || Nat.eqb n 160.

(** The characters that [.] does not match. *)
Definition is_line_terminator (c : ascii) : bool :=
  let n := nat_of_ascii c in Nat.eqb n 10 || Nat.eqb n 13.

Definition is_quote (c : ascii) : bool :=
  Nat.eqb (nat_of_ascii c) 34 || Nat.eqb (nat_of_ascii c) 39.

Definition is_digit (c : ascii) : bool :=
  let n := nat_of_ascii c in Nat.leb 48 n && Nat.leb n 57.

Definition is_letter (c : ascii) : bool :=
  let n := nat_of_ascii c in
  (Nat.leb 65 n && Nat.leb n 90) || (Nat.leb 97 n && Nat.leb n 122).

(** [\w] *)
Definition is_word (c : ascii) : bool :=
  is_letter c || is_digit c || Ascii.eqb c "_".

Fixpoint trimStart (s : string) : string :=
  match s with
  | String c r => if is_space c then trimStart r else s
  | EmptyString => EmptyString
  end.

Fixpoint trimEnd (s : string) : string :=
  match s with
  | EmptyString => EmptyString
  | String c r =>
      let r' := trimEnd r in
      if is_space c && String.eqb r' "" then "" else String c r'
  end.

Definition trim (s : string) : string := trimEnd (trimStart s).

Definition startsWith (s prefix : string) : bool := String.prefix prefix s.

Fixpoint endsWith (s suffix : string) : bool :=
  String.eqb s suffix ||
  match s with
  | String _ r => endsWith r suffix
  | EmptyString => false
  end.

Fixpoint includes (s sub : string) : bool :=
  String.prefix sub s ||
  match s with
  | String _ r => includes r sub
  | EmptyString => false
  end.

(** [s.slice(b, e)]: negative indices count from the end, both are clamped. *)
Definition slice (s : string) (b e : Z) : string :=
  let n := Z.of_nat (String.length s) in
  let from := if (b <? 0)%Z then Z.max (n + b) 0 else Z.min b n in
  let to := if (e <? 0)%Z then Z.max (n + e) 0 else Z.min e n in
  String.substring (Z.to_nat from) (Z.to_nat (to - from)) s.

(** [s.slice(b)] *)
Definition sliceFrom (s : string) (b : Z) : string :=
  slice s b (Z.of_nat (String.length s)).

(** [s.split(sep, 1)[0]]: the text before the first [sep], or all of [s]. *)
Fixpoint splitFirst (s : string) (sep : ascii) : string :=
  match s with
  | EmptyString => EmptyString
  | String c r => if Ascii.eqb c sep then "" else String c (splitFirst r sep)
  end.

(** The first occurrence of [key] in [s]: the text before it and after it. *)
Fixpoint find (s key : string) : option (string * string) :=
  if String.prefix key s
  then Some ("", sliceFrom s (Z.of_nat (String.length key)))
  else match s with
       | EmptyString => None
       | String c r =>
           match find r key with
           | Some (before, after) => Some (String c before, after)
           | None => None
           end
       end.

(** The replacement text of [replace] for a string pattern: [$$], [$&],
    [$`] and [$'] are special; there are no capture groups, so every other
    [$] stands for itself. *)
Fixpoint substitution (replacement matched before after : string) : string :=
  match replacement with
  | EmptyString => EmptyString
  | String c r =>
      if Ascii.eqb c "$" then
        match r with
        | String d r' =>
            if Ascii.eqb d "$" then "$" +:+ substitution r' matched before after
            else if Ascii.eqb d "&" then matched +:+ substitution r' matched before after
            else if Ascii.eqb d "`" then before +:+ substitution r' matched before after
            else if Ascii.eqb d "'" then after +:+ substitution r' matched before after
            else String c (substitution r matched before after)
        | EmptyString => String c EmptyString
        end
      else String c (substitution r matched before after)
  end.

(** [s.replace(key, value)] with a string [key]: only the first occurrence
    is replaced. *)
Definition replace (s key value : string) : string :=
  match find s key with
  | Some (before, after) => before +:+ substitution value key before after +:+ after
  | None => s
  end.

Definition last_char (s : string) : option ascii :=
  match String.rev s with
  | String c _ => Some c
  | EmptyString => None
  end.

Fixpoint has_line_terminator (s : string) : bool :=
  match s with
  | EmptyString => false
  | String c r => is_line_terminator c || has_line_terminator r
  end.

(** [toLowerCase] on a code unit below 256: the letters [A] to [Z], and the
    accented capitals from 192 to 222 but for the sign at 215, go 32 up. *)
Definition lower (c : ascii) : ascii :=
  let n := nat_of_ascii c in
  if (Nat.leb 65 n && Nat.leb n 90)
     || (Nat.leb 192 n && Nat.leb n 222 && negb (Nat.eqb n 215))
  then ascii_of_nat (n + 32)
  else c.

Fixpoint toLowerCase (s : string) : string :=
  match s with
  | EmptyString => EmptyString
  | String c r => String (lower c) (toLowerCase r)
  end.

End Js.

(** ** The host library: nodes, errors, and the helpers the engine calls *)

Module Host.

Record position := { line : nat; column : nat }.

(** [node.source]: absent on nodes that were not read from a file. *)
Definition source : Type := option position.

(** The node types of the style-sheet tree.  An at-rule written without a
    block ([@include m;]) has no [nodes] at all; one written with an empty
    block has an empty list. *)
Inductive node : Type :=
| Decl (prop value : string) (src : source)
| Rule (selector : string) (nodes : list node) (src : source)
| AtRule (name params : string) (nodes : option (list node)) (src : source)
| Comment (text : string) (src : source).

(** An at-rule on its own, as the engine receives it ([rule], [from]). *)
Record at_rule := {
  at_name : string;
  at_params : string;
  at_nodes : option (list node);
  at_source : source
}.

Definition of_at_rule (r : at_rule) : node :=
  AtRule (at_name r) (at_params r) (at_nodes r) (at_source r).

Definition with_nodes (r : at_rule) (ns : option (list node)) : at_rule :=
  {| at_name := at_name r; at_params := at_params r;
     at_nodes := ns; at_source := at_source r |}.

(** What a [throw] carries: [node.error(message)] builds a [CssSyntaxError]
    with the source of the node, [new Error(message)] has a message only, and
    a [TypeError] is raised by the runtime on a property read of [undefined]
    or [null].  [Attached node e] is the exception [e] with a node attached to
    it as [postcssNode], which is what a walk of the host does to an exception
    of its callback, and the host itself to an exception of a listener (it
    also names the plug-in in the message of a [CssSyntaxError] then). *)
Inductive error : Type :=
| CssSyntaxError (src : source) (message : string)
| JsError (message : string)
| TypeError (message : string)
| Attached (postcssNode : at_rule) (thrown : error).

(** [rule.error(message)] *)
Definition node_error (rule : at_rule) (message : string) : error :=
  CssSyntaxError (at_source rule) message.

(** [node.addToError(e)]: [e.postcssNode = node].  The node attached last is
    the outermost. *)
Definition addToError (node : at_rule) (e : error) : error :=
  Attached node e.

(** The result of a call: a value, an exception, the model running out of
    fuel (the source has no bound on nested expansion), or a call that
    depends on what the model leaves out (see [insertMixin]), about which the
    model says nothing. *)
Inductive outcome (A : Type) : Type :=
| Ok (a : A)
| Throw (e : error)
| OutOfFuel
| Unmodelled.
Arguments Ok {A} a.
Arguments Throw {A} e.
Arguments OutOfFuel {A}.
Arguments Unmodelled {A}.

#[export] Instance outcome_ret : MRet outcome := fun A a => Ok a.
#[export] Instance outcome_bind : MBind outcome := fun A B f m =>
  match m with
  | Ok a => f a
  | Throw e => Throw e
  | OutOfFuel => OutOfFuel
  | Unmodelled => Unmodelled
  end.

(** [try { ... } catch (e) { throw node.addToError(e) }] *)
Definition catch_at {A : Type} (node : at_rule) (o : outcome A) : outcome A :=
  match o with
  | Throw e => Throw (addToError node e)
  | _ => o
  end.

(** [l.map(f)] where [f] may throw: the first exception wins. *)
Fixpoint mapM {A B : Type} (f : A -> outcome B) (l : list A) : outcome (list B) :=
  match l with
  | [] => Ok []
  | x :: r => y ← f x; ys ← mapM f r; Ok (y :: ys)
  end.

(** A walk that replaces each child by a list of nodes and may throw. *)
Fixpoint flat_mapM {A B : Type} (f : A -> outcome (list B)) (l : list A)
  : outcome (list B) :=
  match l with
  | [] => Ok []
  | x :: r => ys ← f x; zs ← flat_mapM f r; Ok (ys ++ zs)
  end.

(** A walk that replaces each child by a list of nodes and threads a state. *)
Definition flat_mapS {S A B : Type} (f : A -> S -> list B * S)
  : list A -> S -> list B * S :=
  fix go (l : list A) (s : S) : list B * S :=
    match l with
    | [] => ([], s)
    | x :: r =>
        let '(ys, s1) := f x s in
        let '(zs, s2) := go r s1 in
        (ys ++ zs, s2)
    end.

(** The same with exceptions. *)
Definition flat_mapSM {S A B : Type} (f : A -> S -> outcome (list B * S))
  : list A -> S -> outcome (list B * S) :=
  fix go (l : list A) (s : S) : outcome (list B * S) :=
    match l with
    | [] => Ok ([], s)
    | x :: r =>
        match f x s with
        | Ok (ys, s1) =>
            match go r s1 with
            | Ok (zs, s2) => Ok (ys ++ zs, s2)
            | Throw e => Throw e
            | OutOfFuel => OutOfFuel
            | Unmodelled => Unmodelled
            end
        | Throw e => Throw e
        | OutOfFuel => OutOfFuel
        | Unmodelled => Unmodelled
        end
    end.

(** [node.clone()]: a deep copy, which on values is the node itself. *)
Definition clone (r : at_rule) : at_rule := r.

(** [node.source = src] *)
Definition set_source (src : source) (n : node) : node :=
  match n with
  | Decl p v _ => Decl p v src
  | Rule s ns _ => Rule s ns src
  | AtRule a p ns _ => AtRule a p ns src
  | Comment t _ => Comment t src
  end.

(** [container.walkAtRules(name, () => { found = true; return false })]:
    whether some at-rule called [name] occurs at any depth. *)
Fixpoint has_at_rule (name : string) (n : node) : bool :=
  match n with
  | AtRule a _ ns _ =>
      String.eqb a name ||
      match ns with
      | Some l => existsb (has_at_rule name) l
      | None => false
      end
  | Rule _ l _ => existsb (has_at_rule name) l
  | _ => false
  end.

(** *** [list.comma]: split on the commas outside quotes and parentheses

    The model follows the [list.split] of the host up to its version 8.5.26,
    in which a token that is empty before it is trimmed is dropped, unless it
    is the last: [a,,b] has two tokens, and [a, ,b] three.  A later host
    keeps such a token, and gives one more actual for [a,,b]; on texts
    without two separators in a row the two agree. *)

Record split_state := {
  array : list string;
  current : string;
  func : nat;
  inQuote : bool;
  prevQuote : ascii;
  escape : bool
}.

Definition split_step (separators : list ascii) (st : split_state) (letter : ascii)
  : split_state :=
  let set st' func' inQuote' prevQuote' escape' split :=
    if (split : bool) then
      {| array := if String.eqb (current st') "" then array st'
                  else array st' ++ [Js.trim (current st')];
         current := ""; func := func'; inQuote := inQuote';
         prevQuote := prevQuote'; escape := escape' |}
    else
      {| array := array st'; current := current st' +:+ String letter "";
         func := func'; inQuote := inQuote';
         prevQuote := prevQuote'; escape := escape' |} in
  if escape st then set st (func st) (inQuote st) (prevQuote st) false false
  else if Ascii.eqb letter "\" then set st (func st) (inQuote st) (prevQuote st) true false
  else if inQuote st then
    set st (func st) (negb (Ascii.eqb letter (prevQuote st))) (prevQuote st) false false
  else if Js.is_quote letter then set st (func st) true letter false false
  else if Ascii.eqb letter "(" then set st (S (func st)) false (prevQuote st) false false
  else if Ascii.eqb letter ")" then set st (Nat.pred (func st)) false (prevQuote st) false false
  else if Nat.eqb (func st) 0 then
    set st 0 false (prevQuote st) false (existsb (Ascii.eqb letter) separators)
  else set st (func st) false (prevQuote st) false false.

Definition split (s : string) (separators : list ascii) (last : bool) : list string :=
  let st := fold_left (split_step separators) (list_ascii_of_string s)
              {| array := []; current := ""; func := 0; inQuote := false;
                 prevQuote := "000"; escape := false |} in
  if last || negb (String.eqb (current st) "")
  then array st ++ [Js.trim (current st)]
  else array st.

Definition comma (s : string) : list string := split s [","%char] true.

End Host.

(** ** The engine: [index.js] *)

Module Mixins.
Import Host.

(** The [helpers] object handed to every listener, with the two imported
    collaborators the engine calls through it.
    - [list_comma] is [helpers.list.comma];
    - [vars only proxy] is
      [helpers.postcss([vars({ only })]).process(proxy).root], the variable
      substitution plug-in run over a fragment;
    - [to_string] is [rule.toString()]. *)
Record helpers := {
  list_comma : string -> list string;
  vars : gmap string string -> list node -> list node;
  to_string : at_rule -> string
}.

(** What a registry entry holds in its [mixin] field, by the tests that
    [insertMixin] runs on the entry:
    - [MCss]: a node whose [name] is [mixin], in an entry with [args], which
      is what [addMixin] stores for a definition;
    - [MObject]: a plain object, given by the nodes the object-to-tree adapter
      [parse] builds from it;
    - [MFunction]: a function;
    - [MOther]: a primitive value other than [null] and [undefined], given
      by its type;
    - [MNullish]: [null] or [undefined], on which the read of [name] throws;
    - [MNoArgs]: a value whose [name] is [mixin] in an entry without [args],
      which is what [prepare] makes of such a value of the options: the loop
      over [meta.args] throws;
    - [MNode]: a node of the tree whose [name] is not [mixin], which is what
      [addMixin] stores for an at-rule that the host hands to the listener
      of [mixin] under a name in other letter case.  It is an object to the
      tests; what the adapter reads from a node is outside the model. *)
Inductive primitive : Type :=
| PNumber
| PString
| PBoolean
| PSymbol
| PBigInt.

(** [typeof value] *)
Definition typeof (value : primitive) : string :=
  match value with
  | PNumber => "number"
  | PString => "string"
  | PBoolean => "boolean"
  | PSymbol => "symbol"
  | PBigInt => "bigint"
  end.

Inductive mixin_value : Type :=
| MCss (definition : at_rule)
| MObject (obj : list node)
| MFunction (fn : at_rule -> list string -> option (list node))
| MOther (value : primitive)
| MNullish (null : bool)
| MNoArgs
| MNode (node : at_rule).

Record meta := {
  args : list (string * string);
  content : bool;
  mixin : mixin_value;
  file : option string
}.

Record options := {
  silent : bool;
  mixins_option : gmap string mixin_value
}.

(** *** [parseMixin]

    The header is matched against
    [^(?<name>[a-zA-Z_-]+).?(?<paramString>(?:(?<=\().+(?=\))|(?<=\s).+))?.?$].
    The greedy [name] is the longest leading run of letters, [_] and [-]: a
    shorter one would leave a name character where only one or two more
    characters, or a group that starts after [(] or white space, can follow.
    After the name, with [c] the next character and [rest'] what follows it:
    - nothing follows: a match without [paramString];
    - [c] or a character of [rest'] is a line terminator: no match, since [.]
      does not match one and [$] is the end of the text;
    - [c] is [(] and [rest'] has two characters or more and ends with [)]:
      [paramString] is [rest'] without that last character;
    - [c] is white space and [rest'] is not empty: [paramString] is [rest'];
    - [rest'] has at most one character: a match without [paramString];
    - otherwise no match. *)

Definition is_name_char (c : ascii) : bool :=
  Js.is_letter c || Ascii.eqb c "_" || Ascii.eqb c "-".

Fixpoint span_name (s : string) : string * string :=
  match s with
  | String c r =>
      if is_name_char c
      then let '(n, rest) := span_name r in (String c n, rest)
      else (EmptyString, s)
  | EmptyString => (EmptyString, EmptyString)
  end.

(** The groups [name] and [paramString] of a successful match. *)
Definition match_header (params : string) : option (string * option string) :=
  let '(name, rest) := span_name params in
  if String.eqb name "" then None
  else match rest with
       | EmptyString => Some (name, None)
       | String c rest' =>
           if Js.is_line_terminator c || Js.has_line_terminator rest' then None
           else if Ascii.eqb c "(" && Nat.leb 2 (String.length rest')
                   && Js.endsWith rest' ")"
           then Some (name, Some (Js.slice rest' 0 (-1)))
           else if Js.is_space c && negb (String.eqb rest' "")
           then Some (name, Some rest')
           else if Nat.leb (String.length rest') 1 then Some (name, None)
           else None
       end.

Definition parseMixin (h : helpers) (rule : at_rule) : outcome (string * string) :=
  match match_header (at_params rule) with
  | None =>
      Throw (node_error rule ("Invalid mixin definition: " +:+ to_string h rule))
  | Some (name, paramString) =>
      Ok (name, match paramString with
                | Some p => Js.trim p
                | None => ""
                end)
  end.

(** *** [unwrap]

    [str.match(MAYBE_QUOTED_PATTERN)?.[1] ?? str] with the pattern
    [^[QUOTE]?((?<=[QUOTE]).+(?=[QUOTE])|(?:.+))[QUOTE]?$], where [QUOTE] is
    either quote character.  There is no match on the empty text and on a
    text with a line terminator.  When the text starts with a quote and goes
    on, the group starts after it: it ends before a trailing quote when there
    is one and something stands between the two, and at the end of the text
    otherwise.  In every other case the group is the whole text. *)
Definition unwrap (str : string) : string :=
  match str with
  | String c r =>
      if Js.has_line_terminator str then str
      else if Js.is_quote c && negb (String.eqb r "") then
        if Nat.leb 2 (String.length r)
           && match Js.last_char r with
              | Some d => Js.is_quote d
              | None => false
              end
        then Js.slice r 0 (-1)
        else r
      else str
  | EmptyString => str
  end.

(** *** [addMixin] *)

(** The callback of [map] at lines 33 to 40: a formal [$name: default]. *)
Definition formal (str : string) : string * string :=
  let arg := Js.splitFirst str ":" in
  let defaults := Js.trim (Js.sliceFrom str (Z.of_nat (String.length arg) + 1)) in
  let arg := Js.trim (Js.sliceFrom arg 1) in
  let defaults := unwrap defaults in
  (arg, defaults).

Definition has_mixin_content (rule : at_rule) : bool :=
  match at_nodes rule with
  | Some l => existsb (has_at_rule "mixin-content") l
  | None => false
  end.

(** The registry after [mixins[name] = ...]; [rule.remove()] is the caller's
    part in the model.  The entry holds the node itself, which passes the
    test [mixin.name === 'mixin'] of [insertMixin] when that is its name. *)
Definition addMixin (h : helpers) (mixins : gmap string meta) (rule : at_rule)
    (file : option string) : outcome (gmap string meta) :=
  '(name, paramString) ← parseMixin h rule;
  let args :=
    if Nat.eqb (String.length paramString) 0 then []
    else map formal (list_comma h paramString) in
  let content := has_mixin_content rule in
  Ok (<[name := {| args := args; content := content;
                   mixin := if String.eqb (at_name rule) "mixin"
                            then MCss rule else MNode rule;
                   file := file |}]> mixins).

(** *** [processMixinContent] *)

(** The callback of the walk: [content.replaceWith(from.clone().nodes)] when
    [from] has children, [content.remove()] otherwise.  The nodes spliced in
    are taken out of the clone; the second component is [from] afterwards. *)
Definition replace_content (from : at_rule) : list node * at_rule :=
  match at_nodes from with
  | Some (_ :: _) =>
      let copy := clone from in
      (default [] (at_nodes copy), from)
  | _ => ([], from)
  end.

(** [walkAtRules('mixin-content', ...)] visits every at-rule of that name in
    rules and at-rules at any depth; the nodes that replace a marker are
    passed over by the iteration, and the marker, once out of the tree, has
    no part in the result. *)
Fixpoint content_walk (n : node) (from : at_rule) {struct n} : list node * at_rule :=
  match n with
  | AtRule name params ns src =>
      if String.eqb name "mixin-content" then replace_content from
      else match ns with
           | Some l =>
               let '(l', from') := flat_mapS content_walk l from in
               ([AtRule name params (Some l') src], from')
           | None => ([n], from)
           end
  | Rule sel l src =>
      let '(l', from') := flat_mapS content_walk l from in
      ([Rule sel l' src], from')
  | _ => ([n], from)
  end.

(** The children of [rule] after the call, and [from] after the call. *)
Definition processMixinContent (rule : list node) (from : at_rule)
  : list node * at_rule :=
  flat_mapS content_walk rule from.

(** *** [unwrapSingleArguments] *)

(** A [Map] in insertion order: [set] keeps the place of a key it has. *)
Fixpoint Map_set (m : list (string * string)) (k v : string) : list (string * string) :=
  match m with
  | [] => [(k, v)]
  | (k', v') :: r => if String.eqb k' k then (k, v) :: r else (k', v') :: Map_set r k v
  end.

Definition new_Map (entries : list (string * string)) : list (string * string) :=
  fold_left (fun m e => Map_set m (fst e) (snd e)) entries [].

(** The loop of lines 155 to 157. *)
Definition replace_all_keys (value : string) (singleArgumentsMap : list (string * string))
  : string :=
  fold_left (fun newValue e => Js.replace newValue (fst e) (snd e))
            singleArgumentsMap value.

Fixpoint unwrap_node (singleArgumentsMap : list (string * string)) (rule : node) : node :=
  match rule with
  | Decl prop value src =>
      if Js.includes value "single-arg"
      then Decl prop (replace_all_keys value singleArgumentsMap) src
      else rule
  | Rule sel nodes src => Rule sel (map (unwrap_node singleArgumentsMap) nodes) src
  | _ => rule
  end.

Definition unwrapSingleArguments (rules : list node)
    (singleArgumentsMap : list (string * string)) : list node :=
  if Nat.leb (length singleArgumentsMap) 0 then rules
  else map (unwrap_node singleArgumentsMap) rules.

(** *** [resolveSingleArgumentValue] *)

Definition resolveSingleArgumentValue (value : string) (parentNode : at_rule)
  : outcome string :=
  let content := Js.trim (Js.sliceFrom value (Z.of_nat (String.length "single-arg"))) in
  if negb (Js.startsWith content "(") || negb (Js.endsWith content ")")
  then Throw (node_error parentNode
                ("Content of single-arg must be wrapped in brackets: " +:+ value))
  else Ok (Js.slice content 1 (-1)).

(** *** [insertObject] *)

(** The nodes inserted before [rule]. *)
Definition insertObject (rule : at_rule) (obj : list node)
    (singeArgumentsMap : list (string * string)) : list node :=
  let root := obj in
  let root := map (set_source (at_source rule)) root in
  let '(root, _) := processMixinContent root rule in
  unwrapSingleArguments root singeArgumentsMap.

(** *** [insertMixin] *)

(** Lines 181 to 186: the actual arguments. *)
Definition actuals (h : helpers) (paramString : string) : list string :=
  if String.eqb (Js.trim paramString) "" then []
  else map unwrap (list_comma h paramString).

(** Lines 190 to 194. *)
Definition single_arguments (params : list string) (rule : at_rule)
  : outcome (list (string * string)) :=
  entries ← mapM (fun param =>
                    inner ← resolveSingleArgumentValue param rule;
                    Ok (param, inner))
                 (filter (fun param => Js.startsWith param "single-arg" = true) params);
  Ok (new_Map entries).

(** [params[i] || meta.args[i][1]]: an actual that is missing or empty gives
    way to the default. *)
Definition bound_value (params : list string) (i : nat) (default_value : string)
  : string :=
  match params !! i with
  | Some p => if String.eqb p "" then default_value else p
  | None => default_value
  end.

(** The loop of lines 203 to 205, from index [i] on. *)
Fixpoint bind_from (i : nat) (formals : list (string * string)) (params : list string)
    (values : gmap string string) : gmap string string :=
  match formals with
  | [] => values
  | (name, default_value) :: r =>
      bind_from (S i) r params (<[name := bound_value params i default_value]> values)
  end.

Definition bind_values (formals : list (string * string)) (params : list string)
  : gmap string string :=
  bind_from 0 formals params ∅.

Definition is_include (name : string) : bool :=
  String.eqb name "include" || String.eqb name "add-mixin".

(** *** The registry as an object

    [mixins] is a plain object, so a read [mixins[name]] that finds no
    property of the registry's own goes on to what the registry inherits.
    In the model the registry is a finite map: the entry under [__proto__],
    if there is one, is the object that an assignment
    [mixins['__proto__'] = ...] has made the prototype of the registry (the
    assignment creates no property, and a read of [__proto__] gives that
    object back); every other entry is a property of the registry's own. *)

(** The names every object inherits from [Object.prototype], all of which
    the header pattern lets through. *)
Definition object_prototype_keys : list string :=
  ["constructor"; "hasOwnProperty"; "isPrototypeOf"; "propertyIsEnumerable";
   "toLocaleString"; "toString"; "valueOf"; "__defineGetter__";
   "__defineSetter__"; "__lookupGetter__"; "__lookupSetter__"; "__proto__"].

(** The properties of an entry. *)
Definition entry_keys : list string := ["args"; "content"; "mixin"; "file"].

(** What a read finds under a name that has no entry:
    - [NotInherited]: nothing, the read gives [undefined];
    - [FromObjectPrototype]: a function of [Object.prototype], or that object
      itself for [__proto__]: a value that counts as true and has no property
      [mixin];
    - [FromEntry]: a property of the entry that is the prototype of the
      registry, which is outside the model. *)
Inductive inherited_property : Type :=
| NotInherited
| FromObjectPrototype
| FromEntry.

Definition inherited (mixins : gmap string meta) (name : string)
  : inherited_property :=
  if existsb (String.eqb name) entry_keys
     && match mixins !! "__proto__" with
        | Some _ => true
        | None => false
        end
  then FromEntry
  else if existsb (String.eqb name) object_prototype_keys then FromObjectPrototype
  else NotInherited.

(** [insertMixin] returns the nodes inserted before [rule], which take its
    place since [rule] is removed, and [rule] as the call leaves it.  The
    second function is the walk of lines 227 to 231 over the children of an
    invocation of a function mixin: a nested invocation is expanded in place,
    its expansion is not visited, and the walk then goes on into the children
    of the invocation it has just removed; the walk attaches the nested
    invocation to an exception of the call on it.

    Two calls are outside the model, and give [Unmodelled]: an invocation
    whose name is one of [args], [content], [mixin] and [file], has no entry,
    and is read from an entry that was made the prototype of the registry;
    and an invocation of a mixin whose entry holds a node called otherwise
    than [mixin]. *)
Fixpoint insertMixin (fuel : nat) (h : helpers) (mixins : gmap string meta)
    (rule : at_rule) (opts : options) {struct fuel}
  : outcome (list node * at_rule) :=
  match fuel with
  | O => OutOfFuel
  | S fuel' =>
      '(name, paramString) ← parseMixin h rule;
      let params := actuals h paramString in
      let meta := mixins !! name in
      singleArgumentsMap ← single_arguments params rule;
      match meta with
      | None =>
          match inherited mixins name with
          | NotInherited =>
              if silent opts then Ok ([], rule)
              else Throw (node_error rule ("Undefined mixin " +:+ name))
          | FromObjectPrototype =>
              Throw (TypeError
                "Cannot read properties of undefined (reading 'name')")
          | FromEntry => Unmodelled
          end
      | Some meta =>
          match mixin meta with
          | MCss definition =>
              let values := bind_values (args meta) params in
              match at_nodes definition with
              | None =>
                  Throw (TypeError
                    "Cannot read properties of undefined (reading 'length')")
              | Some nodes =>
                  let proxy := nodes in
                  let proxy :=
                    if Nat.eqb (length (args meta)) 0 then proxy
                    else vars h values proxy in
                  let '(proxy, rule) :=
                    if content meta then processMixinContent proxy rule
                    else (proxy, rule) in
                  let proxy := unwrapSingleArguments proxy singleArgumentsMap in
                  Ok (proxy, rule)
              end
          | MObject obj => Ok (insertObject rule obj singleArgumentsMap, rule)
          | MFunction fn =>
              nodes ← match at_nodes rule with
                      | Some l => l' ← walk_includes fuel' h mixins l opts; Ok (Some l')
                      | None => Ok None
                      end;
              let rule := with_nodes rule nodes in
              match fn rule params with
              | Some obj => Ok (insertObject rule obj singleArgumentsMap, rule)
              | None => Ok ([], rule)
              end
          | MOther value =>
              Throw (JsError ("Wrong " +:+ name +:+ " mixin type " +:+ typeof value))
          | MNullish null =>
              Throw (TypeError
                ("Cannot read properties of "
                   +:+ (if null then "null" else "undefined")
                   +:+ " (reading 'name')"))
          | MNoArgs =>
              Throw (TypeError
                "Cannot read properties of undefined (reading 'length')")
          | MNode _ => Unmodelled
          end
      end
  end
with walk_includes (fuel : nat) (h : helpers) (mixins : gmap string meta)
    (nodes : list node) (opts : options) {struct fuel} : outcome (list node) :=
  match fuel with
  | O => OutOfFuel
  | S fuel' =>
      flat_mapM (fun child =>
        match child with
        | AtRule name params ns src =>
            if is_include name then
              '(inserted, site) ←
                catch_at {| at_name := name; at_params := params;
                            at_nodes := ns; at_source := src |}
                  (insertMixin fuel' h mixins
                     {| at_name := name; at_params := params;
                        at_nodes := ns; at_source := src |} opts);
              _ ← match at_nodes site with
                  | Some l => walk_includes fuel' h mixins l opts
                  | None => Ok []
                  end;
              Ok inserted
            else
              match ns with
              | Some l =>
                  l' ← walk_includes fuel' h mixins l opts;
                  Ok [AtRule name params (Some l') src]
              | None => Ok [child]
              end
        | Rule sel l src =>
            l' ← walk_includes fuel' h mixins l opts;
            Ok [Rule sel l' src]
        | _ => Ok [child]
        end) nodes
  end.

End Mixins.

(** ** The substitution plug-in in its [only] mode

    A model of the collaborator the engine runs over a cloned body:
    references [$name] and [$(name)] to a name of the table are replaced by
    its value in declaration values, selectors and at-rule parameters, and
    [$(name)] in property names; everything else is left as it is.  The
    engine reaches the collaborator through [helpers], and the statements
    hold for any function in its place; this model serves the examples.  It
    leaves out two things: the references written [<<$(name)>>] in comments,
    which the collaborator rewrites, and a substitution without end, when the
    values of the table bring in references again and again, which the model
    cuts off. *)

Module SimpleVars.
Import Host.

(** [[\w\d-_]] *)
Definition is_var_char (c : ascii) : bool := Js.is_word c || Ascii.eqb c "-".

Fixpoint span_var (s : string) : string :=
  match s with
  | String c r => if is_var_char c then String c (span_var r) else EmptyString
  | EmptyString => EmptyString
  end.

Definition skip_spaces (s : string) : string := Js.trimStart s.

(** [variable] with [opts.only] set: [str] stands when the name is unknown. *)
Definition variable (only : gmap string string) (str name : string) : string :=
  match only !! name with
  | Some v => v
  | None => str
  end.

(** [str.replace(/(^|[^\w])\$([\w\d-_]+)/g, ...)]; [skip] counts the
    characters of the current match that are still to be passed over. *)
Fixpoint simpleSyntax (only : gmap string string) (skip : nat) (at_start : bool)
    (str : string) : string :=
  match str with
  | EmptyString => EmptyString
  | String c r =>
      match skip with
      | S k => simpleSyntax only k false r
      | O =>
          let name := span_var r in
          if at_start && Ascii.eqb c "$" && negb (String.eqb name "") then
            variable only (String "$" name) name
              +:+ simpleSyntax only (String.length name) false r
          else
            match r with
            | String d r' =>
                let name := span_var r' in
                if negb (Js.is_word c) && Ascii.eqb d "$" && negb (String.eqb name "")
                then String c (variable only (String "$" name) name)
                       +:+ simpleSyntax only (S (String.length name)) false r
                else String c (simpleSyntax only 0 false r)
            | EmptyString => String c EmptyString
            end
      end
  end.

(** The text matched by [\$\(\s*([\w\d-_]+)\s*\)] at the head of [str], with
    the name in it. *)
Definition in_string_match (str : string) : option (string * string) :=
  match str with
  | String c (String d r) =>
      if Ascii.eqb c "$" && Ascii.eqb d "(" then
        let r1 := skip_spaces r in
        let name := span_var r1 in
        let r2 := Js.sliceFrom r1 (Z.of_nat (String.length name)) in
        let r3 := skip_spaces r2 in
        match r3 with
        | String e _ =>
            if Ascii.eqb e ")" && negb (String.eqb name "") then
              let len := 2 + (String.length r - String.length r3) + 1 in
              Some (String.substring 0 len str, name)
            else None
        | EmptyString => None
        end
      else None
  | _ => None
  end.

(** [str.replace(/\$\(\s*([\w\d-_]+)\s*\)/g, ...)] *)
Fixpoint inStringSyntax (only : gmap string string) (skip : nat) (str : string)
  : string :=
  match str with
  | EmptyString => EmptyString
  | String c r =>
      match skip with
      | S k => inStringSyntax only k r
      | O =>
          match in_string_match str with
          | Some (all, name) =>
              variable only all name
                +:+ inStringSyntax only (String.length all - 1) r
          | None => String c (inStringSyntax only 0 r)
          end
      end
  end.

Definition bothSyntaxes (only : gmap string string) (str : string) : string :=
  inStringSyntax only 0 (simpleSyntax only 0 true str).

(** [repeat]: the callback is applied until the text no longer changes or
    holds no [$].  The source loops without a bound; [fuel] bounds the number
    of rounds of the model, which returns the text of the last round when it
    runs out. *)
Fixpoint repeat (fuel : nat) (callback : string -> string) (value : string) : string :=
  match fuel with
  | O => value
  | S fuel' =>
      let newValue := callback value in
      if negb (String.eqb newValue value) && Js.includes newValue "$"
      then repeat fuel' callback newValue
      else newValue
  end.

Definition rounds (s : string) : nat := S (String.length s).

Fixpoint visit (only : gmap string string) (n : node) : node :=
  match n with
  | Decl prop value src =>
      let value :=
        if Js.includes value "$"
        then repeat (rounds value) (bothSyntaxes only) value else value in
      let prop :=
        if Js.startsWith prop "$" && negb (Js.startsWith prop "$(") then prop
        else if Js.includes prop "$("
        then repeat (rounds prop) (inStringSyntax only 0) prop else prop in
      Decl prop value src
  | Rule sel nodes src =>
      let sel :=
        if Js.includes sel "$"
        then repeat (rounds sel) (bothSyntaxes only) sel else sel in
      Rule sel (map (visit only) nodes) src
  | AtRule name params nodes src =>
      let params :=
        if Js.includes params "$"
        then repeat (rounds params) (bothSyntaxes only) params else params in
      AtRule name params
        (match nodes with
         | Some l => Some (map (visit only) l)
         | None => None
         end) src
  | Comment _ _ => n
  end.

Definition process (only : gmap string string) (root : list node) : list node :=
  map (visit only) root.

End SimpleVars.

(** ** The plug-in object and the host's visitor loop *)

Module Plugin.
Import Host Mixins.

(** [prepare]: the registry starts from [opts.mixins], with entries that
    hold the value alone.  Such an entry has no [args], which shows on a
    value whose [name] is [mixin]. *)
Definition prepare (opts : options) : gmap string meta :=
  (fun v => {| args := []; content := false;
               mixin := match v with
                        | MCss _ => MNoArgs
                        | _ => v
                        end;
               file := None |})
    <$> mixins_option opts.

(** One walk of the tree with the listeners of the plug-in ([AtRule] with the
    keys [add-mixin], [include] and [mixin]).  The host picks the listener of
    an at-rule by [node.name.toLowerCase()], so an at-rule [INCLUDE] goes to
    the listener of [include]; it attaches the visited node to an exception of
    the listener.  A listener runs on a node before its children are visited,
    and a node that its listener removed is not visited further.  The host
    iterates over children by index: [insertBefore] moves the index past the
    nodes it inserts and the removal of the visited node moves it back by one,
    so the nodes a listener puts in place of the visited node are passed over,
    and left for the next walk.  The state is the registry and the mark of a
    changed tree. *)
Fixpoint walkSync (fuel : nat) (h : helpers) (opts : options) (n : node)
    (st : gmap string meta * bool) {struct n}
  : outcome (list node * (gmap string meta * bool)) :=
  match n with
  | AtRule name params ns src =>
      let rule := {| at_name := name; at_params := params;
                     at_nodes := ns; at_source := src |} in
      let key := Js.toLowerCase name in
      if is_include key then
        '(inserted, _) ← catch_at rule (insertMixin fuel h (fst st) rule opts);
        Ok (inserted, (fst st, true))
      else if String.eqb key "mixin" then
        mixins ← catch_at rule (addMixin h (fst st) rule None);
        Ok ([], (mixins, true))
      else
        match ns with
        | Some l =>
            '(l', st') ← flat_mapSM (walkSync fuel h opts) l st;
            Ok ([AtRule name params (Some l') src], st')
        | None => Ok ([n], st)
        end
  | Rule sel l src =>
      '(l', st') ← flat_mapSM (walkSync fuel h opts) l st;
      Ok ([Rule sel l' src], st')
  | _ => Ok ([n], st)
  end.

(** The loop [while (!root[isClean]) { root[isClean] = true; walkSync(root) }]:
    the children of the root after the run. *)
Fixpoint run (fuel : nat) (h : helpers) (opts : options)
    (mixins : gmap string meta) (root : list node) {struct fuel}
  : outcome (list node) :=
  match fuel with
  | O => OutOfFuel
  | S fuel' =>
      match flat_mapSM (walkSync fuel' h opts) root (mixins, false) with
      | Ok (root', (mixins', dirty)) =>
          if dirty then run fuel' h opts mixins' root' else Ok root'
      | Throw e => Throw e
      | OutOfFuel => OutOfFuel
      | Unmodelled => Unmodelled
      end
  end.

Definition process (fuel : nat) (h : helpers) (opts : options) (root : list node)
  : outcome (list node) :=
  run fuel h opts (prepare opts) root.

(** The helpers of the host.  The text of an at-rule depends on the layout
    of the source, which the tree of the model does not keep: [to_string] is
    the text of an at-rule without a block that the parser has read from a
    header with one blank after the name and nothing after the parameters,
    as the headers of the test suite are ([@mixin ] with its blank, and
    [@include A]). *)
Definition postcss : helpers :=
  {| list_comma := Host.comma;
     vars := SimpleVars.process;
     to_string := fun rule => "@" +:+ at_name rule +:+ " " +:+ at_params rule |}.

End Plugin.

(** ** Vocabulary of the statements *)

Module Spec.
Import Host Mixins Plugin.

(** [map.get(key)] on a [Map]. *)
Fixpoint Map_get (m : list (string * string)) (k : string) : option string :=
  match m with
  | [] => None
  | (k', v) :: r => if String.eqb k' k then Some v else Map_get r k
  end.

(** The source position an error carries, if any: the [line] and [column]
    of a [CssSyntaxError].  Attaching a node leaves them as they are. *)
Fixpoint error_source (e : error) : source :=
  match e with
  | CssSyntaxError src _ => src
  | JsError _ => None
  | TypeError _ => None
  | Attached _ thrown => error_source thrown
  end.

(** [e.postcssNode] *)
Definition postcssNode (e : error) : option at_rule :=
  match e with
  | Attached node _ => Some node
  | _ => None
  end.

(** [e.message], but for the name of the plug-in and the position that the
    host puts in front of the message of a [CssSyntaxError]. *)
Fixpoint error_message (e : error) : string :=
  match e with
  | CssSyntaxError _ message => message
  | JsError message => message
  | TypeError message => message
  | Attached _ thrown => error_message thrown
  end.


(** No content placeholder at any depth. *)
Definition no_placeholder (l : list node) : bool :=
  forallb (fun n => negb (has_at_rule "mixin-content" n)) l.

(** Whether the name is one of the three the plug-in listens to, letter for
    letter, which is how the walk of [insertMixin] over the block of an
    invocation compares names. *)
Definition listened (name : string) : bool :=
  is_include name || String.eqb name "mixin".

(** Whether the host runs a listener of the plug-in on an at-rule of that
    name: the host compares names in lower case. *)
Definition handled (name : string) : bool := listened (Js.toLowerCase name).

(** An at-rule with a name the plug-in listens to, letter for letter, at some
    depth of the node; a list of nodes without any is [literal]. *)
Fixpoint is_site (n : node) : bool :=
  match n with
  | AtRule name _ ns _ =>
      listened name ||
      match ns with
      | Some l => existsb is_site l
      | None => false
      end
  | Rule _ l _ => existsb is_site l
  | _ => false
  end.

Definition literal (l : list node) : bool := negb (existsb is_site l).

(** A definition or an invocation at some depth of the node, as the host
    finds them; a list of nodes without any is [inert]: a run has nothing to
    do on it. *)
Fixpoint is_handled_site (n : node) : bool :=
  match n with
  | AtRule name _ ns _ =>
      handled name ||
      match ns with
      | Some l => existsb is_handled_site l
      | None => false
      end
  | Rule _ l _ => existsb is_handled_site l
  | _ => false
  end.

Definition inert (l : list node) : bool := negb (existsb is_handled_site l).

(** [one_removed m body body']: [body'] is [body] without one occurrence of
    the node [m], at the top or inside nested rules and at-rules. *)
Inductive one_removed (m : node) : list node -> list node -> Prop :=
| removed_here l1 l2 : one_removed m (l1 ++ m :: l2) (l1 ++ l2)
| removed_in_rule l1 l2 sel ns ns' src :
    one_removed m ns ns' ->
    one_removed m (l1 ++ Rule sel ns src :: l2) (l1 ++ Rule sel ns' src :: l2)
| removed_in_at_rule l1 l2 name params ns ns' src :
    one_removed m ns ns' ->
    one_removed m (l1 ++ AtRule name params (Some ns) src :: l2)
                  (l1 ++ AtRule name params (Some ns') src :: l2).

(** [values_rewritten n n']: [n'] is [n] up to the values of the declarations
    that are [n] itself or lie inside nested rules; at-rules and comments are
    the same on both sides, with everything inside them. *)
Inductive values_rewritten : node -> node -> Prop :=
| rewritten_decl prop value value' src :
    values_rewritten (Decl prop value src) (Decl prop value' src)
| rewritten_rule sel ns ns' src :
    Forall2 values_rewritten ns ns' ->
    values_rewritten (Rule sel ns src) (Rule sel ns' src)
| rewritten_at_rule name params ns src :
    values_rewritten (AtRule name params ns src) (AtRule name params ns src)
| rewritten_comment text src :
    values_rewritten (Comment text src) (Comment text src).

(** The exceptions a call of the engine on [rule] throws itself: the four
    errors of the engine, and the three of the runtime on a read of a property
    of nothing. *)
Inductive raised_at (h : helpers) (rule : at_rule) : error -> Prop :=
| MalformedDefinition :
    raised_at h rule
      (CssSyntaxError (at_source rule)
         ("Invalid mixin definition: " +:+ to_string h rule))
| UndefinedMacro name :
    raised_at h rule
      (CssSyntaxError (at_source rule) ("Undefined mixin " +:+ name))
| UnbalancedSingleArg value :
    raised_at h rule
      (CssSyntaxError (at_source rule)
         ("Content of single-arg must be wrapped in brackets: " +:+ value))
| InvalidMacroType name value :
    raised_at h rule (JsError ("Wrong " +:+ name +:+ " mixin type " +:+ typeof value))
| MissingBody :
    raised_at h rule
      (TypeError "Cannot read properties of undefined (reading 'length')")
| MissingMixin (null : bool) :
    raised_at h rule
      (TypeError ("Cannot read properties of "
                    +:+ (if null then "null" else "undefined")
                    +:+ " (reading 'name')")).

(** The exceptions of a call of [insertMixin] on [rule]: one that the call
    throws itself, or the exception of the call on an invocation inside the
    block of [rule], to which the walk over the block has attached that
    invocation. *)
Inductive thrown_by (h : helpers) (rule : at_rule) : error -> Prop :=
| thrown_here e : raised_at h rule e -> thrown_by h rule e
| thrown_inside child e :
    is_include (at_name child) = true ->
    thrown_by h child e -> thrown_by h rule (Attached child e).

(** [aborts fuel h opts st nodes e]: in the walk of [nodes] from the state
    [st], the listener of some node throws, at whatever depth, after the walk
    of the nodes before it has gone through; [e] is what it throws, with the
    node attached. *)
Inductive aborts (fuel : nat) (h : helpers) (opts : options)
  : gmap string meta * bool -> list node -> error -> Prop :=
| aborts_invocation st rule rest e :
    is_include (Js.toLowerCase (at_name rule)) = true ->
    insertMixin fuel h (fst st) rule opts = Throw e ->
    aborts fuel h opts st (of_at_rule rule :: rest) (Attached rule e)
| aborts_definition st rule rest e :
    String.eqb (Js.toLowerCase (at_name rule)) "mixin" = true ->
    addMixin h (fst st) rule None = Throw e ->
    aborts fuel h opts st (of_at_rule rule :: rest) (Attached rule e)
| aborts_in_rule st sel ns src rest e :
    aborts fuel h opts st ns e ->
    aborts fuel h opts st (Rule sel ns src :: rest) e
| aborts_in_at_rule st name params ns src rest e :
    handled name = false ->
    aborts fuel h opts st ns e ->
    aborts fuel h opts st (AtRule name params (Some ns) src :: rest) e
| aborts_later st n l st1 rest e :
    walkSync fuel h opts n st = Ok (l, st1) ->
    aborts fuel h opts st1 rest e ->
    aborts fuel h opts st (n :: rest) e.

(** [run_aborts h opts fuel mixins root e]: some walk of the run aborts with
    [e], after walks that have gone through and changed the tree. *)
Inductive run_aborts (h : helpers) (opts : options)
  : nat -> gmap string meta -> list node -> error -> Prop :=
| aborts_in_walk fuel mixins root e :
    aborts fuel h opts (mixins, false) root e ->
    run_aborts h opts (S fuel) mixins root e
| aborts_in_next_walk fuel mixins root root' mixins' e :
    flat_mapSM (walkSync fuel h opts) root (mixins, false)
    = Ok (root', (mixins', true)) ->
    run_aborts h opts fuel mixins' root' e ->
    run_aborts h opts (S fuel) mixins root e.


(** The expansion of a style-sheet mixin. *)
Definition css_expansion (h : helpers) (m : meta) (body : list node)
    (params : list string) (rule : at_rule) (singleArgumentsMap : list (string * string))
  : list node :=
  let proxy :=
    if Nat.eqb (length (args m)) 0 then body
    else vars h (bind_values (args m) params) body in
  let proxy := if content m then fst (processMixinContent proxy rule) else proxy in
  unwrapSingleArguments proxy singleArgumentsMap.

(** The entry [addMixin] makes for a definition with the parameters
    [paramString]. *)
Definition definition_entry (h : helpers) (rule : at_rule) (paramString : string)
    (file : option string) : meta :=
  {| args := if Nat.eqb (String.length paramString) 0 then []
             else map formal (list_comma h paramString);
     content := has_mixin_content rule;
     mixin := if String.eqb (at_name rule) "mixin" then MCss rule else MNode rule;
     file := file |}.

(** [expands h mixins opts rule inserted]: the registry has what it takes for
    the invocation [rule] to expand to [inserted].  The header of the
    invocation parses, its single-arg tokens are wrapped, and
    - its mixin is a style-sheet definition with a block, or
    - its mixin is an object, or
    - its mixin is a function, and the block of the invocation has no at-rule
      called as an invocation or a definition, or
    - its name has no entry and is inherited from nowhere, and [silent] is
      set. *)
Inductive expands (h : helpers) (mixins : gmap string meta) (opts : options)
    (rule : at_rule) : list node -> Prop :=
| expands_css name paramString m definition body singleArgumentsMap :
    parseMixin h rule = Ok (name, paramString) ->
    mixins !! name = Some m ->
    mixin m = MCss definition ->
    at_nodes definition = Some body ->
    single_arguments (actuals h paramString) rule = Ok singleArgumentsMap ->
    expands h mixins opts rule
      (css_expansion h m body (actuals h paramString) rule singleArgumentsMap)
| expands_object name paramString m obj singleArgumentsMap :
    parseMixin h rule = Ok (name, paramString) ->
    mixins !! name = Some m ->
    mixin m = MObject obj ->
    single_arguments (actuals h paramString) rule = Ok singleArgumentsMap ->
    expands h mixins opts rule (insertObject rule obj singleArgumentsMap)
| expands_function name paramString m fn singleArgumentsMap :
    parseMixin h rule = Ok (name, paramString) ->
    mixins !! name = Some m ->
    mixin m = MFunction fn ->
    single_arguments (actuals h paramString) rule = Ok singleArgumentsMap ->
    literal (default [] (at_nodes rule)) = true ->
    expands h mixins opts rule
      match fn rule (actuals h paramString) with
      | Some obj => insertObject rule obj singleArgumentsMap
      | None => []
      end
| expands_silent name paramString singleArgumentsMap :
    parseMixin h rule = Ok (name, paramString) ->
    mixins !! name = None ->
    inherited mixins name = NotInherited ->
    single_arguments (actuals h paramString) rule = Ok singleArgumentsMap ->
    silent opts = true ->
    expands h mixins opts rule [].

(** [resolves h mixins opts k nodes out]: with the registry [mixins], every
    invocation in [nodes] expands, and so does every invocation an expansion
    brings in, up to [k] levels deep; [out] is [nodes] with the expansions in
    place of the invocations.  No definition is met on the way. *)
Inductive resolves (h : helpers) (mixins : gmap string meta) (opts : options)
  : nat -> list node -> list node -> Prop :=
| resolves_nil k : resolves h mixins opts k [] []
| resolves_site k rule inserted out rest out' :
    is_include (Js.toLowerCase (at_name rule)) = true ->
    expands h mixins opts rule inserted ->
    resolves h mixins opts k inserted out ->
    resolves h mixins opts (S k) rest out' ->
    resolves h mixins opts (S k) (of_at_rule rule :: rest) (out ++ out')
| resolves_rule k sel ns ns' src rest out' :
    resolves h mixins opts k ns ns' ->
    resolves h mixins opts k rest out' ->
    resolves h mixins opts k (Rule sel ns src :: rest) (Rule sel ns' src :: out')
| resolves_at_rule k name params ns ns' src rest out' :
    handled name = false ->
    resolves h mixins opts k ns ns' ->
    resolves h mixins opts k rest out' ->
    resolves h mixins opts k (AtRule name params (Some ns) src :: rest)
                             (AtRule name params (Some ns') src :: out')
| resolves_leaf_at_rule k name params src rest out' :
    handled name = false ->
    resolves h mixins opts k rest out' ->
    resolves h mixins opts k (AtRule name params None src :: rest)
                             (AtRule name params None src :: out')
| resolves_decl k prop value src rest out' :
    resolves h mixins opts k rest out' ->
    resolves h mixins opts k (Decl prop value src :: rest) (Decl prop value src :: out')
| resolves_comment k text src rest out' :
    resolves h mixins opts k rest out' ->
    resolves h mixins opts k (Comment text src :: rest) (Comment text src :: out').

(** [sheet_resolves h opts final k mixins nodes out mixins']: the first walk
    of a run over [nodes] goes through.  It starts with the registry [mixins]
    and ends with [mixins']: a definition whose header parses is taken into
    the registry, and an invocation expands with the registry as it is when
    the walk comes to it.  What an expansion brings in is left to the walks
    that follow, which have the registry [final] of the end of the first: it
    resolves with that registry, up to [k] levels deep.  [out] is [nodes]
    without the definitions and with the resolved expansions in place of the
    invocations. *)
Inductive sheet_resolves (h : helpers) (opts : options) (final : gmap string meta)
    (k : nat)
  : gmap string meta -> list node -> list node -> gmap string meta -> Prop :=
| sheet_nil mixins : sheet_resolves h opts final k mixins [] [] mixins
| sheet_site mixins rule inserted out rest out' mixins' :
    is_include (Js.toLowerCase (at_name rule)) = true ->
    expands h mixins opts rule inserted ->
    resolves h final opts k inserted out ->
    sheet_resolves h opts final k mixins rest out' mixins' ->
    sheet_resolves h opts final k mixins (of_at_rule rule :: rest) (out ++ out') mixins'
| sheet_definition mixins rule name paramString rest out' mixins' :
    String.eqb (Js.toLowerCase (at_name rule)) "mixin" = true ->
    parseMixin h rule = Ok (name, paramString) ->
    sheet_resolves h opts final k
      (<[name := definition_entry h rule paramString None]> mixins) rest out' mixins' ->
    sheet_resolves h opts final k mixins (of_at_rule rule :: rest) out' mixins'
| sheet_rule mixins sel ns ns' src mixins1 rest out' mixins' :
    sheet_resolves h opts final k mixins ns ns' mixins1 ->
    sheet_resolves h opts final k mixins1 rest out' mixins' ->
    sheet_resolves h opts final k mixins (Rule sel ns src :: rest)
                                         (Rule sel ns' src :: out') mixins'
| sheet_at_rule mixins name params ns ns' src mixins1 rest out' mixins' :
    handled name = false ->
    sheet_resolves h opts final k mixins ns ns' mixins1 ->
    sheet_resolves h opts final k mixins1 rest out' mixins' ->
    sheet_resolves h opts final k mixins (AtRule name params (Some ns) src :: rest)
                                         (AtRule name params (Some ns') src :: out') mixins'
| sheet_leaf_at_rule mixins name params src rest out' mixins' :
    handled name = false ->
    sheet_resolves h opts final k mixins rest out' mixins' ->
    sheet_resolves h opts final k mixins (AtRule name params None src :: rest)
                                         (AtRule name params None src :: out') mixins'
| sheet_decl mixins prop value src rest out' mixins' :
    sheet_resolves h opts final k mixins rest out' mixins' ->
    sheet_resolves h opts final k mixins (Decl prop value src :: rest)
                                         (Decl prop value src :: out') mixins'
| sheet_comment mixins text src rest out' mixins' :
    sheet_resolves h opts final k mixins rest out' mixins' ->
    sheet_resolves h opts final k mixins (Comment text src :: rest)
                                         (Comment text src :: out') mixins'.

(** *** Fixtures of the examples *)

(** [@mixin name { body }] as an at-rule and as a registry entry, and
    [@include name;]. *)
Definition definition_of (name : string) (body : list node) : at_rule :=
  {| at_name := "mixin"; at_params := name;
     at_nodes := Some body; at_source := None |}.

Definition css_mixin (name : string) (body : list node) : meta :=
  {| args := []; content := false;
     mixin := MCss (definition_of name body); file := None |}.

Definition invocation (name : string) : at_rule :=
  {| at_name := "include"; at_params := name;
     at_nodes := None; at_source := None |}.

(** The registry of a chain: [A] invokes [B], and [B] invokes [C]. *)
Definition abc_registry : gmap string meta :=
  <["A" := css_mixin "A" [AtRule "include" "B" None None]]>
    (<["B" := css_mixin "B" [AtRule "include" "C" None None]]>
       (<["C" := css_mixin "C" [Decl "c" "1" None]]> ∅)).

(** The sheet that defines the three and invokes [A]. *)
Definition chain_sheet : list node :=
  [of_at_rule (definition_of "C" [Decl "c" "1" None]);
   of_at_rule (definition_of "B" [AtRule "include" "C" None None]);
   of_at_rule (definition_of "A" [AtRule "include" "B" None None]);
   of_at_rule (invocation "A")].

(** [@mixin m $a { v: $a; }] *)
Definition v_mixin : meta :=
  {| args := [("a", "")]; content := false;
     mixin := MCss {| at_name := "mixin"; at_params := "m $a";
                      at_nodes := Some [Decl "v" "$a" None];
                      at_source := None |};
     file := None |}.

Definition v_registry : gmap string meta := {[ "m" := v_mixin ]}.

Definition no_options : options := {| silent := false; mixins_option := ∅ |}.

Definition first_position : source := Some {| line := 1; column := 1 |}.

End Spec.

(** ** The loader: options, watched directories and the module cache

    The part of [index.js] that brings in mixins from files.  Reading the
    files themselves ([loadGlobalMixin]: the glob, the file system, [require])
    is outside the model; what is modelled is the bookkeeping around it: the
    globs the plug-in builds from its options, the entries it copies into
    the registry, the messages it pushes to [helpers.result.messages] and
    the modules it evicts from [require.cache]. *)

Module Loader.
Import Host Mixins.

Definition MIXINS_GLOB : string := "*.{js,cjs,mjs,json,css,sss,pcss}".

(** The messages the loader pushes, by their [type]: [dependency] with
    [file] and [parent], [dir-dependency] with [dir], [glob] and [parent]. *)
Inductive message : Type :=
| Dependency (file : option string) (parent : string)
| DirDependency (dir glob parent : string).

(** A module of the runtime, with the modules it required.  The graph of
    modules is given by its unfolding from the module: the source follows
    [children] without keeping track of the modules it has seen, so a module
    reached twice is visited twice.  (On a cyclic graph the source does not
    return; such graphs have no finite unfolding.) *)
Inductive js_module : Type :=
| JsModule (id : string) (children : list js_module).

Definition module_id (module : js_module) : string :=
  match module with JsModule id _ => id end.

(** [processModulesForHotReloadRecursively]: the state is the list of
    messages and [require.cache]. *)
Fixpoint processModulesForHotReloadRecursively (module : js_module)
    (st : list message * gmap string js_module) {struct module}
  : list message * gmap string js_module :=
  match module with
  | JsModule moduleId children =>
      let st :=
        fold_left
          (fun st childModule =>
             processModulesForHotReloadRecursively childModule
               (fst st ++ [Dependency (Some (module_id childModule)) moduleId], snd st))
          children st in
      (fst st, delete moduleId (snd st))
  end.

(** [addGlobalMixins]: [global] is given by its entries in the order in which
    [for (let name in global)] enumerates them; [parent || ''] is the text of
    [parent] when there is one. *)
Definition addGlobalMixins (messages : list message) (local : gmap string meta)
    (global : list (string * meta)) (parent : option string)
  : list message * gmap string meta :=
  fold_left
    (fun st entry =>
       (fst st ++ [Dependency (file (snd entry)) (default "" parent)],
        <[fst entry := snd entry]> (snd st)))
    global (messages, local).

(** [new Set(values)], by the values it holds in the order of iteration:
    [add] keeps a value it has where it is. *)
Definition Set_add (set : list string) (value : string) : list string :=
  if existsb (String.eqb value) set then set else set ++ [value].

Definition new_Set (values : list string) : list string :=
  fold_left Set_add values [].

(** [watchNewMixins] *)
Definition watchNewMixins (messages : list message) (mixinsDirs : list string)
  : list message :=
  let uniqueDirsPath := new_Set mixinsDirs in
  fold_left (fun messages dir => messages ++ [DirDependency dir MIXINS_GLOB ""])
            uniqueDirsPath messages.

(** The value of a path option: one path, or an array of paths. *)
Inductive paths : Type :=
| OnePath (path : string)
| Paths (array : list string).

(** The fields of [opts] that the loader reads; an absent field is [None]. *)
Record loading := {
  mixinsDir : option paths;
  mixinsFiles : option paths;
  parent : option string
}.

(** The test [if (v)]: an absent field and the empty text are false, every
    array is true. *)
Definition truthy (v : option paths) : bool :=
  match v with
  | None => false
  | Some (OnePath path) => negb (String.eqb path "")
  | Some (Paths _) => true
  end.

(** Lines 245 to 248: [opts.mixinsDir] after the plug-in has been built. *)
Definition mixinsDir_array (opts : loading) : option paths :=
  if truthy (mixinsDir opts) then
    match mixinsDir opts with
    | Some (OnePath path) => Some (Paths [path])
    | v => v
    end
  else mixinsDir opts.

(** [path.replace(/\\/g, '/')] *)
Fixpoint slashes (path : string) : string :=
  match path with
  | EmptyString => EmptyString
  | String c r => String (if Ascii.eqb c "\" then "/"%char else c) (slashes r)
  end.

(** Lines 244 to 252: the globs handed to the loader.  [join] is the function
    of that name of the module [node:path], which depends on the platform. *)
Definition loadFrom (join : string -> string -> string) (opts : loading)
  : list string :=
  let loadFrom :=
    if truthy (mixinsDir opts) then
      match mixinsDir_array opts with
      | Some (Paths dirs) => map (fun dir => join dir MIXINS_GLOB) dirs
      | _ => []
      end
    else [] in
  let loadFrom :=
    if truthy (mixinsFiles opts) then
      match mixinsFiles opts with
      | Some (OnePath path) => loadFrom ++ [path]
      | Some (Paths array) => loadFrom ++ array
      | None => loadFrom
      end
    else loadFrom in
  map slashes loadFrom.

(** The hook [OnceExit]: the messages after it. *)
Definition OnceExit (opts : loading) (messages : list message) : list message :=
  match mixinsDir_array opts with
  | Some (Paths dirs) =>
      if Nat.ltb 0 (length dirs) then watchNewMixins messages dirs else messages
  | _ => messages
  end.

End Loader.

(** ** Vocabulary of the further properties *)

Module Props.
Import Host Mixins.

(** Every character of the text satisfies [p]. *)
Fixpoint all_chars (p : ascii -> bool) (s : string) : bool :=
  match s with
  | EmptyString => true
  | String c r => p c && all_chars p r
  end.

(** A name as the header pattern reads one: letters, [_] and [-], at least
    one. *)
Definition is_name (s : string) : bool :=
  negb (String.eqb s "") && all_chars is_name_char s.

(** The text begins with a character of a name. *)
Definition head_is_name (s : string) : bool :=
  match s with
  | String c _ => is_name_char c
  | EmptyString => false
  end.

(** The text begins with a quote character. *)
Definition head_is_quote (s : string) : bool :=
  match s with
  | String c _ => Js.is_quote c
  | EmptyString => false
  end.

Definition node_source (n : node) : source :=
  match n with
  | Decl _ _ src => src
  | Rule _ _ src => src
  | AtRule _ _ _ src => src
  | Comment _ src => src
  end.

(** The node is a content placeholder itself. *)
Definition is_placeholder (n : node) : bool :=
  match n with
  | AtRule name _ _ _ => String.eqb name "mixin-content"
  | _ => false
  end.

(** Some declaration that is the node itself or lies inside nested rules
    has one of the keys in its value. *)
Fixpoint mentions (keys : list string) (n : node) : bool :=
  match n with
  | Decl _ value _ => existsb (Js.includes value) keys
  | Rule _ nodes _ => existsb (mentions keys) nodes
  | _ => false
  end.


(** The identifiers of a module and of the modules under it. *)
Fixpoint module_ids (module : Loader.js_module) : list string :=
  match module with
  | Loader.JsModule id children => id :: flat_map module_ids children
  end.

(** The number of modules under a module, each counted as often as it is
    reached. *)
Fixpoint descendants (module : Loader.js_module) : nat :=
  match module with
  | Loader.JsModule _ children =>
      fold_right (fun child n => S (descendants child) + n) 0 children
  end.

(** What the visit of a module does to the state: the cache loses the
    modules of the tree and nothing else, and the messages grow by one
    dependency for each module under the root. *)
Definition evicts (module : Loader.js_module) : Prop :=
  forall messages cache,
    (forall id,
       snd (Loader.processModulesForHotReloadRecursively module (messages, cache)) !! id
       = if bool_decide (id ∈ module_ids module) then None else cache !! id)
    /\ exists pushed,
         fst (Loader.processModulesForHotReloadRecursively module (messages, cache))
         = messages ++ pushed
         /\ length pushed = descendants module
         /\ Forall (fun message =>
                      exists child parent,
                        message = Loader.Dependency (Some child) parent
                        /\ child ∈ module_ids module
                        /\ parent ∈ module_ids module) pushed.

(** *** Fixtures *)

(** A function mixin that returns the block of its invocation as an object,
    and a registry with it and a style-sheet mixin. *)
Definition block_mixin : meta :=
  {| args := []; content := false;
     mixin := MFunction (fun rule _ => at_nodes rule); file := None |}.

Definition block_registry : gmap string meta :=
  <["f" := block_mixin]>
    (<["b" := {| args := []; content := false;
                 mixin := MCss {| at_name := "mixin"; at_params := "b";
                                  at_nodes := Some [Decl "x" "1" None];
                                  at_source := None |};
                 file := None |}]> ∅).

(** [@include f { @include b; }] *)
Definition block_invocation : at_rule :=
  {| at_name := "include"; at_params := "f";
     at_nodes := Some [AtRule "include" "b" None None]; at_source := None |}.

(** An entry read from a file of mixins. *)
Definition file_mixin : meta :=
  {| args := []; content := false; mixin := MObject [];
     file := Some "/mixins/a.js" |}.

End Props.

Import Host Mixins Plugin Spec.
Import Props.

(** ** Strings *)

Lemma append_nil_l (b : string) : "" +:+ b = b.
Proof. reflexivity. Qed.

Lemma append_cons (c : ascii) (a b : string) : String c a +:+ b = String c (a +:+ b).
Proof. reflexivity. Qed.

Lemma length_append (a b : string) :
  String.length (a +:+ b) = String.length a + String.length b.
Proof.
  induction a as [|x a IH]; [reflexivity|].
  rewrite append_cons. simpl. now rewrite IH.
Qed.

Lemma substring_prefix (a b : string) :
  String.substring 0 (String.length a) (a +:+ b) = a.
Proof.
  induction a as [|x a IH].
  - rewrite append_nil_l. destruct b; reflexivity.
  - rewrite append_cons. simpl. now rewrite IH.
Qed.

Lemma startsWith_char (s : string) (c : ascii) :
  Js.startsWith s (String c "") = true -> exists r, s = String c r.
Proof.
  unfold Js.startsWith. destruct s as [|b s]; simpl; [discriminate|].
  destruct (ascii_dec c b) as [->|]; [eauto | discriminate].
Qed.

Lemma endsWith_suffix (s suffix : string) :
  Js.endsWith s suffix = true -> exists pre, s = pre +:+ suffix.
Proof.
  induction s as [|c s IH]; intros H.
  - change (String.eqb "" suffix || false = true) in H.
    rewrite orb_false_r in H. apply String.eqb_eq in H. subst. now exists "".
  - change (String.eqb (String c s) suffix || Js.endsWith s suffix = true) in H.
    apply orb_true_iff in H as [H|H].
    + apply String.eqb_eq in H. exists "". now rewrite H.
    + destruct (IH H) as [pre ->]. now exists (String c pre).
Qed.

Lemma slice_inner (inner : string) :
  Js.slice ("(" +:+ inner +:+ ")") 1 (-1) = inner.
Proof.
  unfold Js.slice. rewrite append_cons, append_nil_l.
  simpl String.length. rewrite length_append. simpl String.length.
  replace ((-1 <? 0)%Z) with true by reflexivity.
  replace ((1 <? 0)%Z) with false by reflexivity.
  set (n := String.length inner).
  replace (Z.to_nat (Z.min 1 (Z.of_nat (S (n + 1))))) with 1 by lia.
  replace (Z.to_nat (Z.max (Z.of_nat (S (n + 1)) + -1) 0
                     - Z.min 1 (Z.of_nat (S (n + 1))))) with n by lia.
  simpl. apply substring_prefix.
Qed.

(** A text that starts with an opening and ends with a closing parenthesis
    is a parenthesised text. *)
Lemma wrapped_in_brackets (content : string) :
  Js.startsWith content "(" = true -> Js.endsWith content ")" = true ->
  exists inner, content = "(" +:+ inner +:+ ")".
Proof.
  intros Hs He. apply startsWith_char in Hs as [r ->].
  apply endsWith_suffix in He as [pre He].
  destruct pre as [|c pre].
  - discriminate.
  - rewrite append_cons in He. injection He as <- ->. now exists pre.
Qed.

(** ** Exceptions and lists *)

Lemma mapM_Ok {A B : Type} (f : A -> outcome B) (l : list A) (ys : list B) :
  mapM f l = Ok ys -> Forall2 (fun x y => f x = Ok y) l ys.
Proof.
  revert ys. induction l as [|x l IH]; intros ys H; simpl in H.
  - injection H as <-. constructor.
  - unfold mbind, outcome_bind in H.
    destruct (f x) as [y| | |] eqn:Hx; try discriminate.
    destruct (mapM f l) as [ys'| | |]; try discriminate.
    injection H as <-. constructor; auto.
Qed.

Lemma mapM_Throw {A B : Type} (f : A -> outcome B) (l : list A) (e : error) :
  mapM f l = Throw e -> exists x, x ∈ l /\ f x = Throw e.
Proof.
  induction l as [|x l IH]; intros H; simpl in H; [discriminate|].
  unfold mbind, outcome_bind in H.
  destruct (f x) as [y| | |] eqn:Hx; try discriminate.
  - destruct (mapM f l) as [ys'| | |]; try discriminate.
    destruct IH as (x' & Hin & Hx'); [congruence|].
    exists x'. split; [now right | exact Hx'].
  - exists x. split; [now left | congruence].
Qed.

Lemma mapM_not_OutOfFuel {A B : Type} (f : A -> outcome B) (l : list A) :
  (forall x, f x <> OutOfFuel) -> mapM f l <> OutOfFuel.
Proof.
  intros Hf. induction l as [|x l IH]; simpl; [discriminate|].
  unfold mbind, outcome_bind.
  specialize (Hf x). destruct (f x); try congruence.
  destruct (mapM f l); congruence.
Qed.

Lemma mapM_not_Unmodelled {A B : Type} (f : A -> outcome B) (l : list A) :
  (forall x, f x <> Unmodelled) -> mapM f l <> Unmodelled.
Proof.
  intros Hf. induction l as [|x l IH]; simpl; [discriminate|].
  unfold mbind, outcome_bind.
  specialize (Hf x). destruct (f x); try congruence.
  destruct (mapM f l); congruence.
Qed.

(** ** The [Map] of single arguments *)

Lemma Map_get_set_eq (m : list (string * string)) (k v : string) :
  Map_get (Map_set m k v) k = Some v.
Proof.
  induction m as [|[k' v'] m IH]; simpl.
  - now rewrite String.eqb_refl.
  - destruct (String.eqb k' k) eqn:E; simpl.
    + now rewrite String.eqb_refl.
    + now rewrite E.
Qed.

Lemma Map_get_set_ne (m : list (string * string)) (k k' v : string) :
  k <> k' -> Map_get (Map_set m k v) k' = Map_get m k'.
Proof.
  intros Hne. induction m as [|[k0 v0] m IH]; simpl.
  - apply String.eqb_neq in Hne. now rewrite Hne.
  - destruct (String.eqb k0 k) eqn:E; simpl.
    + apply String.eqb_eq in E. subst k0.
      apply String.eqb_neq in Hne. now rewrite Hne.
    + destruct (String.eqb k0 k'); [reflexivity | exact IH].
Qed.

(** When the value of an entry is a function of its key, the map gives
    every key of the entries that value. *)
Lemma Map_get_fold (f : string -> string) (entries m : list (string * string)) (k : string) :
  Forall (fun e => snd e = f (fst e)) entries ->
  (exists v, (k, v) ∈ entries) \/ Map_get m k = Some (f k) ->
  Map_get (fold_left (fun m e => Map_set m (fst e) (snd e)) entries m) k = Some (f k).
Proof.
  revert m. induction entries as [|[k0 v0] entries IH]; intros m Hf Hk; simpl.
  - destruct Hk as [[v Hv]|Hk]; [inversion Hv | exact Hk].
  - inversion Hf as [|? ? Hv0 Hf']; subst. simpl in Hv0.
    apply IH; [exact Hf'|].
    destruct (String.eqb k0 k) eqn:E.
    + apply String.eqb_eq in E. subst k0. right. rewrite Hv0. apply Map_get_set_eq.
    + apply String.eqb_neq in E.
      destruct Hk as [[v Hv]|Hk].
      * apply elem_of_cons in Hv as [Hv|Hv]; [congruence | left; eauto].
      * right. now rewrite Map_get_set_ne.
Qed.

Lemma new_Map_get (f : string -> string) (entries : list (string * string)) (k v : string) :
  Forall (fun e => snd e = f (fst e)) entries ->
  (k, v) ∈ entries -> Map_get (new_Map entries) k = Some v.
Proof.
  intros Hf Hin. unfold new_Map.
  assert (v = f k) as ->.
  { rewrite Forall_forall in Hf. exact (Hf (k, v) Hin). }
  apply Map_get_fold; eauto.
Qed.

(** ** Single arguments (C4) *)

Lemma resolve_not_OutOfFuel (value : string) (rule : at_rule) :
  resolveSingleArgumentValue value rule <> OutOfFuel.
Proof.
  unfold resolveSingleArgumentValue.
  destruct (negb _ || negb _); discriminate.
Qed.

Lemma resolve_not_Unmodelled (value : string) (rule : at_rule) :
  resolveSingleArgumentValue value rule <> Unmodelled.
Proof.
  unfold resolveSingleArgumentValue.
  destruct (negb _ || negb _); discriminate.
Qed.

Lemma resolve_wrapped (value : string) (parentNode : at_rule) :
  Js.startsWith (Js.trim (Js.sliceFrom value 10)) "("
    && Js.endsWith (Js.trim (Js.sliceFrom value 10)) ")" = true ->
  exists inner,
    Js.trim (Js.sliceFrom value 10) = "(" +:+ inner +:+ ")"
    /\ resolveSingleArgumentValue value parentNode = Ok inner.
Proof.
  intros H. apply andb_true_iff in H as [Hs He].
  destruct (wrapped_in_brackets _ Hs He) as [inner Hc].
  exists inner. split; [exact Hc|].
  unfold resolveSingleArgumentValue.
  change (Z.of_nat (String.length "single-arg")) with 10%Z.
  rewrite Hs, He. simpl. rewrite Hc. now rewrite slice_inner.
Qed.

Lemma resolve_unwrapped (value : string) (parentNode : at_rule) :
  Js.startsWith (Js.trim (Js.sliceFrom value 10)) "("
    && Js.endsWith (Js.trim (Js.sliceFrom value 10)) ")" = false ->
  resolveSingleArgumentValue value parentNode =
    Throw (CssSyntaxError (at_source parentNode)
             ("Content of single-arg must be wrapped in brackets: " +:+ value)).
Proof.
  intros H. unfold resolveSingleArgumentValue.
  change (Z.of_nat (String.length "single-arg")) with 10%Z.
  rewrite <- negb_andb, H. reflexivity.
Qed.

(** The entries of the map are the marked tokens with their inner texts. *)
Lemma single_arguments_Ok (params : list string) (rule : at_rule)
    (m : list (string * string)) (value : string) :
  single_arguments params rule = Ok m ->
  value ∈ params -> Js.startsWith value "single-arg" = true ->
  exists inner,
    resolveSingleArgumentValue value rule = Ok inner /\ Map_get m value = Some inner.
Proof.
  unfold single_arguments. intros H Hin Hmark.
  unfold mbind, outcome_bind in H.
  destruct (mapM _ _) as [entries| | |] eqn:Hm; try discriminate.
  injection H as <-.
  apply mapM_Ok in Hm.
  set (f := fun k => match resolveSingleArgumentValue k rule with
                     | Ok inner => inner
                     | _ => ""
                     end).
  assert (Hf : Forall (fun e => snd e = f (fst e)) entries).
  { clear Hin. induction Hm as [|x e l es Hx _ IH]; constructor; [|exact IH].
    unfold f. destruct (resolveSingleArgumentValue x rule) eqn:Hr; try discriminate.
    injection Hx as <-. simpl. now rewrite Hr. }
  assert (Hv : value ∈ filter (fun param => Js.startsWith param "single-arg" = true) params).
  { apply list_elem_of_filter. split; assumption. }
  assert (He : exists inner, resolveSingleArgumentValue value rule = Ok inner
                             /\ (value, inner) ∈ entries).
  { clear Hf. induction Hm as [|x e l es Hx _ IH]; [inversion Hv|].
    apply elem_of_cons in Hv as [->|Hv].
    - destruct (resolveSingleArgumentValue x rule) as [inner| | |]; try discriminate.
      injection Hx as <-. exists inner. split; [reflexivity | now left].
    - destruct (IH Hv) as (inner & Hr & Hi). exists inner. split; [exact Hr | now right]. }
  destruct He as (inner & Hr & Hi).
  exists inner. split; [exact Hr|]. now apply (new_Map_get f).
Qed.

Lemma single_arguments_Throw (params : list string) (rule : at_rule) (e : error) :
  single_arguments params rule = Throw e ->
  exists value,
    value ∈ params /\ Js.startsWith value "single-arg" = true
    /\ resolveSingleArgumentValue value rule = Throw e.
Proof.
  unfold single_arguments. intros H.
  unfold mbind, outcome_bind in H.
  destruct (mapM _ _) as [entries| | |] eqn:Hm; try discriminate.
  injection H as <-.
  apply mapM_Throw in Hm as (x & Hin & Hx).
  apply list_elem_of_filter in Hin as [Hmark Hin].
  exists x. repeat split; try assumption.
  destruct (resolveSingleArgumentValue x rule); congruence.
Qed.

Lemma single_arguments_not_OutOfFuel (params : list string) (rule : at_rule) :
  single_arguments params rule <> OutOfFuel.
Proof.
  unfold single_arguments. unfold mbind, outcome_bind.
  destruct (mapM _ _) eqn:Hm; try discriminate.
  exfalso. revert Hm. apply mapM_not_OutOfFuel. intros x.
  pose proof (resolve_not_OutOfFuel x rule).
  destruct (resolveSingleArgumentValue x rule); congruence.
Qed.

Lemma single_arguments_not_Unmodelled (params : list string) (rule : at_rule) :
  single_arguments params rule <> Unmodelled.
Proof.
  unfold single_arguments. unfold mbind, outcome_bind.
  destruct (mapM _ _) eqn:Hm; try discriminate.
  exfalso. revert Hm. apply mapM_not_Unmodelled. intros x.
  pose proof (resolve_not_Unmodelled x rule).
  destruct (resolveSingleArgumentValue x rule); congruence.
Qed.

(** C4.  A token that begins with the marker resolves to the text between
    the outer parentheses of what follows the marker, when that text, trimmed,
    starts with an opening and ends with a closing parenthesis; otherwise
    resolution throws through the invocation.  The map built from the actual
    arguments sends each such token, as it stands among the actuals, to its
    inner text. *)
Theorem single_arg_resolution (value : string) (parentNode : at_rule)
    (params : list string) :
  let content := Js.trim (Js.sliceFrom value 10) in
  (Js.startsWith content "(" && Js.endsWith content ")" = false ->
   resolveSingleArgumentValue value parentNode =
     Throw (CssSyntaxError (at_source parentNode)
              ("Content of single-arg must be wrapped in brackets: " +:+ value)))
  /\ (Js.startsWith content "(" && Js.endsWith content ")" = true ->
      exists inner,
        content = "(" +:+ inner +:+ ")"
        /\ resolveSingleArgumentValue value parentNode = Ok inner)
  /\ (value ∈ params -> Js.startsWith value "single-arg" = true ->
      match single_arguments params parentNode with
      | Ok m =>
          exists inner,
            resolveSingleArgumentValue value parentNode = Ok inner
            /\ Map_get m value = Some inner
      | Throw e =>
          exists v,
            v ∈ params /\ Js.startsWith v "single-arg" = true
            /\ resolveSingleArgumentValue v parentNode = Throw e
      | OutOfFuel | Unmodelled => False
      end).
Proof.
  intros content. split; [apply resolve_unwrapped|].
  split; [apply resolve_wrapped|].
  intros Hin Hmark.
  destruct (single_arguments params parentNode) as [m|e| |] eqn:H.
  - eapply single_arguments_Ok; eassumption.
  - now apply single_arguments_Throw.
  - now apply single_arguments_not_OutOfFuel in H.
  - now apply single_arguments_not_Unmodelled in H.
Qed.

(** ** Induction on trees *)

Lemma node_nested_ind (P : node -> Prop) :
  (forall prop value src, P (Decl prop value src)) ->
  (forall sel ns src, Forall P ns -> P (Rule sel ns src)) ->
  (forall name params ns src,
     match ns with Some l => Forall P l | None => True end ->
     P (AtRule name params ns src)) ->
  (forall text src, P (Comment text src)) ->
  forall n, P n.
Proof.
  intros HD HR HA HC. fix IH 1. intros [p v s|sel ns s|a p ns s|t s].
  - apply HD.
  - apply HR. induction ns as [|x ns IHns]; constructor; [apply IH | exact IHns].
  - apply HA. destruct ns as [l|]; [|exact I].
    induction l as [|x l IHl]; constructor; [apply IH | exact IHl].
  - apply HC.
Qed.

Lemma Forall2_map_r {A B : Type} (R : A -> B -> Prop) (f : A -> B) (l : list A) :
  Forall (fun x => R x (f x)) l -> Forall2 R l (map f l).
Proof. induction 1; simpl; constructor; assumption. Qed.

(** ** The replacement pass of single arguments (C5, C10) *)

Lemma values_rewritten_refl (n : node) : values_rewritten n n.
Proof.
  induction n as [p v s|sel ns s IH|a p ns s _|t s] using node_nested_ind;
    constructor.
  induction IH; constructor; assumption.
Qed.

Lemma unwrap_node_rewrites (m : list (string * string)) (n : node) :
  values_rewritten n (unwrap_node m n).
Proof.
  induction n as [p v s|sel ns s IH|a p ns s _|t s] using node_nested_ind; simpl.
  - destruct (Js.includes v "single-arg"); constructor.
  - constructor. now apply Forall2_map_r.
  - constructor.
  - constructor.
Qed.

(** C10.  The pass changes nothing but values of declarations, and only of
    those at the top of the fragment or inside nested rules: an at-rule of the
    fragment comes out as it went in, with every declaration inside it. *)
Theorem unwrapSingleArguments_scope (rules : list node)
    (singleArgumentsMap : list (string * string)) :
  Forall2 values_rewritten rules (unwrapSingleArguments rules singleArgumentsMap).
Proof.
  unfold unwrapSingleArguments.
  destruct (Nat.leb (length singleArgumentsMap) 0).
  - induction rules; constructor; [apply values_rewritten_refl | assumption].
  - apply Forall2_map_r, Forall_forall. intros n _. apply unwrap_node_rewrites.
Qed.

(** A declaration inside a media query keeps its marked value. *)
Example unwrap_skips_media :
  unwrapSingleArguments
    [Decl "a" "single-arg(1, 2)" None;
     AtRule "media" "print" (Some [Decl "b" "single-arg(1, 2)" None]) None;
     Rule ".s" [Decl "c" "single-arg(1, 2)" None] None]
    [("single-arg(1, 2)", "1, 2")]
  = [Decl "a" "1, 2" None;
     AtRule "media" "print" (Some [Decl "b" "single-arg(1, 2)" None]) None;
     Rule ".s" [Decl "c" "1, 2" None] None].
Proof. reflexivity. Qed.

Lemma prefix_cons (a b : ascii) (p s : string) :
  String.prefix (String a p) (String b s) =
    if ascii_dec a b then String.prefix p s else false.
Proof. reflexivity. Qed.

Lemma prefix_append (k rest : string) : String.prefix k (k +:+ rest) = true.
Proof.
  induction k as [|c k IH].
  - rewrite append_nil_l. destruct rest; reflexivity.
  - rewrite append_cons, prefix_cons.
    destruct (ascii_dec c c); [exact IH | contradiction].
Qed.

Lemma substring_full (s : string) : String.substring 0 (String.length s) s = s.
Proof. induction s as [|c s IH]; simpl; [reflexivity | now rewrite IH]. Qed.

Lemma substring_skip (k rest : string) :
  String.substring (String.length k) (String.length rest) (k +:+ rest) = rest.
Proof.
  induction k as [|c k IH].
  - rewrite append_nil_l. apply substring_full.
  - rewrite append_cons. simpl. exact IH.
Qed.

Lemma sliceFrom_append (k rest : string) :
  Js.sliceFrom (k +:+ rest) (Z.of_nat (String.length k)) = rest.
Proof.
  unfold Js.sliceFrom, Js.slice. rewrite length_append.
  set (a := String.length k). set (b := String.length rest).
  replace ((Z.of_nat a <? 0)%Z) with false by (symmetry; apply Z.ltb_ge; lia).
  replace ((Z.of_nat (a + b) <? 0)%Z) with false by (symmetry; apply Z.ltb_ge; lia).
  replace (Z.to_nat (Z.min (Z.of_nat a) (Z.of_nat (a + b)))) with a by lia.
  replace (Z.to_nat (Z.min (Z.of_nat (a + b)) (Z.of_nat (a + b))
                     - Z.min (Z.of_nat a) (Z.of_nat (a + b)))) with b by lia.
  apply substring_skip.
Qed.

Lemma find_unfold (s key : string) :
  Js.find s key =
    if String.prefix key s
    then Some ("", Js.sliceFrom s (Z.of_nat (String.length key)))
    else match s with
         | EmptyString => None
         | String c r =>
             match Js.find r key with
             | Some (before, after) => Some (String c before, after)
             | None => None
             end
         end.
Proof. destruct s; reflexivity. Qed.

Lemma find_at_head (k rest : string) : Js.find (k +:+ rest) k = Some ("", rest).
Proof. now rewrite find_unfold, prefix_append, sliceFrom_append. Qed.

Lemma includes_unfold (s sub : string) :
  Js.includes s sub =
    String.prefix sub s ||
    match s with
    | String _ r => Js.includes r sub
    | EmptyString => false
    end.
Proof. destruct s; reflexivity. Qed.

Lemma substitution_plain (value matched before after : string) :
  Js.includes value "$" = false -> Js.substitution value matched before after = value.
Proof.
  induction value as [|c value IH]; intros H; [reflexivity|].
  rewrite includes_unfold in H. apply orb_false_iff in H as [Hc Hrest].
  rewrite prefix_cons in Hc. destruct (ascii_dec "$" c) as [E|E].
  - destruct value; discriminate.
  - simpl. destruct (Ascii.eqb c "$") eqn:Ec.
    + apply Ascii.eqb_eq in Ec. congruence.
    + now rewrite (IH Hrest).
Qed.

Lemma prefix_trans_append (p k rest : string) :
  String.prefix p k = true -> String.prefix p (k +:+ rest) = true.
Proof.
  revert k. induction p as [|c p IH]; intros k H.
  - destruct (k +:+ rest); reflexivity.
  - destruct k as [|d k]; [discriminate|].
    rewrite append_cons, prefix_cons. rewrite prefix_cons in H.
    destruct (ascii_dec c d); [now apply IH | discriminate].
Qed.

(** The text after the first occurrence of a key is not searched. *)
Lemma replace_at_head (k rest v : string) :
  Js.includes v "$" = false -> Js.replace (k +:+ rest) k v = v +:+ rest.
Proof.
  intros Hv. unfold Js.replace.
  now rewrite find_at_head, append_nil_l, substitution_plain.
Qed.

(** C5 on the code: a token is replaced where it first occurs in a value, and
    what follows that occurrence stays as it is, further occurrences of the
    token included. *)
Theorem single_arg_replaced_once (prop key rest value : string) (src : source) :
  Js.startsWith key "single-arg" = true ->
  Js.includes value "$" = false ->
  unwrapSingleArguments [Decl prop (key +:+ rest) src] [(key, value)]
  = [Decl prop (value +:+ rest) src].
Proof.
  intros Hkey Hvalue. unfold unwrapSingleArguments, Js.startsWith in *. simpl.
  rewrite includes_unfold, (prefix_trans_append _ _ rest Hkey). simpl.
  now rewrite replace_at_head.
Qed.

Lemma single_arg_replaced_once_witness :
  unwrapSingleArguments
    [Decl "a" "single-arg(1, 2) single-arg(1, 2)" None]
    [("single-arg(1, 2)", "1, 2")]
  = [Decl "a" "1, 2 single-arg(1, 2)" None].
Proof.
  exact (single_arg_replaced_once "a" "single-arg(1, 2)" " single-arg(1, 2)" "1, 2"
           None eq_refl eq_refl).
Defined.

(** The body [a: $x $x] of [@mixin a $x], invoked as
    [@include a single-arg(1, 2)], keeps the second occurrence wrapped; so
    does the body [a: $x, $y] when both actuals are the same token. *)
Example single_arg_twice_in_a_value :
  process 4 postcss no_options
    [AtRule "mixin" "a $x" (Some [Decl "a" "$x $x" None]) None;
     AtRule "include" "a single-arg(1, 2)" None None]
  = Ok [Decl "a" "1, 2 single-arg(1, 2)" None]
  /\ process 4 postcss no_options
       [AtRule "mixin" "a $x, $y" (Some [Decl "a" "$x, $y" None]) None;
        AtRule "include" "a single-arg(1, 2), single-arg(1, 2)" None None]
     = Ok [Decl "a" "1, 2, single-arg(1, 2)" None].
Proof. repeat split; vm_compute; reflexivity. Qed.

(** ** Content injection (C6, C7) *)

Lemma flat_mapS_app {S A B : Type} (f : A -> S -> list B * S) (l1 l2 : list A) (s : S) :
  flat_mapS f (l1 ++ l2) s =
    let '(ys, s1) := flat_mapS f l1 s in
    let '(zs, s2) := flat_mapS f l2 s1 in
    (ys ++ zs, s2).
Proof.
  revert s. induction l1 as [|x l1 IH]; intros s; simpl.
  - destruct (flat_mapS f l2 s); reflexivity.
  - destruct (f x s) as [ys s1]. rewrite IH.
    destruct (flat_mapS f l1 s1) as [zs s2].
    destruct (flat_mapS f l2 s2) as [ws s3].
    now rewrite app_assoc.
Qed.

Lemma flat_mapS_state {S A B : Type} (f : A -> S -> list B * S) (l : list A) (s : S) :
  Forall (fun x => forall s, snd (f x s) = s) l -> snd (flat_mapS f l s) = s.
Proof.
  intros H. revert s. induction H as [|x l Hx _ IH]; intros s; simpl; [reflexivity|].
  specialize (Hx s). destruct (f x s) as [ys s1]. simpl in Hx. subst s1.
  specialize (IH s). destruct (flat_mapS f l s) as [zs s2]. exact IH.
Qed.

Lemma replace_content_from (from : at_rule) : snd (replace_content from) = from.
Proof. unfold replace_content. destruct (at_nodes from) as [[|? ?]|]; reflexivity. Qed.

(** The invocation is the same after the walk as before it. *)
Lemma content_walk_from (n : node) (from : at_rule) :
  snd (content_walk n from) = from.
Proof.
  revert from.
  induction n as [p v s|sel ns s IH|a p ns s IH|t s] using node_nested_ind;
    intros from; simpl; try reflexivity.
  - pose proof (flat_mapS_state content_walk ns from IH) as H.
    destruct (flat_mapS content_walk ns from). exact H.
  - destruct (String.eqb a "mixin-content"); [apply replace_content_from|].
    destruct ns as [l|]; [|reflexivity].
    pose proof (flat_mapS_state content_walk l from IH) as H.
    destruct (flat_mapS content_walk l from). exact H.
Qed.

Lemma processMixinContent_from (rule : list node) (from : at_rule) :
  snd (processMixinContent rule from) = from.
Proof.
  apply flat_mapS_state, Forall_forall. intros n _ s. apply content_walk_from.
Qed.

Lemma processMixinContent_pair (rule : list node) (from : at_rule) :
  processMixinContent rule from = (fst (processMixinContent rule from), from).
Proof.
  rewrite <- (processMixinContent_from rule from) at 3.
  now destruct (processMixinContent rule from).
Qed.

Lemma processMixinContent_app (l1 l2 : list node) (from : at_rule) :
  processMixinContent (l1 ++ l2) from =
    (fst (processMixinContent l1 from) ++ fst (processMixinContent l2 from), from).
Proof.
  unfold processMixinContent at 1. rewrite flat_mapS_app.
  fold (processMixinContent l1 from). rewrite (processMixinContent_pair l1).
  fold (processMixinContent l2 from). rewrite (processMixinContent_pair l2).
  reflexivity.
Qed.

Lemma processMixinContent_cons (n : node) (l : list node) (from : at_rule) :
  processMixinContent (n :: l) from =
    (fst (content_walk n from) ++ fst (processMixinContent l from), from).
Proof.
  unfold processMixinContent at 1. simpl.
  pose proof (content_walk_from n from) as Hn.
  destruct (content_walk n from) as [ys s1]. simpl in Hn. subst s1.
  fold (processMixinContent l from). rewrite (processMixinContent_pair l).
  reflexivity.
Qed.

(** A fragment without placeholders is left as it is. *)
Lemma content_walk_no_placeholder (n : node) (from : at_rule) :
  has_at_rule "mixin-content" n = false -> content_walk n from = ([n], from).
Proof.
  revert from.
  induction n as [p v s|sel ns s IH|a p ns s IH|t s] using node_nested_ind;
    intros from Hn; simpl in *; try reflexivity.
  - assert (H : flat_mapS content_walk ns from = (ns, from)).
    { clear -IH Hn. induction IH as [|x l Hx _ IHl]; simpl in *; [reflexivity|].
      apply orb_false_iff in Hn as [Hx' Hl].
      rewrite (Hx from Hx'), (IHl Hl). reflexivity. }
    now rewrite H.
  - apply orb_false_iff in Hn as [Ha Hn]. rewrite Ha.
    destruct ns as [l|]; [|reflexivity].
    assert (H : flat_mapS content_walk l from = (l, from)).
    { clear -IH Hn. induction IH as [|x l Hx _ IHl]; simpl in *; [reflexivity|].
      apply orb_false_iff in Hn as [Hx' Hl].
      rewrite (Hx from Hx'), (IHl Hl). reflexivity. }
    now rewrite H.
Qed.

Lemma processMixinContent_no_placeholder (l : list node) (from : at_rule) :
  no_placeholder l = true -> processMixinContent l from = (l, from).
Proof.
  induction l as [|n l IH]; intros H; [reflexivity|].
  simpl in H. apply andb_true_iff in H as [Hn Hl].
  apply negb_true_iff in Hn.
  rewrite processMixinContent_cons, (content_walk_no_placeholder n from Hn), (IH Hl).
  reflexivity.
Qed.

Lemma no_placeholder_app (l1 l2 : list node) :
  no_placeholder (l1 ++ l2) = no_placeholder l1 && no_placeholder l2.
Proof. unfold no_placeholder. apply forallb_app. Qed.

Lemma no_placeholder_inside (l : list node) :
  existsb (has_at_rule "mixin-content") l = false -> no_placeholder l = true.
Proof.
  unfold no_placeholder. induction l as [|n l IH]; simpl; [reflexivity|].
  intros H. apply orb_false_iff in H as [Hn Hl]. now rewrite Hn, IH.
Qed.

Lemma content_walk_placeholder (params : string) (ns : option (list node))
    (src : source) (from : at_rule) :
  content_walk (AtRule "mixin-content" params ns src) from = replace_content from.
Proof. reflexivity. Qed.

Lemma content_walk_rule (sel : string) (l : list node) (src : source) (from : at_rule) :
  content_walk (Rule sel l src) from =
    ([Rule sel (fst (processMixinContent l from)) src], from).
Proof.
  simpl. fold (processMixinContent l from).
  rewrite (processMixinContent_pair l). reflexivity.
Qed.

Lemma content_walk_at_rule (name params : string) (l : list node) (src : source)
    (from : at_rule) :
  String.eqb name "mixin-content" = false ->
  content_walk (AtRule name params (Some l) src) from =
    ([AtRule name params (Some (fst (processMixinContent l from))) src], from).
Proof.
  intros Hn. simpl. rewrite Hn. fold (processMixinContent l from).
  rewrite (processMixinContent_pair l). reflexivity.
Qed.

Lemma processMixinContent_single (n : node) (from : at_rule) :
  processMixinContent [n] from = (fst (content_walk n from), from).
Proof. rewrite processMixinContent_cons. simpl. now rewrite app_nil_r. Qed.

(** C6.  With nested content [c :: cs] at the invocation, every placeholder
    of the body is replaced by all of it, whatever stands before and after
    the placeholder (other placeholders included), at the top of the body and
    inside its rules and at-rules; the invocation still has its content
    after the call.  A body with two placeholders gets the content twice. *)
Theorem content_replaces_each_placeholder (from : at_rule) (c : node) (cs : list node) :
  at_nodes from = Some (c :: cs) ->
  (forall l1 l2 params ns src,
     processMixinContent (l1 ++ AtRule "mixin-content" params ns src :: l2) from =
       (fst (processMixinContent l1 from) ++ (c :: cs)
          ++ fst (processMixinContent l2 from), from))
  /\ (forall pre mid post p1 n1 s1 p2 n2 s2,
        no_placeholder pre = true -> no_placeholder mid = true ->
        no_placeholder post = true ->
        processMixinContent
          (pre ++ AtRule "mixin-content" p1 n1 s1
               :: mid ++ AtRule "mixin-content" p2 n2 s2 :: post) from =
          (pre ++ (c :: cs) ++ mid ++ (c :: cs) ++ post, from))
  /\ (forall sel l src,
        processMixinContent [Rule sel l src] from =
          ([Rule sel (fst (processMixinContent l from)) src], from))
  /\ (forall name params l src,
        String.eqb name "mixin-content" = false ->
        processMixinContent [AtRule name params (Some l) src] from =
          ([AtRule name params (Some (fst (processMixinContent l from))) src], from)).
Proof.
  intros Hfrom.
  assert (Hmark : forall l1 l2 params ns src,
     processMixinContent (l1 ++ AtRule "mixin-content" params ns src :: l2) from =
       (fst (processMixinContent l1 from) ++ (c :: cs)
          ++ fst (processMixinContent l2 from), from)).
  { intros l1 l2 params ns src.
    rewrite processMixinContent_app, processMixinContent_cons.
    rewrite content_walk_placeholder. unfold replace_content, clone.
    rewrite Hfrom. reflexivity. }
  split; [exact Hmark|]. split; [|split].
  - intros pre mid post p1 n1 s1 p2 n2 s2 Hpre Hmid Hpost.
    rewrite Hmark, Hmark.
    rewrite !processMixinContent_no_placeholder by assumption.
    reflexivity.
  - intros sel l src.
    now rewrite processMixinContent_single, content_walk_rule.
  - intros name params l src Hn.
    now rewrite processMixinContent_single, content_walk_at_rule.
Qed.

Lemma content_replaces_each_placeholder_witness :
  processMixinContent
    [AtRule "mixin-content" "" None None; AtRule "mixin-content" "" None None]
    {| at_name := "include"; at_params := "m";
       at_nodes := Some [Decl "a" "1" None]; at_source := None |}
  = ([Decl "a" "1" None; Decl "a" "1" None],
     {| at_name := "include"; at_params := "m";
        at_nodes := Some [Decl "a" "1" None]; at_source := None |}).
Proof.
  exact (proj1 (proj2 (content_replaces_each_placeholder
                         {| at_name := "include"; at_params := "m";
                            at_nodes := Some [Decl "a" "1" None];
                            at_source := None |}
                         (Decl "a" "1" None) [] eq_refl))
               [] [] [] "" None None "" None None eq_refl eq_refl eq_refl).
Defined.

(** C7.  With no nested content at the invocation, a body with one
    placeholder, at the top or inside nested rules and at-rules, comes out as
    the body without that node, and the invocation is as before. *)
Theorem empty_content_removes_placeholder (from : at_rule) (body body' : list node)
    (params : string) (ns : option (list node)) (src : source) :
  at_nodes from = None \/ at_nodes from = Some [] ->
  one_removed (AtRule "mixin-content" params ns src) body body' ->
  no_placeholder body' = true ->
  processMixinContent body from = (body', from).
Proof.
  intros Hfrom Hrem. induction Hrem as
    [l1 l2|l1 l2 sel l l' s Hrem IH|l1 l2 a p l l' s Hrem IH]; intros Hno;
    rewrite no_placeholder_app in Hno; apply andb_true_iff in Hno as [H1 H2].
  - rewrite processMixinContent_app, processMixinContent_cons.
    rewrite content_walk_placeholder.
    rewrite !processMixinContent_no_placeholder by assumption.
    unfold replace_content. destruct Hfrom as [-> | ->]; reflexivity.
  - simpl in H2. apply andb_true_iff in H2 as [Hn H2].
    apply negb_true_iff in Hn. simpl in Hn.
    rewrite processMixinContent_app, processMixinContent_cons, content_walk_rule.
    rewrite (IH (no_placeholder_inside _ Hn)).
    rewrite !processMixinContent_no_placeholder by assumption.
    reflexivity.
  - simpl in H2. apply andb_true_iff in H2 as [Hn H2].
    apply negb_true_iff in Hn. simpl in Hn.
    apply orb_false_iff in Hn as [Ha Hn].
    rewrite processMixinContent_app, processMixinContent_cons.
    rewrite (content_walk_at_rule _ _ _ _ _ Ha).
    rewrite (IH (no_placeholder_inside _ Hn)).
    rewrite !processMixinContent_no_placeholder by assumption.
    reflexivity.
Qed.

Lemma empty_content_removes_placeholder_witness :
  processMixinContent
    [Decl "a" "1" None;
     Rule ".r" [AtRule "mixin-content" "" None None; Decl "b" "2" None] None]
    {| at_name := "include"; at_params := "m";
       at_nodes := None; at_source := None |}
  = ([Decl "a" "1" None; Rule ".r" [Decl "b" "2" None] None],
     {| at_name := "include"; at_params := "m";
        at_nodes := None; at_source := None |}).
Proof.
  apply (empty_content_removes_placeholder _ _ _ "" None None).
  - left. reflexivity.
  - apply (removed_in_rule _ [Decl "a" "1" None] [] ".r"
             [AtRule "mixin-content" "" None None; Decl "b" "2" None]
             [Decl "b" "2" None] None).
    apply (removed_here _ [] [Decl "b" "2" None]).
  - reflexivity.
Defined.

(** ** Binding of actuals to formals (C1, C9) *)



(** Actuals beyond the formals are not read by the loop. *)
Lemma bind_from_surplus (formals : list (string * string)) (params extra : list string)
    (i : nat) (values : gmap string string) :
  i + length formals <= length params ->
  bind_from i formals (params ++ extra) values = bind_from i formals params values.
Proof.
  revert i values. induction formals as [|[n d] formals IH]; intros i values Hlen; simpl.
  - reflexivity.
  - simpl in Hlen. rewrite IH by lia.
    unfold bound_value. rewrite lookup_app_l by lia. reflexivity.
Qed.

Lemma insertMixin_css (fuel : nat) (h : helpers) (mixins : gmap string meta)
    (rule : at_rule) (opts : options) (name ps : string) (m : meta)
    (definition : at_rule) (body : list node) (sa : list (string * string)) :
  parseMixin h rule = Ok (name, ps) ->
  mixins !! name = Some m ->
  mixin m = MCss definition ->
  at_nodes definition = Some body ->
  single_arguments (actuals h ps) rule = Ok sa ->
  insertMixin (S fuel) h mixins rule opts =
    Ok (css_expansion h m body (actuals h ps) rule sa, rule).
Proof.
  intros Hp Hm Hc Hb Hs. simpl. rewrite Hp. simpl. rewrite Hs. simpl.
  rewrite Hm, Hc, Hb. unfold css_expansion.
  destruct (content m); [|reflexivity].
  rewrite (processMixinContent_pair _ rule). reflexivity.
Qed.

Lemma addMixin_entry (h : helpers) (mixins : gmap string meta) (rule : at_rule)
    (file : option string) (name paramString : string) :
  parseMixin h rule = Ok (name, paramString) ->
  addMixin h mixins rule file =
    Ok (<[name := definition_entry h rule paramString file]> mixins).
Proof. intros Hp. unfold addMixin. rewrite Hp. reflexivity. Qed.




(** ** The visitor loop (C3) *)

Lemma flat_mapSM_app {S A B : Type} (f : A -> S -> outcome (list B * S))
    (l1 l2 : list A) (s : S) :
  flat_mapSM f (l1 ++ l2) s =
    match flat_mapSM f l1 s with
    | Ok (ys, s1) =>
        match flat_mapSM f l2 s1 with
        | Ok (zs, s2) => Ok (ys ++ zs, s2)
        | Throw e => Throw e
        | OutOfFuel => OutOfFuel
        | Unmodelled => Unmodelled
        end
    | Throw e => Throw e
    | OutOfFuel => OutOfFuel
    | Unmodelled => Unmodelled
    end.
Proof.
  revert s. induction l1 as [|x l1 IH]; intros s; simpl.
  - destruct (flat_mapSM f l2 s) as [[zs s2]| | |]; reflexivity.
  - destruct (f x s) as [[ys s1]| | |]; try reflexivity.
    rewrite IH. destruct (flat_mapSM f l1 s1) as [[zs s2]| | |]; try reflexivity.
    destruct (flat_mapSM f l2 s2) as [[ws s3]| | |]; try reflexivity.
    now rewrite app_assoc.
Qed.

(** *** Names, letter for letter and in lower case *)

Lemma literal_cons (n : node) (l : list node) :
  literal (n :: l) = negb (is_site n) && literal l.
Proof. unfold literal. simpl. apply negb_orb. Qed.

Lemma literal_app (a b : list node) : literal (a ++ b) = literal a && literal b.
Proof. unfold literal. rewrite existsb_app. apply negb_orb. Qed.

Lemma literal_inside (l : list node) : existsb is_site l = false <-> literal l = true.
Proof. unfold literal. now rewrite negb_true_iff. Qed.

Lemma listened_false (name : string) :
  listened name = false <-> is_include name = false /\ String.eqb name "mixin" = false.
Proof. unfold listened. apply orb_false_iff. Qed.

Lemma inert_cons (n : node) (l : list node) :
  inert (n :: l) = negb (is_handled_site n) && inert l.
Proof. unfold inert. simpl. apply negb_orb. Qed.

Lemma inert_app (a b : list node) : inert (a ++ b) = inert a && inert b.
Proof. unfold inert. rewrite existsb_app. apply negb_orb. Qed.

Lemma inert_inside (l : list node) :
  existsb is_handled_site l = false <-> inert l = true.
Proof. unfold inert. now rewrite negb_true_iff. Qed.

Lemma handled_false (name : string) :
  handled name = false <->
  is_include (Js.toLowerCase name) = false
  /\ String.eqb (Js.toLowerCase name) "mixin" = false.
Proof. apply listened_false. Qed.

(** The three names are in lower case. *)
Lemma listened_lower (name : string) :
  listened name = true -> Js.toLowerCase name = name.
Proof.
  unfold listened, is_include. intros H.
  apply orb_true_iff in H as [H|H]; [apply orb_true_iff in H as [H|H]|];
    apply String.eqb_eq in H; subst name; reflexivity.
Qed.

Lemma handled_listened (name : string) : handled name = false -> listened name = false.
Proof.
  intros H. destruct (listened name) eqn:E; [|reflexivity].
  unfold handled in H. rewrite (listened_lower _ E) in H. congruence.
Qed.

Lemma is_handled_site_site (n : node) : is_handled_site n = false -> is_site n = false.
Proof.
  induction n as [p v s|sel ns s IH|a p ns s IH|t s] using node_nested_ind;
    intros Hn; simpl in *; try reflexivity.
  - clear -IH Hn. induction IH as [|x l Hx _ IHl]; simpl in *; [reflexivity|].
    apply orb_false_iff in Hn as [Hx' Hl]. now rewrite (Hx Hx'), (IHl Hl).
  - apply orb_false_iff in Hn as [Ha Hl].
    rewrite (handled_listened _ Ha). simpl.
    destruct ns as [l|]; [|reflexivity].
    clear -IH Hl. induction IH as [|x l' Hx _ IHl]; simpl in *; [reflexivity|].
    apply orb_false_iff in Hl as [Hx' Hl]. now rewrite (Hx Hx'), (IHl Hl).
Qed.

(** What the host leaves alone, the walk over a block leaves alone. *)
Lemma inert_literal (l : list node) : inert l = true -> literal l = true.
Proof.
  intros H. apply inert_inside in H. apply literal_inside.
  induction l as [|n l IH]; simpl in *; [reflexivity|].
  apply orb_false_iff in H as [Hn Hl].
  now rewrite (is_handled_site_site _ Hn), (IH Hl).
Qed.

(** *** The walk over the block of an invocation *)

Lemma flat_mapM_app {A B : Type} (f : A -> outcome (list B)) (l1 l2 : list A) :
  flat_mapM f (l1 ++ l2) =
    (ys ← flat_mapM f l1; zs ← flat_mapM f l2; Ok (ys ++ zs)).
Proof.
  induction l1 as [|x l1 IH]; simpl.
  - unfold mbind, outcome_bind. now destruct (flat_mapM f l2).
  - unfold mbind, outcome_bind in *. destruct (f x) as [ys| | |]; try reflexivity.
    rewrite IH. destruct (flat_mapM f l1) as [zs| | |]; try reflexivity.
    destruct (flat_mapM f l2) as [ws| | |]; try reflexivity.
    now rewrite app_assoc.
Qed.

Lemma walk_includes_app (fuel : nat) (h : helpers) (mixins : gmap string meta)
    (opts : options) (l1 l2 : list node) :
  walk_includes fuel h mixins (l1 ++ l2) opts =
    (ys ← walk_includes fuel h mixins l1 opts;
     zs ← walk_includes fuel h mixins l2 opts; Ok (ys ++ zs)).
Proof. destruct fuel as [|fuel]; [reflexivity|]. apply flat_mapM_app. Qed.

Lemma walk_includes_nil (fuel : nat) (h : helpers) (mixins : gmap string meta)
    (opts : options) :
  walk_includes (S fuel) h mixins [] opts = Ok [].
Proof. reflexivity. Qed.

Lemma walk_includes_rule (fuel : nat) (h : helpers) (mixins : gmap string meta)
    (opts : options) (sel : string) (l : list node) (src : source) :
  walk_includes (S fuel) h mixins [Rule sel l src] opts =
    (l' ← walk_includes fuel h mixins l opts; Ok [Rule sel l' src]).
Proof.
  cbn [walk_includes flat_mapM]. unfold mbind, outcome_bind.
  now destruct (walk_includes fuel h mixins l opts).
Qed.

Lemma walk_includes_at_rule (fuel : nat) (h : helpers) (mixins : gmap string meta)
    (opts : options) (name params : string) (l : list node) (src : source) :
  is_include name = false ->
  walk_includes (S fuel) h mixins [AtRule name params (Some l) src] opts =
    (l' ← walk_includes fuel h mixins l opts; Ok [AtRule name params (Some l') src]).
Proof.
  intros Hn. cbn [walk_includes flat_mapM]. rewrite Hn.
  unfold mbind, outcome_bind.
  now destruct (walk_includes fuel h mixins l opts).
Qed.

Lemma walk_includes_site (fuel : nat) (h : helpers) (mixins : gmap string meta)
    (opts : options) (rule : at_rule) :
  is_include (at_name rule) = true ->
  walk_includes (S fuel) h mixins [of_at_rule rule] opts =
    ('(inserted, site) ← catch_at rule (insertMixin fuel h mixins rule opts);
     _ ← match at_nodes site with
         | Some l => walk_includes fuel h mixins l opts
         | None => Ok []
         end;
     Ok inserted).
Proof.
  intros Hn. destruct rule as [a p ns src]. cbn [at_name] in Hn.
  unfold of_at_rule. cbn [at_name at_params at_nodes at_source walk_includes flat_mapM].
  rewrite Hn. unfold mbind, outcome_bind.
  destruct (insertMixin fuel h mixins _ opts) as [[inserted site]| | |]; try reflexivity.
  cbn [catch_at].
  destruct (match at_nodes site with
            | Some l => walk_includes fuel h mixins l opts
            | None => Ok []
            end); try reflexivity.
  now rewrite app_nil_r.
Qed.

Lemma walk_includes_list (h : helpers) (mixins : gmap string meta) (opts : options)
    (l : list node) :
  Forall (fun n => is_site n = false ->
            exists K, forall fuel, K <= fuel ->
              walk_includes fuel h mixins [n] opts = Ok [n]) l ->
  existsb is_site l = false ->
  exists K, forall fuel, K <= fuel -> walk_includes fuel h mixins l opts = Ok l.
Proof.
  induction 1 as [|x l Hx _ IH]; intros Hl.
  - exists 1. intros [|fuel] Hf; [lia | reflexivity].
  - simpl in Hl. apply orb_false_iff in Hl as [Hsx Hsl].
    destruct (Hx Hsx) as [K1 H1]. destruct (IH Hsl) as [K2 H2].
    exists (Nat.max K1 K2). intros fuel Hf.
    change (x :: l) with ([x] ++ l).
    rewrite walk_includes_app, H1, H2 by lia. reflexivity.
Qed.

Lemma walk_includes_node (h : helpers) (mixins : gmap string meta) (opts : options)
    (n : node) :
  is_site n = false ->
  exists K, forall fuel, K <= fuel -> walk_includes fuel h mixins [n] opts = Ok [n].
Proof.
  induction n as [p v s|sel ns s IH|a p ns s IH|t s] using node_nested_ind;
    intros Hn; simpl in Hn.
  - exists 1. intros [|fuel] Hf; [lia | reflexivity].
  - destruct (walk_includes_list h mixins opts ns IH Hn) as [K HK].
    exists (S K). intros [|fuel] Hf; [lia|].
    rewrite walk_includes_rule, HK by lia. reflexivity.
  - apply orb_false_iff in Hn as [Ha Hl].
    apply listened_false in Ha as [Hi _].
    destruct ns as [l|].
    + destruct (walk_includes_list h mixins opts l IH Hl) as [K HK].
      exists (S K). intros [|fuel] Hf; [lia|].
      rewrite (walk_includes_at_rule _ _ _ _ _ _ _ _ Hi), HK by lia. reflexivity.
    + exists 1. intros [|fuel] Hf; [lia|].
      cbn [walk_includes flat_mapM]. now rewrite Hi.
  - exists 1. intros [|fuel] Hf; [lia | reflexivity].
Qed.

(** A block without definitions and invocations is left as it is by the walk
    over the block of an invocation. *)
Lemma walk_includes_literal (h : helpers) (mixins : gmap string meta) (opts : options)
    (l : list node) :
  literal l = true ->
  exists K, forall fuel, K <= fuel -> walk_includes fuel h mixins l opts = Ok l.
Proof.
  intros H. apply literal_inside in H.
  apply walk_includes_list; [|exact H].
  apply Forall_forall. intros n _. apply walk_includes_node.
Qed.

(** *** One invocation *)

Lemma with_nodes_same (rule : at_rule) : with_nodes rule (at_nodes rule) = rule.
Proof. now destruct rule. Qed.

(** What the registry has for an invocation to expand, the call gives, with
    enough fuel; the invocation is the same after the call. *)
Lemma expands_insertMixin (h : helpers) (mixins : gmap string meta) (opts : options)
    (rule : at_rule) (inserted : list node) :
  expands h mixins opts rule inserted ->
  exists K, forall fuel, K <= fuel ->
    insertMixin fuel h mixins rule opts = Ok (inserted, rule).
Proof.
  intros [name ps m definition body sa Hp Hm Hx Hb Hs
         |name ps m obj sa Hp Hm Hx Hs
         |name ps m fn sa Hp Hm Hx Hs Hl
         |name ps sa Hp Hm Hi Hs Hsilent].
  - exists 1. intros [|fuel] Hf; [lia|].
    exact (insertMixin_css _ _ _ _ _ _ _ _ _ _ _ Hp Hm Hx Hb Hs).
  - exists 1. intros [|fuel] Hf; [lia|].
    cbn [insertMixin]. rewrite Hp.
    cbn -[walk_includes actuals insertObject with_nodes single_arguments].
    rewrite Hs.
    cbn -[walk_includes actuals insertObject with_nodes single_arguments].
    now rewrite Hm, Hx.
  - destruct (at_nodes rule) as [l|] eqn:Hn.
    + destruct (walk_includes_literal h mixins opts l Hl) as [K HK].
      exists (S K). intros [|fuel] Hf; [lia|].
      cbn [insertMixin]. rewrite Hp.
      cbn -[walk_includes actuals insertObject with_nodes single_arguments].
      rewrite Hs.
      cbn -[walk_includes actuals insertObject with_nodes single_arguments].
      rewrite Hm, Hx, Hn, HK by lia.
      cbn -[walk_includes actuals insertObject with_nodes single_arguments].
      rewrite <- Hn, with_nodes_same. now destruct (fn rule (actuals h ps)).
    + exists 1. intros [|fuel] Hf; [lia|].
      cbn [insertMixin]. rewrite Hp.
      cbn -[walk_includes actuals insertObject with_nodes single_arguments].
      rewrite Hs.
      cbn -[walk_includes actuals insertObject with_nodes single_arguments].
      rewrite Hm, Hx, Hn.
      cbn -[walk_includes actuals insertObject with_nodes single_arguments].
      rewrite <- Hn, with_nodes_same. now destruct (fn rule (actuals h ps)).
  - exists 1. intros [|fuel] Hf; [lia|].
    cbn [insertMixin]. rewrite Hp.
    cbn -[walk_includes actuals insertObject with_nodes single_arguments].
    rewrite Hs.
    cbn -[walk_includes actuals insertObject with_nodes single_arguments].
    now rewrite Hm, Hi, Hsilent.
Qed.

(** The walk of the host on an invocation and on a definition. *)
Lemma walkSync_invocation (fuel : nat) (h : helpers) (opts : options) (rule : at_rule)
    (st : gmap string meta * bool) :
  is_include (Js.toLowerCase (at_name rule)) = true ->
  walkSync fuel h opts (of_at_rule rule) st =
    ('(inserted, _) ← catch_at rule (insertMixin fuel h (fst st) rule opts);
     Ok (inserted, (fst st, true))).
Proof.
  intros Hi. destruct rule as [a p ns src]. cbn [at_name] in Hi.
  unfold of_at_rule. cbn [at_name at_params at_nodes at_source walkSync].
  now rewrite Hi.
Qed.

Lemma walkSync_definition (fuel : nat) (h : helpers) (opts : options) (rule : at_rule)
    (st : gmap string meta * bool) :
  String.eqb (Js.toLowerCase (at_name rule)) "mixin" = true ->
  walkSync fuel h opts (of_at_rule rule) st =
    (mixins ← catch_at rule (addMixin h (fst st) rule None);
     Ok ([], (mixins, true))).
Proof.
  intros Hm. destruct rule as [a p ns src]. cbn [at_name] in Hm.
  unfold of_at_rule. cbn [at_name at_params at_nodes at_source walkSync].
  rewrite Hm. apply String.eqb_eq in Hm. now rewrite Hm.
Qed.

Lemma walkSync_at_rule (fuel : nat) (h : helpers) (opts : options)
    (name params : string) (ns : option (list node)) (src : source)
    (st : gmap string meta * bool) :
  handled name = false ->
  walkSync fuel h opts (AtRule name params ns src) st =
    match ns with
    | Some l =>
        '(l', st') ← flat_mapSM (walkSync fuel h opts) l st;
        Ok ([AtRule name params (Some l') src], st')
    | None => Ok ([AtRule name params ns src], st)
    end.
Proof.
  intros H. apply handled_false in H as [Hi Hm].
  cbn [walkSync]. rewrite Hi, Hm. now destruct ns.
Qed.

(** *** Trees whose invocations resolve *)

Lemma resolves_app (h : helpers) (mixins : gmap string meta) (opts : options)
    (k : nat) (a oa b ob : list node) :
  resolves h mixins opts k a oa -> resolves h mixins opts k b ob ->
  resolves h mixins opts k (a ++ b) (oa ++ ob).
Proof.
  intros Ha Hb. induction Ha; simpl; try (constructor; auto; fail).
  - exact Hb.
  - rewrite <- app_assoc. econstructor; eauto.
Qed.

(** The output of a full expansion holds no definition and no invocation. *)
Lemma resolves_inert (h : helpers) (mixins : gmap string meta) (opts : options)
    (k : nat) (nodes out : list node) :
  resolves h mixins opts k nodes out -> inert out = true.
Proof.
  induction 1 as
    [k|k rule inserted out rest out' Hinc Hins Hr1 IH1 Hr2 IH2
    |k sel ns ns' src rest out' Hr1 IH1 Hr2 IH2
    |k name params ns ns' src rest out' Hn Hr1 IH1 Hr2 IH2
    |k name params src rest out' Hn Hr IH
    |k prop value src rest out' Hr IH
    |k text src rest out' Hr IH];
    rewrite ?inert_app, ?inert_cons, ?IH1, ?IH2, ?IH; try reflexivity.
  - apply inert_inside in IH1. simpl. now rewrite IH1.
  - apply inert_inside in IH1. simpl. now rewrite Hn, IH1.
  - simpl. now rewrite Hn.
Qed.

(** One walk over a tree whose invocations resolve [k] levels deep: the
    registry is as before, the invocations in the tree have been replaced by
    their expansions, and what remains resolves one level less deep.  A walk
    that changes nothing has found nothing to expand. *)
Lemma walk_resolves (h : helpers) (mixins : gmap string meta) (opts : options)
    (k : nat) (nodes out : list node) :
  resolves h mixins opts k nodes out ->
  exists (K : nat) (nodes1 : list node) (dirty : bool),
    (forall fuel b, K <= fuel ->
       flat_mapSM (walkSync fuel h opts) nodes (mixins, b)
       = Ok (nodes1, (mixins, b || dirty)))
    /\ (dirty = false -> nodes1 = out)
    /\ (k = 0 -> dirty = false)
    /\ resolves h mixins opts (Nat.pred k) nodes1 out.
Proof.
  induction 1 as
    [k|k rule inserted out rest out' Hinc Hins Hr1 IH1 Hr2 IH2
    |k sel ns ns' src rest out' Hr1 IH1 Hr2 IH2
    |k name params ns ns' src rest out' Hn Hr1 IH1 Hr2 IH2
    |k name params src rest out' Hn Hr IH
    |k prop value src rest out' Hr IH
    |k text src rest out' Hr IH].
  - exists 0, [], false. repeat split; try constructor.
    intros fuel b _. simpl. now rewrite orb_false_r.
  - destruct IH2 as (K2 & rest1 & d2 & Hw2 & _ & _ & Hres2).
    destruct (expands_insertMixin _ _ _ _ _ Hins) as [K0 Hcall].
    exists (Nat.max K0 K2), (inserted ++ rest1), true.
    split; [|split; [discriminate | split; [discriminate|]]].
    + intros fuel b Hfuel. cbn [flat_mapSM].
      rewrite (walkSync_invocation _ _ _ _ _ Hinc). cbn [fst].
      rewrite Hcall by lia. simpl.
      rewrite Hw2 by lia. simpl. now rewrite !orb_true_r.
    + simpl. apply resolves_app; assumption.
  - destruct IH1 as (K1 & ns1 & d1 & Hw1 & Hd1 & Hk1 & Hres1).
    destruct IH2 as (K2 & rest1 & d2 & Hw2 & Hd2 & Hk2 & Hres2).
    exists (Nat.max K1 K2), (Rule sel ns1 src :: rest1), (d1 || d2).
    split; [|split; [|split]].
    + intros fuel b Hfuel. simpl. rewrite Hw1 by lia. simpl.
      rewrite Hw2 by lia. now rewrite orb_assoc.
    + intros Hd. apply orb_false_iff in Hd as [E1 E2].
      now rewrite (Hd1 E1), (Hd2 E2).
    + intros Hk. now rewrite (Hk1 Hk), (Hk2 Hk).
    + now constructor.
  - destruct IH1 as (K1 & ns1 & d1 & Hw1 & Hd1 & Hk1 & Hres1).
    destruct IH2 as (K2 & rest1 & d2 & Hw2 & Hd2 & Hk2 & Hres2).
    exists (Nat.max K1 K2), (AtRule name params (Some ns1) src :: rest1), (d1 || d2).
    split; [|split; [|split]].
    + intros fuel b Hfuel. cbn [flat_mapSM].
      rewrite (walkSync_at_rule _ _ _ _ _ _ _ _ Hn). rewrite Hw1 by lia. simpl.
      rewrite Hw2 by lia. now rewrite orb_assoc.
    + intros Hd. apply orb_false_iff in Hd as [E1 E2].
      now rewrite (Hd1 E1), (Hd2 E2).
    + intros Hk. now rewrite (Hk1 Hk), (Hk2 Hk).
    + now constructor.
  - destruct IH as (K & rest1 & d & Hw & Hd & Hk & Hres).
    exists K, (AtRule name params None src :: rest1), d.
    split; [|split; [|split]].
    + intros fuel b Hfuel. cbn [flat_mapSM].
      rewrite (walkSync_at_rule _ _ _ _ _ _ _ _ Hn). now rewrite Hw by lia.
    + intros E. now rewrite (Hd E).
    + exact Hk.
    + now constructor.
  - destruct IH as (K & rest1 & d & Hw & Hd & Hk & Hres).
    exists K, (Decl prop value src :: rest1), d.
    split; [|split; [|split]].
    + intros fuel b Hfuel. simpl. now rewrite Hw by lia.
    + intros E. now rewrite (Hd E).
    + exact Hk.
    + now constructor.
  - destruct IH as (K & rest1 & d & Hw & Hd & Hk & Hres).
    exists K, (Comment text src :: rest1), d.
    split; [|split; [|split]].
    + intros fuel b Hfuel. simpl. now rewrite Hw by lia.
    + intros E. now rewrite (Hd E).
    + exact Hk.
    + now constructor.
Qed.

Lemma run_resolves (h : helpers) (mixins : gmap string meta) (opts : options)
    (k : nat) (nodes out : list node) :
  resolves h mixins opts k nodes out ->
  exists K, forall fuel, K <= fuel -> run fuel h opts mixins nodes = Ok out.
Proof.
  revert nodes. induction k as [|k IH]; intros nodes Hres;
    destruct (walk_resolves _ _ _ _ _ _ Hres) as (K & nodes1 & d & Hw & Hd & Hk & Hres1).
  - exists (S K). intros [|fuel] Hfuel; [lia|].
    simpl. rewrite Hw by lia. rewrite (Hk eq_refl). simpl.
    now rewrite (Hd (Hk eq_refl)).
  - simpl in Hres1. destruct (IH _ Hres1) as (K' & Hrun).
    exists (S (Nat.max K K')). intros [|fuel] Hfuel; [lia|].
    simpl. rewrite Hw by lia. simpl. destruct d.
    + apply Hrun. lia.
    + now rewrite (Hd eq_refl).
Qed.

(** Nodes without invocations and definitions are left alone by a walk, and
    resolve to themselves. *)
Lemma walkSync_inert (fuel : nat) (h : helpers) (opts : options) (n : node)
    (st : gmap string meta * bool) :
  is_handled_site n = false -> walkSync fuel h opts n st = Ok ([n], st).
Proof.
  revert st.
  induction n as [p v s|sel ns s IH|a p ns s IH|t s] using node_nested_ind;
    intros st Hn; try reflexivity; simpl in Hn.
  - simpl.
    assert (H : flat_mapSM (walkSync fuel h opts) ns st = Ok (ns, st)).
    { clear -IH Hn.
      induction IH as [|x l Hx _ IHl]; simpl in *; [reflexivity|].
      apply orb_false_iff in Hn as [Hx' Hl].
      rewrite (Hx st Hx'), (IHl Hl). reflexivity. }
    now rewrite H.
  - apply orb_false_iff in Hn as [Ha Hl].
    rewrite (walkSync_at_rule _ _ _ _ _ _ _ _ Ha).
    destruct ns as [l|]; [|reflexivity].
    assert (H : flat_mapSM (walkSync fuel h opts) l st = Ok (l, st)).
    { clear -IH Hl.
      induction IH as [|x l' Hx _ IHl]; simpl in *; [reflexivity|].
      apply orb_false_iff in Hl as [Hx' Hl].
      rewrite (Hx st Hx'), (IHl Hl). reflexivity. }
    now rewrite H.
Qed.

Lemma walk_inert (fuel : nat) (h : helpers) (opts : options) (l : list node)
    (st : gmap string meta * bool) :
  inert l = true -> flat_mapSM (walkSync fuel h opts) l st = Ok (l, st).
Proof.
  induction l as [|n l IH]; intros H; [reflexivity|].
  rewrite inert_cons in H. apply andb_true_iff in H as [Hn Hl].
  apply negb_true_iff in Hn. simpl.
  now rewrite (walkSync_inert _ _ _ _ _ Hn), (IH Hl).
Qed.

Lemma inert_resolves (h : helpers) (mixins : gmap string meta) (opts : options)
    (k : nat) (nodes : list node) :
  inert nodes = true -> resolves h mixins opts k nodes nodes.
Proof.
  assert (Hnode : forall n, is_handled_site n = false ->
                            forall rest, resolves h mixins opts k rest rest ->
                                         resolves h mixins opts k (n :: rest) (n :: rest)).
  { induction n as [p v s|sel ns s IH|a p ns s IH|t s] using node_nested_ind;
      intros Hn rest Hrest; simpl in Hn.
    - now constructor.
    - constructor; [|exact Hrest]. clear -IH Hn.
      induction IH as [|x l Hx _ IHl]; simpl in *; [constructor|].
      apply orb_false_iff in Hn as [Hx' Hl]. auto.
    - apply orb_false_iff in Hn as [Ha Hl].
      destruct ns as [l|]; [|now constructor].
      constructor; try assumption. clear -IH Hl.
      induction IH as [|x l' Hx _ IHl]; simpl in *; [constructor|].
      apply orb_false_iff in Hl as [Hx' Hl]. auto.
    - now constructor. }
  induction nodes as [|n l IH]; intros H; [constructor|].
  rewrite inert_cons in H. apply andb_true_iff in H as [Hn Hl].
  apply negb_true_iff in Hn. auto.
Qed.

(** A walk never clears the mark of a changed tree, and a walk that ends
    without the mark has met no definition and no invocation: it returns the
    tree and the registry it was given. *)
Lemma walk_list_clean (fuel : nat) (h : helpers) (opts : options) (ns : list node) :
  Forall (fun n => forall m b l m' b',
            walkSync fuel h opts n (m, b) = Ok (l, (m', b')) ->
            (b = true -> b' = true)
            /\ (b' = false -> is_handled_site n = false /\ l = [n] /\ m' = m)) ns ->
  forall m b l m' b',
    flat_mapSM (walkSync fuel h opts) ns (m, b) = Ok (l, (m', b')) ->
    (b = true -> b' = true)
    /\ (b' = false -> existsb is_handled_site ns = false /\ l = ns /\ m' = m).
Proof.
  induction 1 as [|x ns Hx _ IH]; intros m b l m' b' H; simpl in H.
  - injection H as <- <- <-. auto.
  - destruct (walkSync fuel h opts x (m, b)) as [[ys [m1 b1]]| | |] eqn:Ex;
      try discriminate.
    destruct (flat_mapSM (walkSync fuel h opts) ns (m1, b1)) as [[zs [m2 b2]]| | |] eqn:Er;
      try discriminate.
    injection H as <- <- <-.
    destruct (Hx _ _ _ _ _ Ex) as [Hx1 Hx2].
    destruct (IH _ _ _ _ _ Er) as [Hr1 Hr2].
    split; [auto|]. intros Hb2.
    destruct b1; [now rewrite Hr1 in Hb2|].
    destruct (Hx2 eq_refl) as (Hs & -> & ->).
    destruct (Hr2 Hb2) as (Hss & -> & ->).
    simpl. now rewrite Hs, Hss.
Qed.

Lemma walkSync_clean (fuel : nat) (h : helpers) (opts : options) (n : node) :
  forall m b l m' b',
    walkSync fuel h opts n (m, b) = Ok (l, (m', b')) ->
    (b = true -> b' = true)
    /\ (b' = false -> is_handled_site n = false /\ l = [n] /\ m' = m).
Proof.
  induction n as [p v s|sel ns s IH|a p ns s IH|t s] using node_nested_ind;
    intros m b l m' b' H; simpl in H.
  - injection H as <- <- <-. auto.
  - unfold mbind, outcome_bind in H.
    destruct (flat_mapSM (walkSync fuel h opts) ns (m, b)) as [[l' [m1 b1]]| | |] eqn:E;
      try discriminate.
    injection H as <- <- <-.
    destruct (walk_list_clean _ _ _ _ IH _ _ _ _ _ E) as [H1 H2].
    split; [exact H1|]. intros Hb.
    destruct (H2 Hb) as (Hs & -> & ->). auto.
  - destruct (is_include (Js.toLowerCase a)) eqn:Hi.
    + unfold mbind, outcome_bind in H.
      destruct (insertMixin fuel h m _ opts) as [[inserted site]| | |]; try discriminate.
      injection H as <- <- <-. split; [reflexivity | discriminate].
    + destruct (String.eqb (Js.toLowerCase a) "mixin") eqn:Hm.
      * unfold mbind, outcome_bind in H.
        destruct (addMixin h m _ None); try discriminate.
        injection H as <- <- <-. split; [reflexivity | discriminate].
      * assert (Ha : handled a = false) by (apply handled_false; auto).
        destruct ns as [l0|].
        -- unfold mbind, outcome_bind in H.
           destruct (flat_mapSM (walkSync fuel h opts) l0 (m, b))
             as [[l' [m1 b1]]| | |] eqn:E; try discriminate.
           injection H as <- <- <-.
           destruct (walk_list_clean _ _ _ _ IH _ _ _ _ _ E) as [H1 H2].
           split; [exact H1|]. intros Hb.
           destruct (H2 Hb) as (Hs & -> & ->).
           simpl. now rewrite Ha, Hs.
        -- injection H as <- <- <-. split; [auto|]. intros _.
           simpl. now rewrite Ha.
  - injection H as <- <- <-. auto.
Qed.

(** A run that ends leaves no definition and no invocation in the tree. *)
Lemma run_inert (fuel : nat) (h : helpers) (opts : options)
    (mixins : gmap string meta) (root out : list node) :
  run fuel h opts mixins root = Ok out -> inert out = true.
Proof.
  revert mixins root. induction fuel as [|fuel IH]; intros mixins root H;
    [discriminate|].
  simpl in H.
  destruct (flat_mapSM (walkSync fuel h opts) root (mixins, false))
    as [[root' [mixins' dirty]]| | |] eqn:E; try discriminate.
  destruct dirty.
  - eapply IH; eassumption.
  - injection H as <-.
    assert (Hall : Forall (fun n => forall m b l m' b',
                     walkSync fuel h opts n (m, b) = Ok (l, (m', b')) ->
                     (b = true -> b' = true)
                     /\ (b' = false ->
                         is_handled_site n = false /\ l = [n] /\ m' = m)) root).
    { apply Forall_forall. intros n _. apply walkSync_clean. }
    destruct (walk_list_clean _ _ _ _ Hall _ _ _ _ _ E) as [_ H2].
    destruct (H2 eq_refl) as (Hs & -> & _). now apply inert_inside.
Qed.

(** *** Sheets with definitions *)

(** The first walk over a sheet: the definitions are in the registry, the
    invocations have given way to their expansions, and what is left
    resolves with the registry of the end of the walk. *)
Lemma sheet_walk (h : helpers) (opts : options) (final : gmap string meta) (k : nat)
    (mixins : gmap string meta) (nodes out : list node) (mixins' : gmap string meta) :
  sheet_resolves h opts final k mixins nodes out mixins' ->
  exists (K : nat) (nodes1 : list node) (dirty : bool),
    (forall fuel b, K <= fuel ->
       flat_mapSM (walkSync fuel h opts) nodes (mixins, b)
       = Ok (nodes1, (mixins', b || dirty)))
    /\ (dirty = false -> nodes1 = out)
    /\ resolves h final opts k nodes1 out.
Proof.
  induction 1 as
    [mixins
    |mixins rule inserted out rest out' mixins' Hinc Hins Hr1 Hr2 IH2
    |mixins rule name ps rest out' mixins' Hdef Hp Hr IH
    |mixins sel ns ns' src mixins1 rest out' mixins' Hr1 IH1 Hr2 IH2
    |mixins name params ns ns' src mixins1 rest out' mixins' Hn Hr1 IH1 Hr2 IH2
    |mixins name params src rest out' mixins' Hn Hr IH
    |mixins prop value src rest out' mixins' Hr IH
    |mixins text src rest out' mixins' Hr IH].
  - exists 0, [], false. split; [|split; [reflexivity | constructor]].
    intros fuel b _. simpl. now rewrite orb_false_r.
  - destruct IH2 as (K2 & rest1 & d2 & Hw2 & _ & Hres2).
    destruct (expands_insertMixin _ _ _ _ _ Hins) as [K0 Hcall].
    exists (Nat.max K0 K2), (inserted ++ rest1), true.
    split; [|split; [discriminate|]].
    + intros fuel b Hfuel. cbn [flat_mapSM].
      rewrite (walkSync_invocation _ _ _ _ _ Hinc). cbn [fst].
      rewrite Hcall by lia. simpl.
      rewrite Hw2 by lia. simpl. now rewrite !orb_true_r.
    + apply resolves_app; assumption.
  - destruct IH as (K & rest1 & d & Hw & _ & Hres).
    exists K, rest1, true.
    split; [|split; [discriminate | exact Hres]].
    intros fuel b Hfuel. cbn [flat_mapSM].
    rewrite (walkSync_definition _ _ _ _ _ Hdef). cbn [fst].
    rewrite (addMixin_entry _ _ _ _ _ _ Hp). simpl.
    rewrite Hw by lia. simpl. now rewrite !orb_true_r.
  - destruct IH1 as (K1 & ns1 & d1 & Hw1 & Hd1 & Hres1).
    destruct IH2 as (K2 & rest1 & d2 & Hw2 & Hd2 & Hres2).
    exists (Nat.max K1 K2), (Rule sel ns1 src :: rest1), (d1 || d2).
    split; [|split].
    + intros fuel b Hfuel. simpl. rewrite Hw1 by lia. simpl.
      rewrite Hw2 by lia. now rewrite orb_assoc.
    + intros Hd. apply orb_false_iff in Hd as [E1 E2].
      now rewrite (Hd1 E1), (Hd2 E2).
    + now constructor.
  - destruct IH1 as (K1 & ns1 & d1 & Hw1 & Hd1 & Hres1).
    destruct IH2 as (K2 & rest1 & d2 & Hw2 & Hd2 & Hres2).
    exists (Nat.max K1 K2), (AtRule name params (Some ns1) src :: rest1), (d1 || d2).
    split; [|split].
    + intros fuel b Hfuel. cbn [flat_mapSM].
      rewrite (walkSync_at_rule _ _ _ _ _ _ _ _ Hn). rewrite Hw1 by lia. simpl.
      rewrite Hw2 by lia. now rewrite orb_assoc.
    + intros Hd. apply orb_false_iff in Hd as [E1 E2].
      now rewrite (Hd1 E1), (Hd2 E2).
    + now constructor.
  - destruct IH as (K & rest1 & d & Hw & Hd & Hres).
    exists K, (AtRule name params None src :: rest1), d.
    split; [|split].
    + intros fuel b Hfuel. cbn [flat_mapSM].
      rewrite (walkSync_at_rule _ _ _ _ _ _ _ _ Hn). now rewrite Hw by lia.
    + intros E. now rewrite (Hd E).
    + now constructor.
  - destruct IH as (K & rest1 & d & Hw & Hd & Hres).
    exists K, (Decl prop value src :: rest1), d.
    split; [|split].
    + intros fuel b Hfuel. simpl. now rewrite Hw by lia.
    + intros E. now rewrite (Hd E).
    + now constructor.
  - destruct IH as (K & rest1 & d & Hw & Hd & Hres).
    exists K, (Comment text src :: rest1), d.
    split; [|split].
    + intros fuel b Hfuel. simpl. now rewrite Hw by lia.
    + intros E. now rewrite (Hd E).
    + now constructor.
Qed.

Lemma run_sheet (h : helpers) (opts : options) (final : gmap string meta) (k : nat)
    (mixins : gmap string meta) (root out : list node) :
  sheet_resolves h opts final k mixins root out final ->
  (exists K, forall fuel, K <= fuel -> run fuel h opts mixins root = Ok out)
  /\ inert out = true.
Proof.
  intros Hsheet.
  destruct (sheet_walk _ _ _ _ _ _ _ _ Hsheet) as (K & nodes1 & d & Hw & Hd & Hres).
  split; [|exact (resolves_inert _ _ _ _ _ _ Hres)].
  destruct (run_resolves _ _ _ _ _ _ Hres) as [K' Hrun].
  exists (S (Nat.max K K')). intros [|fuel] Hfuel; [lia|].
  simpl. rewrite Hw by lia. simpl. destruct d.
  - apply Hrun. lia.
  - now rewrite (Hd eq_refl).
Qed.

(** C3.  Every invocation that an expansion brings in is expanded in the same
    run.  Take a sheet in which every definition has a header that parses
    and every invocation expands with the registry as the walk has it there,
    and let every invocation that the expansions bring in, at any depth up
    to [k], expand with the registry of the end of the first walk, as in a
    chain [A] invokes [B] invokes [C]: the run ends, with the sheet in which
    every invocation has given way to its full expansion and the definitions
    are gone, and that sheet holds no invocation and no definition that the
    host would find.  The same holds for a tree without definitions and a
    registry given beforehand; and whatever the sheet is, a run that ends
    leaves no invocation and no definition. *)
Theorem nested_invocations_resolved (h : helpers) (opts : options) :
  (forall final k mixins root out,
     sheet_resolves h opts final k mixins root out final ->
     (exists K, forall fuel, K <= fuel -> run fuel h opts mixins root = Ok out)
     /\ inert out = true)
  /\ (forall mixins k nodes out,
        resolves h mixins opts k nodes out ->
        (exists K, forall fuel, K <= fuel -> run fuel h opts mixins nodes = Ok out)
        /\ inert out = true)
  /\ (forall fuel mixins root out,
        run fuel h opts mixins root = Ok out -> inert out = true).
Proof.
  split; [|split].
  - intros final k mixins root out. apply run_sheet.
  - intros mixins k nodes out Hres.
    split; [exact (run_resolves _ _ _ _ _ _ Hres) | exact (resolves_inert _ _ _ _ _ _ Hres)].
  - intros fuel mixins root out. apply run_inert.
Qed.

Lemma actuals_empty (h : helpers) : actuals h "" = [].
Proof. reflexivity. Qed.

(** The sheet defines [C], [B] whose body invokes [C], and [A] whose body
    invokes [B], and invokes [A]: one run leaves the body of [C]. *)
Lemma nested_invocations_resolved_witness :
  (exists K, forall fuel, K <= fuel ->
     run fuel postcss no_options ∅ chain_sheet = Ok [Decl "c" "1" None])
  /\ inert [Decl "c" "1" None] = true.
Proof.
  assert (HC : expands postcss abc_registry no_options (invocation "C")
                 [Decl "c" "1" None]).
  { exact (expands_css postcss abc_registry no_options (invocation "C") "C" ""
             (css_mixin "C" [Decl "c" "1" None])
             (definition_of "C" [Decl "c" "1" None]) [Decl "c" "1" None] []
             eq_refl eq_refl eq_refl eq_refl eq_refl). }
  assert (HB : expands postcss abc_registry no_options (invocation "B")
                 [AtRule "include" "C" None None]).
  { exact (expands_css postcss abc_registry no_options (invocation "B") "B" ""
             (css_mixin "B" [AtRule "include" "C" None None])
             (definition_of "B" [AtRule "include" "C" None None])
             [AtRule "include" "C" None None] []
             eq_refl eq_refl eq_refl eq_refl eq_refl). }
  assert (HA : expands postcss abc_registry no_options (invocation "A")
                 [AtRule "include" "B" None None]).
  { exact (expands_css postcss abc_registry no_options (invocation "A") "A" ""
             (css_mixin "A" [AtRule "include" "B" None None])
             (definition_of "A" [AtRule "include" "B" None None])
             [AtRule "include" "B" None None] []
             eq_refl eq_refl eq_refl eq_refl eq_refl). }
  assert (H1 : resolves postcss abc_registry no_options 1
                 [AtRule "include" "C" None None] [Decl "c" "1" None]).
  { exact (resolves_site postcss abc_registry no_options 0 (invocation "C")
             [Decl "c" "1" None] [Decl "c" "1" None] [] [] eq_refl HC
             (resolves_decl _ _ _ 0 "c" "1" None [] [] (resolves_nil _ _ _ 0))
             (resolves_nil _ _ _ 1)). }
  assert (H2 : resolves postcss abc_registry no_options 2
                 [AtRule "include" "B" None None] [Decl "c" "1" None]).
  { exact (resolves_site postcss abc_registry no_options 1 (invocation "B")
             [AtRule "include" "C" None None] [Decl "c" "1" None] [] [] eq_refl HB
             H1 (resolves_nil _ _ _ 2)). }
  apply (proj1 (nested_invocations_resolved postcss no_options)
           abc_registry 2 ∅ chain_sheet [Decl "c" "1" None]).
  apply (sheet_definition postcss no_options abc_registry 2 ∅
           (definition_of "C" [Decl "c" "1" None]) "C" ""
           _ _ _ eq_refl eq_refl).
  apply (sheet_definition postcss no_options abc_registry 2 _
           (definition_of "B" [AtRule "include" "C" None None]) "B" ""
           _ _ _ eq_refl eq_refl).
  apply (sheet_definition postcss no_options abc_registry 2 _
           (definition_of "A" [AtRule "include" "B" None None]) "A" ""
           _ _ _ eq_refl eq_refl).
  exact (sheet_site postcss no_options abc_registry 2 abc_registry (invocation "A")
           [AtRule "include" "B" None None] [Decl "c" "1" None] [] [] abc_registry
           eq_refl HA H2 (sheet_nil _ _ _ _ _)).
Defined.

(** The host finds an invocation whatever the letter case of its name is, in
    the sheet and in what an object mixin brings in.  A definition written
    [@MIXIN] is stored as a node called otherwise than [mixin], and the model
    says nothing of an invocation of it. *)
Example letter_case_of_names :
  process 3 postcss no_options
    [AtRule "mixin" "a" (Some [Decl "x" "1" None]) None;
     AtRule "INCLUDE" "a" None None]
  = Ok [Decl "x" "1" None]
  /\ process 4 postcss
       {| silent := false;
          mixins_option := {[ "o" := MObject [AtRule "INCLUDE" "a" (Some []) None] ]} |}
       [AtRule "mixin" "a" (Some [Decl "x" "1" None]) None;
        AtRule "include" "o" None None]
     = Ok [Decl "x" "1" None]
  /\ process 3 postcss no_options
       [AtRule "MIXIN" "a" (Some [Decl "x" "1" None]) None;
        AtRule "include" "a" None None]
     = Unmodelled.
Proof. repeat split; vm_compute; reflexivity. Qed.

(** ** Unknown mixins (C2) *)

Lemma insertMixin_unknown (fuel : nat) (h : helpers) (mixins : gmap string meta)
    (rule : at_rule) (opts : options) (name ps : string) (sa : list (string * string)) :
  parseMixin h rule = Ok (name, ps) ->
  mixins !! name = None ->
  inherited mixins name = NotInherited ->
  single_arguments (actuals h ps) rule = Ok sa ->
  insertMixin (S fuel) h mixins rule opts =
    if silent opts then Ok ([], rule)
    else Throw (CssSyntaxError (at_source rule) ("Undefined mixin " +:+ name)).
Proof.
  intros Hp Hm Hi Hs. cbn [insertMixin]. rewrite Hp.
  cbn -[walk_includes actuals insertObject with_nodes single_arguments].
  rewrite Hs.
  cbn -[walk_includes actuals insertObject with_nodes single_arguments].
  now rewrite Hm, Hi.
Qed.

(** An exception of the listener of an invocation ends the walk, and the run,
    when nothing before the invocation has a listener; the host has attached
    the invocation to it. *)
Lemma run_aborts_at (fuel : nat) (h : helpers) (mixins : gmap string meta)
    (opts : options) (rule : at_rule) (e : error) (pre post : list node) :
  inert pre = true -> is_include (Js.toLowerCase (at_name rule)) = true ->
  insertMixin fuel h mixins rule opts = Throw e ->
  run (S fuel) h opts mixins (pre ++ of_at_rule rule :: post)
  = Throw (Attached rule e).
Proof.
  intros Hpre Hinc Hthrow. cbn [run].
  rewrite flat_mapSM_app, (walk_inert _ _ _ _ _ Hpre). cbn [flat_mapSM].
  rewrite (walkSync_invocation _ _ _ _ _ Hinc). cbn [fst].
  now rewrite Hthrow.
Qed.

(** C2, as the code has it.  For an invocation whose header parses, whose
    marked actuals are all wrapped in parentheses, and whose name has no
    entry in the registry and is not a name that the registry inherits as
    every object does: without [silent] the call throws [Undefined mixin]
    through the invocation, and the run ends with that exception; with
    [silent] nothing is inserted and nothing is thrown, and a run removes
    the invocation from the tree. *)
Theorem undefined_mixin (fuel : nat) (h : helpers) (mixins : gmap string meta)
    (rule : at_rule) (opts : options) (name ps : string) (sa : list (string * string)) :
  parseMixin h rule = Ok (name, ps) ->
  mixins !! name = None ->
  inherited mixins name = NotInherited ->
  single_arguments (actuals h ps) rule = Ok sa ->
  (silent opts = false ->
   insertMixin (S fuel) h mixins rule opts =
     Throw (CssSyntaxError (at_source rule) ("Undefined mixin " +:+ name))
   /\ (is_include (Js.toLowerCase (at_name rule)) = true ->
       forall pre post, inert pre = true ->
         run (S (S fuel)) h opts mixins (pre ++ of_at_rule rule :: post)
         = Throw (Attached rule
                    (CssSyntaxError (at_source rule) ("Undefined mixin " +:+ name)))))
  /\ (silent opts = true ->
      insertMixin (S fuel) h mixins rule opts = Ok ([], rule)
      /\ (is_include (Js.toLowerCase (at_name rule)) = true ->
          forall pre post, inert pre = true -> inert post = true ->
            exists K, forall fuel', K <= fuel' ->
              run fuel' h opts mixins (pre ++ of_at_rule rule :: post)
              = Ok (pre ++ post))).
Proof.
  intros Hp Hm Hi Hs.
  pose proof (fun f => insertMixin_unknown f h mixins rule opts name ps sa Hp Hm Hi Hs)
    as Hcall.
  split; intros Hsilent.
  - rewrite Hcall, Hsilent. split; [reflexivity|].
    intros Hinc pre post Hpre. apply run_aborts_at; try assumption.
    now rewrite Hcall, Hsilent.
  - split; [now rewrite Hcall, Hsilent|].
    intros Hinc pre post Hpre Hpost.
    apply (run_resolves h mixins opts 1).
    apply resolves_app; [now apply inert_resolves|].
    change post with ([] ++ post).
    apply (resolves_site h mixins opts 0 rule [] []); try assumption.
    + exact (expands_silent h mixins opts rule name ps sa Hp Hm Hi Hs Hsilent).
    + constructor.
    + now apply inert_resolves.
Qed.

Lemma undefined_mixin_witness :
  insertMixin 1 postcss ∅
    {| at_name := "include"; at_params := "A"; at_nodes := None;
       at_source := Some {| line := 1; column := 1 |} |}
    {| silent := false; mixins_option := ∅ |}
  = Throw (CssSyntaxError (Some {| line := 1; column := 1 |}) "Undefined mixin A").
Proof.
  exact (proj1 (proj1 (undefined_mixin 0 postcss ∅
                         {| at_name := "include"; at_params := "A"; at_nodes := None;
                            at_source := Some {| line := 1; column := 1 |} |}
                         {| silent := false; mixins_option := ∅ |}
                         "A" "" [] eq_refl eq_refl eq_refl eq_refl) eq_refl)).
Defined.

(** C2 as stated fails on an unknown mixin invoked with a marked actual
    that is not wrapped: the actuals are checked before the registry is
    consulted, so the call throws even with [silent]. *)
Lemma silent_does_not_cover_single_arg :
  parseMixin postcss
    {| at_name := "include"; at_params := "A single-arg 1"; at_nodes := None;
       at_source := Some {| line := 1; column := 1 |} |}
  = Ok ("A", "single-arg 1")
  /\ (∅ : gmap string meta) !! "A" = None
  /\ insertMixin 1 postcss ∅
       {| at_name := "include"; at_params := "A single-arg 1"; at_nodes := None;
          at_source := Some {| line := 1; column := 1 |} |}
       {| silent := true; mixins_option := ∅ |}
     = Throw (CssSyntaxError (Some {| line := 1; column := 1 |})
                "Content of single-arg must be wrapped in brackets: single-arg 1").
Proof. repeat split; vm_compute; reflexivity. Qed.

(** It fails as well on a name that the registry inherits: the read
    [mixins[name]] finds a function of [Object.prototype] under [toString],
    which has no [mixin], and the call throws a [TypeError] with [silent]
    and without. *)
Example inherited_name_is_not_undefined :
  (∅ : gmap string meta) !! "toString" = None
  /\ (forall silent,
        insertMixin 1 postcss ∅
          {| at_name := "include"; at_params := "toString"; at_nodes := None;
             at_source := Some {| line := 1; column := 1 |} |}
          {| silent := silent; mixins_option := ∅ |}
        = Throw (TypeError "Cannot read properties of undefined (reading 'name')")).
Proof. split; [reflexivity|]. intros [|]; vm_compute; reflexivity. Qed.

(** ** Surplus actuals (C9) *)

Lemma filter_no_marker (extra : list string) :
  Forall (fun p => Js.startsWith p "single-arg" = false) extra ->
  filter (fun param => Js.startsWith param "single-arg" = true) extra = [].
Proof.
  induction 1 as [|x l Hx _ IH]; [reflexivity|].
  rewrite filter_cons. destruct (decide _) as [E|_]; [congruence | exact IH].
Qed.

Lemma single_arguments_surplus (given extra : list string) (rule : at_rule) :
  Forall (fun p => Js.startsWith p "single-arg" = false) extra ->
  single_arguments (given ++ extra) rule = single_arguments given rule.
Proof.
  intros H. unfold single_arguments.
  now rewrite filter_app, (filter_no_marker _ H), app_nil_r.
Qed.

(** C9, as the code has it.  Actuals beyond the formals that do not begin
    with the marker are ignored: the call is the call with the actuals that
    have a formal, so they raise nothing and show nowhere in the expansion. *)
Theorem surplus_actuals_ignored (fuel : nat) (h : helpers)
    (mixins : gmap string meta) (rule : at_rule) (opts : options)
    (name ps : string) (m : meta) (definition : at_rule) (body : list node)
    (given extra : list string) :
  parseMixin h rule = Ok (name, ps) ->
  mixins !! name = Some m ->
  mixin m = MCss definition ->
  at_nodes definition = Some body ->
  actuals h ps = given ++ extra ->
  length (args m) <= length given ->
  Forall (fun p => Js.startsWith p "single-arg" = false) extra ->
  insertMixin (S fuel) h mixins rule opts =
    (sa ← single_arguments given rule;
     Ok (css_expansion h m body given rule sa, rule)).
Proof.
  intros Hp Hm Hc Hb Ha Hlen Hextra.
  destruct (single_arguments given rule) as [sa|e| |] eqn:Hs.
  - rewrite (insertMixin_css _ _ _ _ _ _ _ _ _ _ sa Hp Hm Hc Hb)
      by (rewrite Ha, single_arguments_surplus; assumption).
    simpl. unfold css_expansion, bind_values.
    rewrite Ha, bind_from_surplus by (simpl; lia). reflexivity.
  - simpl. rewrite Hp. simpl.
    rewrite Ha, single_arguments_surplus, Hs by assumption. reflexivity.
  - now apply single_arguments_not_OutOfFuel in Hs.
  - now apply single_arguments_not_Unmodelled in Hs.
Qed.

Lemma surplus_actuals_ignored_witness :
  insertMixin 1 postcss v_registry
    {| at_name := "include"; at_params := "m 1, 2, 3"; at_nodes := None;
       at_source := None |}
    {| silent := false; mixins_option := ∅ |}
  = Ok ([Decl "v" "1" None],
        {| at_name := "include"; at_params := "m 1, 2, 3"; at_nodes := None;
           at_source := None |}).
Proof.
  refine (eq_trans
            (surplus_actuals_ignored 0 postcss v_registry
               {| at_name := "include"; at_params := "m 1, 2, 3";
                  at_nodes := None; at_source := None |}
               {| silent := false; mixins_option := ∅ |}
               "m" "1, 2, 3" v_mixin
               {| at_name := "mixin"; at_params := "m $a";
                  at_nodes := Some [Decl "v" "$a" None]; at_source := None |}
               [Decl "v" "$a" None] ["1"] ["2"; "3"] _ _ _ _ _ _ _) _);
    try (vm_compute; reflexivity).
  repeat constructor.
Defined.

(** C9 as stated fails on a surplus actual that begins with the marker and
    is not wrapped: it has no formal, and the call throws on its account. *)
Lemma surplus_single_arg_is_checked :
  actuals postcss "1, single-arg 2" = ["1"; "single-arg 2"]
  /\ length (args v_mixin) = 1
  /\ insertMixin 1 postcss v_registry
       {| at_name := "include"; at_params := "m 1, single-arg 2"; at_nodes := None;
          at_source := Some {| line := 1; column := 1 |} |}
       {| silent := false; mixins_option := ∅ |}
     = Throw (CssSyntaxError (Some {| line := 1; column := 1 |})
                "Content of single-arg must be wrapped in brackets: single-arg 2").
Proof. repeat split; vm_compute; reflexivity. Qed.

(** ** The errors of the engine (C8) *)

Lemma flat_mapM_Throw {A B : Type} (f : A -> outcome (list B)) (l : list A) (e : error) :
  flat_mapM f l = Throw e -> exists x, x ∈ l /\ f x = Throw e.
Proof.
  induction l as [|x l IH]; intros H; simpl in H; [discriminate|].
  unfold mbind, outcome_bind in H.
  destruct (f x) as [y| | |] eqn:Hx; try discriminate.
  - destruct (flat_mapM f l) as [ys'| | |]; try discriminate.
    destruct IH as (x' & Hin & Hx'); [congruence|].
    exists x'. split; [now right | exact Hx'].
  - exists x. split; [now left | congruence].
Qed.

Lemma resolve_Throw (value : string) (rule : at_rule) (e : error) :
  resolveSingleArgumentValue value rule = Throw e ->
  e = CssSyntaxError (at_source rule)
        ("Content of single-arg must be wrapped in brackets: " +:+ value).
Proof.
  unfold resolveSingleArgumentValue.
  destruct (negb _ || negb _); [|discriminate].
  intros H. now injection H as <-.
Qed.

Lemma parseMixin_Throw (h : helpers) (rule : at_rule) (e : error) :
  parseMixin h rule = Throw e ->
  e = CssSyntaxError (at_source rule)
        ("Invalid mixin definition: " +:+ to_string h rule).
Proof.
  unfold parseMixin. destruct (match_header (at_params rule)) as [[name ps]|].
  - discriminate.
  - intros H. now injection H as <-.
Qed.

Lemma parseMixin_malformed (h : helpers) (rule : at_rule) :
  match_header (at_params rule) = None ->
  parseMixin h rule =
    Throw (CssSyntaxError (at_source rule)
             ("Invalid mixin definition: " +:+ to_string h rule)).
Proof. intros H. unfold parseMixin. now rewrite H. Qed.

Lemma insertMixin_parse (fuel : nat) (h : helpers) (mixins : gmap string meta)
    (rule : at_rule) (opts : options) (e : error) :
  parseMixin h rule = Throw e -> insertMixin (S fuel) h mixins rule opts = Throw e.
Proof. intros Hp. cbn [insertMixin]. now rewrite Hp. Qed.

Lemma insertMixin_single_arguments (fuel : nat) (h : helpers)
    (mixins : gmap string meta) (rule : at_rule) (opts : options)
    (name ps : string) (e : error) :
  parseMixin h rule = Ok (name, ps) ->
  single_arguments (actuals h ps) rule = Throw e ->
  insertMixin (S fuel) h mixins rule opts = Throw e.
Proof.
  intros Hp Hs. cbn [insertMixin]. rewrite Hp.
  cbn -[walk_includes actuals insertObject with_nodes single_arguments].
  now rewrite Hs.
Qed.

Lemma insertMixin_wrong_type (fuel : nat) (h : helpers) (mixins : gmap string meta)
    (rule : at_rule) (opts : options) (name ps : string) (sa : list (string * string))
    (m : meta) (value : primitive) :
  parseMixin h rule = Ok (name, ps) ->
  single_arguments (actuals h ps) rule = Ok sa ->
  mixins !! name = Some m ->
  mixin m = MOther value ->
  insertMixin (S fuel) h mixins rule opts =
    Throw (JsError ("Wrong " +:+ name +:+ " mixin type " +:+ typeof value)).
Proof.
  intros Hp Hs Hm Hx. cbn [insertMixin]. rewrite Hp.
  cbn -[walk_includes actuals insertObject with_nodes single_arguments].
  rewrite Hs.
  cbn -[walk_includes actuals insertObject with_nodes single_arguments].
  now rewrite Hm, Hx.
Qed.

(** A marked actual that is not wrapped makes the map of single arguments
    throw, on its account or on that of a marked actual before it. *)
Lemma single_arguments_unbalanced (params : list string) (rule : at_rule)
    (value : string) :
  value ∈ params -> Js.startsWith value "single-arg" = true ->
  Js.startsWith (Js.trim (Js.sliceFrom value 10)) "("
    && Js.endsWith (Js.trim (Js.sliceFrom value 10)) ")" = false ->
  exists v,
    v ∈ params /\ Js.startsWith v "single-arg" = true
    /\ single_arguments params rule =
         Throw (CssSyntaxError (at_source rule)
                  ("Content of single-arg must be wrapped in brackets: " +:+ v)).
Proof.
  intros Hin Hmark Hopen.
  destruct (single_arguments params rule) as [m|e| |] eqn:Hs.
  - destruct (single_arguments_Ok _ _ _ _ Hs Hin Hmark) as (inner & Hr & _).
    rewrite (resolve_unwrapped value rule Hopen) in Hr. discriminate.
  - destruct (single_arguments_Throw _ _ _ Hs) as (v & Hv & Hvm & Hr).
    exists v. split; [exact Hv|]. split; [exact Hvm|].
    now rewrite (resolve_Throw _ _ _ Hr).
  - now apply single_arguments_not_OutOfFuel in Hs.
  - now apply single_arguments_not_Unmodelled in Hs.
Qed.

(** An exception of a call is one the call throws itself, or comes from the
    walk over the block of an invocation of a function mixin. *)
Lemma insertMixin_Throw (fuel : nat) (h : helpers) (mixins : gmap string meta)
    (rule : at_rule) (opts : options) (e : error) :
  insertMixin (S fuel) h mixins rule opts = Throw e ->
  raised_at h rule e
  \/ exists l, at_nodes rule = Some l
               /\ walk_includes fuel h mixins l opts = Throw e.
Proof.
  cbn [insertMixin].
  destruct (parseMixin h rule) as [[name ps]|e0| |] eqn:Hp;
    cbn -[walk_includes actuals insertObject with_nodes single_arguments];
    [| intros H; injection H as <-; apply parseMixin_Throw in Hp as ->;
       left; constructor | discriminate | discriminate].
  destruct (single_arguments (actuals h ps) rule) as [sa|e0| |] eqn:Hs;
    cbn -[walk_includes actuals insertObject with_nodes single_arguments];
    [| intros H; injection H as <-;
       apply single_arguments_Throw in Hs as (v & _ & _ & Hv);
       apply resolve_Throw in Hv as ->; left; constructor
     | discriminate | discriminate].
  destruct (mixins !! name) as [m|] eqn:Hm.
  - destruct (mixin m) as [definition|obj|fn|t|null| |node] eqn:Hx.
    + destruct (at_nodes definition); [|intros H; injection H as <-; left; constructor].
      destruct (if content m then _ else _). discriminate.
    + discriminate.
    + destruct (at_nodes rule) as [l|] eqn:Hl;
        cbn -[walk_includes actuals insertObject with_nodes single_arguments].
      * destruct (walk_includes fuel h mixins l opts) as [l'|e0| |] eqn:Hw;
          cbn -[walk_includes actuals insertObject with_nodes single_arguments];
          [destruct (fn _ _); discriminate | | discriminate | discriminate].
        intros H. injection H as <-. right. exists l. auto.
      * destruct (fn _ _); discriminate.
    + intros H. injection H as <-. left. constructor.
    + intros H. injection H as <-. left. constructor.
    + intros H. injection H as <-. left. constructor.
    + discriminate.
  - destruct (inherited mixins name).
    + destruct (silent opts); [discriminate|].
      intros H. injection H as <-. left. constructor.
    + intros H. injection H as <-. left. exact (MissingMixin h rule false).
    + discriminate.
Qed.

(** Every exception of a call, and of the walk over a block, goes back to a
    call that throws it itself; the walk has attached the invocation of each
    call it went through. *)
Lemma insertMixin_thrown (h : helpers) (mixins : gmap string meta) (opts : options)
    (fuel : nat) :
  (forall rule e, insertMixin fuel h mixins rule opts = Throw e -> thrown_by h rule e)
  /\ (forall nodes e, walk_includes fuel h mixins nodes opts = Throw e ->
        exists child e',
          e = Attached child e' /\ is_include (at_name child) = true
          /\ thrown_by h child e').
Proof.
  induction fuel as [|fuel [IHi IHw]]; [split; discriminate|].
  split.
  - intros rule e H. apply insertMixin_Throw in H as [H|(l & _ & Hw)].
    + now constructor.
    + destruct (IHw _ _ Hw) as (child & e' & -> & Hc & Ht).
      now apply thrown_inside.
  - intros nodes e H. cbn [walk_includes] in H.
    apply flat_mapM_Throw in H as (child & _ & H).
    destruct child as [p v s|sel l s|a p ns s|t s]; try discriminate.
    + unfold mbind, outcome_bind in H.
      destruct (walk_includes fuel h mixins l opts) eqn:Hw; try discriminate.
      injection H as <-. eauto.
    + destruct (is_include a) eqn:Ha.
      * unfold mbind, outcome_bind in H.
        destruct (insertMixin fuel h mixins _ opts) as [[inserted site]|e0| |] eqn:Hi;
          try discriminate.
        -- cbn [catch_at] in H.
           destruct (at_nodes site) as [l|]; [|discriminate].
           destruct (walk_includes fuel h mixins l opts) eqn:Hw; try discriminate.
           injection H as <-. eauto.
        -- cbn [catch_at] in H. injection H as <-.
           eexists _, e0. split; [reflexivity|]. split; [exact Ha|]. now apply IHi.
      * destruct ns as [l|]; [|discriminate].
        unfold mbind, outcome_bind in H.
        destruct (walk_includes fuel h mixins l opts) eqn:Hw; try discriminate.
        injection H as <-. eauto.
Qed.

(** What an exception that a call throws itself carries. *)
Lemma raised_at_source (h : helpers) (rule : at_rule) (e : error) :
  raised_at h rule e ->
  match e with
  | CssSyntaxError src _ => src = at_source rule
  | JsError message =>
      exists name value, message = "Wrong " +:+ name +:+ " mixin type " +:+ typeof value
  | TypeError _ => True
  | Attached _ _ => False
  end.
Proof. intros H. destruct H; simpl; eauto. Qed.

(** *** Exceptions end the walk and the run *)

Lemma aborts_walk (fuel : nat) (h : helpers) (opts : options)
    (st : gmap string meta * bool) (nodes : list node) (e : error) :
  aborts fuel h opts st nodes e ->
  flat_mapSM (walkSync fuel h opts) nodes st = Throw e.
Proof.
  induction 1 as
    [st rule rest e Hinc Hthrow
    |st rule rest e Hdef Hthrow
    |st sel ns src rest e Hin IH
    |st name params ns src rest e Hn Hin IH
    |st n l st1 rest e Hwalk Hrest IH]; cbn [flat_mapSM].
  - rewrite (walkSync_invocation _ _ _ _ _ Hinc). now rewrite Hthrow.
  - rewrite (walkSync_definition _ _ _ _ _ Hdef). now rewrite Hthrow.
  - cbn [walkSync]. now rewrite IH.
  - rewrite (walkSync_at_rule _ _ _ _ _ _ _ _ Hn). now rewrite IH.
  - rewrite Hwalk, IH. reflexivity.
Qed.

Lemma walk_list_aborts (fuel : nat) (h : helpers) (opts : options) (ns : list node) :
  Forall (fun n => forall st e rest,
            walkSync fuel h opts n st = Throw e ->
            aborts fuel h opts st (n :: rest) e) ns ->
  forall st e,
    flat_mapSM (walkSync fuel h opts) ns st = Throw e -> aborts fuel h opts st ns e.
Proof.
  induction 1 as [|x ns Hx _ IH]; intros st e H; cbn [flat_mapSM] in H;
    [discriminate|].
  destruct (walkSync fuel h opts x st) as [[ys s1]|e0| |] eqn:Ex; try discriminate.
  - destruct (flat_mapSM (walkSync fuel h opts) ns s1) as [[zs s2]|e0| |] eqn:Er;
      try discriminate.
    injection H as <-. apply (aborts_later _ _ _ _ _ _ _ _ _ Ex). now apply IH.
  - injection H as <-. now apply Hx.
Qed.

Lemma walkSync_aborts (fuel : nat) (h : helpers) (opts : options) (n : node) :
  forall st e rest,
    walkSync fuel h opts n st = Throw e -> aborts fuel h opts st (n :: rest) e.
Proof.
  induction n as [p v s|sel ns s IH|a p ns s IH|t s] using node_nested_ind;
    intros st e rest H; try discriminate.
  - cbn [walkSync] in H. unfold mbind, outcome_bind in H.
    destruct (flat_mapSM (walkSync fuel h opts) ns st) as [[l' st']|e0| |] eqn:E;
      try discriminate.
    injection H as <-. apply aborts_in_rule.
    now apply (walk_list_aborts _ _ _ _ IH).
  - change (AtRule a p ns s)
      with (of_at_rule {| at_name := a; at_params := p; at_nodes := ns;
                          at_source := s |}) in *.
    set (rule := {| at_name := a; at_params := p; at_nodes := ns; at_source := s |})
      in *.
    destruct (is_include (Js.toLowerCase (at_name rule))) eqn:Hi.
    + rewrite (walkSync_invocation _ _ _ _ _ Hi) in H.
      destruct (insertMixin fuel h (fst st) rule opts) as [[inserted site]|e0| |] eqn:Hc;
        try discriminate.
      cbn in H. injection H as <-. now apply aborts_invocation.
    + destruct (String.eqb (Js.toLowerCase (at_name rule)) "mixin") eqn:Hm.
      * rewrite (walkSync_definition _ _ _ _ _ Hm) in H.
        destruct (addMixin h (fst st) rule None) as [mixins'|e0| |] eqn:Hc;
          try discriminate.
        cbn in H. injection H as <-. now apply aborts_definition.
      * assert (Ha : handled a = false) by (apply handled_false; auto).
        unfold of_at_rule, rule in H |- *. cbn [at_name at_params at_nodes at_source] in *.
        rewrite (walkSync_at_rule _ _ _ _ _ _ _ _ Ha) in H.
        destruct ns as [l|]; [|discriminate].
        unfold mbind, outcome_bind in H.
        destruct (flat_mapSM (walkSync fuel h opts) l st) as [[l' st']|e0| |] eqn:E;
          try discriminate.
        injection H as <-. apply aborts_in_at_rule; [exact Ha|].
        now apply (walk_list_aborts _ _ _ _ IH).
Qed.

Lemma walk_aborts (fuel : nat) (h : helpers) (opts : options)
    (st : gmap string meta * bool) (nodes : list node) (e : error) :
  flat_mapSM (walkSync fuel h opts) nodes st = Throw e ->
  aborts fuel h opts st nodes e.
Proof.
  apply walk_list_aborts, Forall_forall. intros n _. apply walkSync_aborts.
Qed.

Lemma run_aborts_iff (h : helpers) (opts : options) (fuel : nat)
    (mixins : gmap string meta) (root : list node) (e : error) :
  run_aborts h opts fuel mixins root e <-> run fuel h opts mixins root = Throw e.
Proof.
  split.
  - induction 1 as [fuel mixins root e Hab|fuel mixins root root' mixins' e Hw Hr IH];
      cbn [run].
    + now rewrite (aborts_walk _ _ _ _ _ _ Hab).
    + now rewrite Hw.
  - revert mixins root. induction fuel as [|fuel IH]; intros mixins root H;
      [discriminate|].
    cbn [run] in H.
    destruct (flat_mapSM (walkSync fuel h opts) root (mixins, false))
      as [[root' [mixins' dirty]]|e0| |] eqn:E; try discriminate.
    + destruct dirty; [|discriminate].
      apply (aborts_in_next_walk _ _ _ _ _ _ _ _ E). now apply IH.
    + injection H as <-. apply aborts_in_walk. now apply walk_aborts.
Qed.

(** C8, as the code has it.  The four errors of the engine, each from what
    the call is given:
    - a header that does not parse is a malformed definition, for a
      definition and for an invocation alike;
    - a marked actual that is not wrapped is an unbalanced single argument;
    - a name with no entry, inherited from nowhere, is an undefined mixin
      unless [silent] is set;
    - an entry whose value is neither a node, an object nor a function is an
      invalid mixin type.
    The first three are thrown through the node of the call and carry its
    source; the fourth is a plain error that names the mixin and the type of
    the value and carries no source.
    There is no other exception of [addMixin], and an exception of
    [insertMixin] is one of these or one of the runtime, thrown by the call
    itself or by the call on an invocation inside its block, which the walk
    over the block has attached to it then.
    Every exception of a listener ends the walk it is thrown in, at whatever
    depth of the tree and after whatever nodes, and with it the run; the
    host has attached the visited node to it.  A walk and a run throw for no
    other reason. *)
Theorem engine_errors (h : helpers) (opts : options) :
  (forall fuel mixins rule file,
     match_header (at_params rule) = None ->
     addMixin h mixins rule file =
       Throw (CssSyntaxError (at_source rule)
                ("Invalid mixin definition: " +:+ to_string h rule))
     /\ insertMixin (S fuel) h mixins rule opts =
          Throw (CssSyntaxError (at_source rule)
                   ("Invalid mixin definition: " +:+ to_string h rule)))
  /\ (forall fuel mixins rule name ps value,
        parseMixin h rule = Ok (name, ps) ->
        value ∈ actuals h ps -> Js.startsWith value "single-arg" = true ->
        Js.startsWith (Js.trim (Js.sliceFrom value 10)) "("
          && Js.endsWith (Js.trim (Js.sliceFrom value 10)) ")" = false ->
        exists v,
          v ∈ actuals h ps /\ Js.startsWith v "single-arg" = true
          /\ insertMixin (S fuel) h mixins rule opts =
               Throw (CssSyntaxError (at_source rule)
                        ("Content of single-arg must be wrapped in brackets: " +:+ v)))
  /\ (forall fuel mixins rule name ps sa,
        parseMixin h rule = Ok (name, ps) ->
        single_arguments (actuals h ps) rule = Ok sa ->
        mixins !! name = None -> inherited mixins name = NotInherited ->
        silent opts = false ->
        insertMixin (S fuel) h mixins rule opts =
          Throw (CssSyntaxError (at_source rule) ("Undefined mixin " +:+ name)))
  /\ (forall fuel mixins rule name ps sa m value,
        parseMixin h rule = Ok (name, ps) ->
        single_arguments (actuals h ps) rule = Ok sa ->
        mixins !! name = Some m -> mixin m = MOther value ->
        insertMixin (S fuel) h mixins rule opts =
          Throw (JsError ("Wrong " +:+ name +:+ " mixin type " +:+ typeof value)))
  /\ (forall mixins rule file e,
        addMixin h mixins rule file = Throw e ->
        e = CssSyntaxError (at_source rule)
              ("Invalid mixin definition: " +:+ to_string h rule))
  /\ (forall fuel mixins rule e,
        insertMixin fuel h mixins rule opts = Throw e -> thrown_by h rule e)
  /\ (forall rule e,
        raised_at h rule e ->
        match e with
        | CssSyntaxError src _ => src = at_source rule
        | JsError message =>
            error_source e = None
            /\ exists name value,
                 message = "Wrong " +:+ name +:+ " mixin type " +:+ typeof value
        | TypeError _ => error_source e = None
        | Attached _ _ => False
        end)
  /\ (forall fuel st nodes e,
        aborts fuel h opts st nodes e <->
        flat_mapSM (walkSync fuel h opts) nodes st = Throw e)
  /\ (forall fuel mixins root e,
        run_aborts h opts fuel mixins root e <->
        run fuel h opts mixins root = Throw e).
Proof.
  split; [|split; [|split; [|split; [|split; [|split; [|split; [|split]]]]]]].
  - intros fuel mixins rule file Hh.
    pose proof (parseMixin_malformed h rule Hh) as Hp.
    split; [unfold addMixin; now rewrite Hp | now apply insertMixin_parse].
  - intros fuel mixins rule name ps value Hp Hin Hmark Hopen.
    destruct (single_arguments_unbalanced _ rule _ Hin Hmark Hopen)
      as (v & Hv & Hvm & Hs).
    exists v. split; [exact Hv|]. split; [exact Hvm|].
    exact (insertMixin_single_arguments _ _ _ _ _ _ _ _ Hp Hs).
  - intros fuel mixins rule name ps sa Hp Hs Hm Hi Hsilent.
    now rewrite (insertMixin_unknown _ _ _ _ _ _ _ _ Hp Hm Hi Hs), Hsilent.
  - intros fuel mixins rule name ps sa m value.
    apply insertMixin_wrong_type.
  - intros mixins rule file e H. unfold addMixin in H.
    destruct (parseMixin h rule) as [[name ps]|e0| |] eqn:Hp; try discriminate.
    simpl in H. injection H as <-. now apply parseMixin_Throw.
  - intros fuel mixins rule e.
    exact (proj1 (insertMixin_thrown h mixins opts fuel) rule e).
  - intros rule e H. destruct H; simpl; eauto.
  - intros fuel st nodes e. split; [apply aborts_walk | apply walk_aborts].
  - intros fuel mixins root e. apply run_aborts_iff.
Qed.

(** [@include A] at the first position of a sheet, without a mixin [A]. *)
Lemma engine_errors_witness :
  insertMixin 1 postcss ∅
    {| at_name := "include"; at_params := "A"; at_nodes := None;
       at_source := first_position |} no_options
  = Throw (CssSyntaxError first_position "Undefined mixin A").
Proof.
  exact (proj1 (proj2 (proj2 (engine_errors postcss no_options)))
           0 ∅
           {| at_name := "include"; at_params := "A"; at_nodes := None;
              at_source := first_position |}
           "A" "" [] eq_refl eq_refl eq_refl eq_refl eq_refl).
Defined.

(** C8 as stated fails for the invalid mixin type: the invocation of a
    mixin registered as a number has a source position, and the error of the
    call has none, its message being [Wrong a mixin type number] alone.  The
    run ends with that error; what it has of the invocation is the node that
    the host attaches to every exception of a listener. *)
Lemma invalid_type_has_no_position :
  insertMixin 1 postcss
    {[ "a" := {| args := []; content := false; mixin := MOther PNumber;
                 file := None |} ]}
    {| at_name := "include"; at_params := "a"; at_nodes := None;
       at_source := first_position |} no_options
  = Throw (JsError "Wrong a mixin type number")
  /\ at_source {| at_name := "include"; at_params := "a"; at_nodes := None;
                  at_source := first_position |}
     = Some {| line := 1; column := 1 |}
  /\ error_source (JsError "Wrong a mixin type number") = None
  /\ process 2 postcss
       {| silent := false; mixins_option := {[ "a" := MOther PNumber ]} |}
       [AtRule "include" "a" None first_position]
     = Throw (Attached {| at_name := "include"; at_params := "a"; at_nodes := None;
                          at_source := first_position |}
                (JsError "Wrong a mixin type number"))
  /\ error_source
       (Attached {| at_name := "include"; at_params := "a"; at_nodes := None;
                    at_source := first_position |}
          (JsError "Wrong a mixin type number")) = None
  /\ error_message
       (Attached {| at_name := "include"; at_params := "a"; at_nodes := None;
                    at_source := first_position |}
          (JsError "Wrong a mixin type number")) = "Wrong a mixin type number"
  /\ postcssNode
       (Attached {| at_name := "include"; at_params := "a"; at_nodes := None;
                    at_source := first_position |}
          (JsError "Wrong a mixin type number"))
     = Some {| at_name := "include"; at_params := "a"; at_nodes := None;
               at_source := first_position |}.
Proof. repeat split; vm_compute; reflexivity. Qed.

(** An exception of a call reaches the run from any depth of the sheet, and
    from a walk after the first: the definition in the rule is malformed,
    and the body of [m] invokes a mixin that is not defined. *)
Example aborts_at_any_depth :
  process 2 postcss no_options
    [Decl "a" "1" None;
     AtRule "media" "print"
       (Some [Rule "b" [AtRule "mixin" "" None first_position] None]) None]
  = Throw (Attached {| at_name := "mixin"; at_params := ""; at_nodes := None;
                       at_source := first_position |}
             (CssSyntaxError first_position "Invalid mixin definition: @mixin "))
  /\ process 3 postcss no_options
       [AtRule "mixin" "m" (Some [AtRule "include" "n" None first_position]) None;
        AtRule "include" "m" None None]
     = Throw (Attached {| at_name := "include"; at_params := "n"; at_nodes := None;
                          at_source := first_position |}
                (CssSyntaxError first_position "Undefined mixin n")).
Proof. split; vm_compute; reflexivity. Qed.

Lemma single_arg_resolution_witness :
  exists inner,
    Js.trim (Js.sliceFrom "single-arg(1, 2)" 10) = "(" +:+ inner +:+ ")"
    /\ resolveSingleArgumentValue "single-arg(1, 2)" (invocation "a") = Ok inner.
Proof.
  exact (proj1 (proj2 (single_arg_resolution "single-arg(1, 2)" (invocation "a") []))
               eq_refl).
Defined.

(** ** Headers, quotes and commas on sample texts *)

Example header_with_space :
  match_header "m $a, $b: b" = Some ("m", Some "$a, $b: b").
Proof. reflexivity. Qed.

Example header_with_parentheses :
  match_header "m($a, $b)" = Some ("m", Some "$a, $b").
Proof. reflexivity. Qed.

Example header_with_inner_parenthesis :
  match_header "m(a)b)" = Some ("m", Some "a)b").
Proof. reflexivity. Qed.

Example header_name_only :
  match_header "a-b" = Some ("a-b", None)
  /\ match_header "m()" = Some ("m", None)
  /\ match_header "m:" = Some ("m", None).
Proof. repeat split; reflexivity. Qed.

Example header_without_name :
  match_header "" = None /\ match_header "1a" = None.
Proof. repeat split; reflexivity. Qed.

Example header_unclosed :
  match_header "m(ab" = None.
Proof. reflexivity. Qed.

Example header_on_two_lines :
  match_header ("m 1," +:+ String (ascii_of_nat 10) "2") = None.
Proof. reflexivity. Qed.

Example unwrap_quoted :
  unwrap "'x y'" = "x y" /\ unwrap "'x y" = "x y" /\ unwrap "x y'" = "x y'"
  /\ unwrap "''" = "'" /\ unwrap "'" = "'" /\ unwrap "" = "".
Proof. repeat split; reflexivity. Qed.

Example comma_nested :
  Host.comma "a(1, 2), 'b, c', d" = ["a(1, 2)"; "'b, c'"; "d"].
Proof. reflexivity. Qed.

Example comma_empty_tokens :
  Host.comma "1," = ["1"; ""] /\ Host.comma "1, , 3" = ["1"; ""; "3"]
  /\ Host.comma "1,,2" = ["1"; "2"].
Proof. repeat split; reflexivity. Qed.

Example formal_with_default :
  formal "$a" = ("a", "") /\ formal "$b: b" = ("b", "b")
  /\ formal "$c: 'x y'" = ("c", "x y").
Proof. repeat split; reflexivity. Qed.

Example replace_first_only :
  Js.replace "k, k" "k" "v" = "v, k".
Proof. reflexivity. Qed.

Example replace_dollar_patterns :
  Js.replace "a-k-b" "k" "[$&|$$|$1]" = "a-[k|$|$1]-b".
Proof. reflexivity. Qed.

(** ** The cases of the test suite, replayed on the model *)

(** The suite compares the message of the exception, in front of which the
    host has put the name of the plug-in, the name of the input and the
    position; the exception of the model has the message of the engine, the
    position, and the node the host has attached.  The sheet of the first
    case is [@mixin ] with a blank, which the text of the at-rule keeps. *)
Example throws_on_missing_mixin_name :
  process 2 postcss no_options [AtRule "mixin" "" None first_position]
  = Throw (Attached {| at_name := "mixin"; at_params := ""; at_nodes := None;
                       at_source := first_position |}
             (CssSyntaxError first_position "Invalid mixin definition: @mixin ")).
Proof. vm_compute. reflexivity. Qed.

Example throws_on_unknown_mixin :
  process 2 postcss no_options [AtRule "include" "A" None first_position]
  = Throw (Attached {| at_name := "include"; at_params := "A"; at_nodes := None;
                       at_source := first_position |}
             (CssSyntaxError first_position "Undefined mixin A")).
Proof. vm_compute. reflexivity. Qed.

Example removes_unknown_mixin_on_request :
  process 3 postcss {| silent := true; mixins_option := ∅ |}
    [AtRule "include" "A" None first_position; Rule "a" [] None]
  = Ok [Rule "a" [] None].
Proof. vm_compute. reflexivity. Qed.

Example supports_object_mixins :
  process 3 postcss
    {| silent := false;
       mixins_option :=
         {[ "obj" := MObject [AtRule "media" "screen"
                                (Some [Rule "b" [Decl "one" "1" None] None]) None] ]} |}
    [AtRule "include" "obj" None first_position]
  = Ok [AtRule "media" "screen" (Some [Rule "b" [Decl "one" "1" None] None])
          first_position].
Proof. vm_compute. reflexivity. Qed.

Example supports_css_mixins :
  process 4 postcss no_options
    [AtRule "mixin" "black" (Some [Decl "color" "black" None]) None;
     Rule "a" [AtRule "include" "black" None None] None]
  = Ok [Rule "a" [Decl "color" "black" None] None].
Proof. vm_compute. reflexivity. Qed.

Example uses_variable :
  process 4 postcss no_options
    [AtRule "mixin" "color $color" (Some [Decl "color" "$color $other" None]) None;
     Rule "a" [AtRule "include" "color black" None None] None]
  = Ok [Rule "a" [Decl "color" "black $other" None] None].
Proof. vm_compute. reflexivity. Qed.

Example supports_default_value :
  process 4 postcss no_options
    [AtRule "mixin" "c $color: black" (Some [Decl "color" "$color" None]) None;
     Rule "a" [AtRule "include" "c" None None] None]
  = Ok [Rule "a" [Decl "color" "black" None] None].
Proof. vm_compute. reflexivity. Qed.

Example supports_mixins_with_content :
  process 4 postcss no_options
    [AtRule "mixin" "m"
       (Some [AtRule "media" "" (Some [AtRule "mixin-content" "" None None]) None]) None;
     AtRule "include" "m" (Some [Rule "a" [] None]) None]
  = Ok [AtRule "media" "" (Some [Rule "a" [] None]) None].
Proof. vm_compute. reflexivity. Qed.

Example supports_mixins_with_empty_content :
  process 4 postcss no_options
    [AtRule "mixin" "m"
       (Some [Decl "a" "1" None; AtRule "mixin-content" "" None None]) None;
     Rule ".m" [AtRule "include" "m" None None] None]
  = Ok [Rule ".m" [Decl "a" "1" None] None].
Proof. vm_compute. reflexivity. Qed.

Example supports_mixins_with_multiple_content :
  process 4 postcss no_options
    [AtRule "mixin" "m"
       (Some [AtRule "mixin-content" "" None None;
              AtRule "mixin-content" "" None None]) None;
     Rule ".m" [AtRule "include" "m" (Some [Decl "a" "1" None]) None] None]
  = Ok [Rule ".m" [Decl "a" "1" None; Decl "a" "1" None] None].
Proof. vm_compute. reflexivity. Qed.

Example supports_object_mixins_with_content :
  process 3 postcss
    {| silent := false;
       mixins_option :=
         {[ "obj" := MObject [Rule "a" [AtRule "mixin-content" "" (Some []) None] None] ]} |}
    [AtRule "include" "obj" (Some [Rule "b" [] None]) None]
  = Ok [Rule "a" [Rule "b" [] None] None].
Proof. vm_compute. reflexivity. Qed.

Example supports_nested_mixins :
  process 5 postcss no_options
    [AtRule "mixin" "a $a" (Some [Decl "a" "$a" None]) None;
     AtRule "mixin" "b $b" (Some [AtRule "include" "a $b" None None]) None;
     AtRule "include" "b 1" None None]
  = Ok [Decl "a" "1" None].
Proof. vm_compute. reflexivity. Qed.

Example supports_nested_mixins_in_mixin_content :
  process 5 postcss no_options
    [AtRule "mixin" "a" (Some [Decl "a" "1" None]) None;
     AtRule "mixin" "b"
       (Some [Rule "b" [AtRule "mixin-content" "" None None] None]) None;
     AtRule "include" "b" (Some [AtRule "include" "a" None None]) None]
  = Ok [Rule "b" [Decl "a" "1" None] None].
Proof. vm_compute. reflexivity. Qed.

Example supports_default_arguments_in_nested_mixins :
  process 5 postcss no_options
    [AtRule "mixin" "a $a: 1" (Some [Decl "a" "$a" None]) None;
     AtRule "mixin" "b $b" (Some [AtRule "include" "a $b" None None]) None;
     AtRule "include" "b" None None]
  = Ok [Decl "a" "1" None].
Proof. vm_compute. reflexivity. Qed.

Example has_add_mixin_alias :
  process 4 postcss no_options
    [AtRule "mixin" "a" (Some [Decl "a" "1" None]) None;
     AtRule "add-mixin" "a" None None]
  = Ok [Decl "a" "1" None].
Proof. vm_compute. reflexivity. Qed.

Example treats_single_arg_content_as_a_single_argument :
  process 4 postcss no_options
    [AtRule "mixin" "a $x, $y" (Some [Decl "a" "$x" None; Decl "b" "$y" None]) None;
     AtRule "include" "a single-arg(1, 2), 3" None None]
  = Ok [Decl "a" "1, 2" None; Decl "b" "3" None].
Proof. vm_compute. reflexivity. Qed.

Example throws_when_single_arg_has_no_start_parenthesis :
  process 4 postcss no_options
    [AtRule "mixin" "a $p" (Some []) None;
     AtRule "include" "a single-arg 1, 2)" None first_position]
  = Throw (Attached {| at_name := "include"; at_params := "a single-arg 1, 2)";
                       at_nodes := None; at_source := first_position |}
             (CssSyntaxError first_position
                "Content of single-arg must be wrapped in brackets: single-arg 1")).
Proof. vm_compute. reflexivity. Qed.

Example throws_when_single_arg_has_no_end_parenthesis :
  process 4 postcss no_options
    [AtRule "mixin" "a $p" (Some []) None;
     AtRule "include" "a single-arg(1, 2;" None first_position]
  = Throw (Attached {| at_name := "include"; at_params := "a single-arg(1, 2;";
                       at_nodes := None; at_source := first_position |}
             (CssSyntaxError first_position
                "Content of single-arg must be wrapped in brackets: single-arg(1, 2;")).
Proof. vm_compute. reflexivity. Qed.

Example ignores_whitespaces_outside_of_single_arg_parentheses :
  process 4 postcss no_options
    [AtRule "mixin" "a $x, $y" (Some [Decl "a" "$x" None; Decl "b" "$y" None]) None;
     AtRule "include" "a single-arg   (1, 2)   , 3" None None]
  = Ok [Decl "a" "1, 2" None; Decl "b" "3" None].
Proof. vm_compute. reflexivity. Qed.

Example replaces_multiple_single_arg_contents_inside_single_declaration :
  process 4 postcss no_options
    [AtRule "mixin" "a $x, $y" (Some [Decl "a" "$x, $y" None]) None;
     AtRule "include" "a single-arg(1, 2), single-arg(3, 4)" None None]
  = Ok [Decl "a" "1, 2, 3, 4" None].
Proof. vm_compute. reflexivity. Qed.

Example replaces_single_arg_contents_with_nested_parentheses :
  process 4 postcss no_options
    [AtRule "mixin" "a $x" (Some [Decl "a" "$x" None]) None;
     AtRule "include" "a single-arg(1, (2), 3)" None None]
  = Ok [Decl "a" "1, (2), 3" None].
Proof. vm_compute. reflexivity. Qed.

Example handles_single_arg_inside_rules :
  process 4 postcss no_options
    [AtRule "mixin" "a $x, $y"
       (Some [Rule ".s" [Decl "a" "$x" None; Decl "b" "$y" None] None]) None;
     AtRule "include" "a single-arg(1, 2), 3" None None]
  = Ok [Rule ".s" [Decl "a" "1, 2" None; Decl "b" "3" None] None].
Proof. vm_compute. reflexivity. Qed.

Example passes_single_arg_to_the_nested_mixin :
  process 5 postcss no_options
    [AtRule "mixin" "a $p" (Some [Decl "a" "$p" None]) None;
     AtRule "mixin" "b $x, $y"
       (Some [AtRule "include" "a $x" None None; Decl "b" "$y" None]) None;
     AtRule "include" "b single-arg(1, 2), 3" None None]
  = Ok [Decl "a" "1, 2" None; Decl "b" "3" None].
Proof. vm_compute. reflexivity. Qed.

Example passes_single_arg_to_the_nested_function_mixin :
  process 5 postcss
    {| silent := false;
       mixins_option :=
         <["a" := MFunction (fun _ params =>
                               Some [Decl "a" (default "" (params !! 0)) None])]>
           {[ "b" := MFunction (fun _ params =>
                                  Some [AtRule "include"
                                          ("a " +:+ default "" (params !! 0))
                                          (Some []) None;
                                        Decl "b" (default "" (params !! 1)) None]) ]} |}
    [AtRule "include" "b single-arg(1, 2), 3" None None]
  = Ok [Decl "a" "1, 2" None; Decl "b" "3" None].
Proof. vm_compute. reflexivity. Qed.

(** * Further properties of the code *)

(** ** Headers *)

Lemma span_name_sound (s n r : string) :
  span_name s = (n, r) ->
  s = n +:+ r /\ all_chars is_name_char n = true /\ head_is_name r = false.
Proof.
  revert n r. induction s as [|c s IH]; intros n r H; simpl in H.
  - injection H as <- <-. auto.
  - destruct (is_name_char c) eqn:E.
    + destruct (span_name s) as [n' r'] eqn:Es. injection H as <- <-.
      destruct (IH _ _ eq_refl) as (-> & Ha & Hr).
      rewrite append_cons. simpl. rewrite E. auto.
    + injection H as <- <-. simpl. rewrite E. auto.
Qed.

Lemma span_name_app (name rest : string) :
  all_chars is_name_char name = true -> head_is_name rest = false ->
  span_name (name +:+ rest) = (name, rest).
Proof.
  intros Hn Hr. induction name as [|c name IH].
  - rewrite append_nil_l. destruct rest as [|d rest]; [reflexivity|].
    simpl in *. now rewrite Hr.
  - simpl in Hn. apply andb_true_iff in Hn as [Hc Hn].
    rewrite append_cons. simpl. rewrite Hc, (IH Hn). reflexivity.
Qed.

Lemma has_line_terminator_app (a b : string) :
  Js.has_line_terminator (a +:+ b) =
    Js.has_line_terminator a || Js.has_line_terminator b.
Proof.
  induction a as [|c a IH]; [reflexivity|].
  rewrite append_cons. simpl. now rewrite IH, orb_assoc.
Qed.

Lemma name_char_no_terminator (c : ascii) :
  is_name_char c = true -> Js.is_line_terminator c = false.
Proof.
  destruct c as [[] [] [] [] [] [] [] []]; intros H; try reflexivity;
    vm_compute in H; discriminate.
Qed.

Lemma name_no_terminator (name : string) :
  all_chars is_name_char name = true -> Js.has_line_terminator name = false.
Proof.
  induction name as [|c name IH]; intros H; [reflexivity|].
  simpl in H. apply andb_true_iff in H as [Hc Hn].
  simpl. now rewrite (name_char_no_terminator c Hc), IH.
Qed.

Lemma endsWith_unfold (s suffix : string) :
  Js.endsWith s suffix =
    String.eqb s suffix ||
    match s with
    | String _ r => Js.endsWith r suffix
    | EmptyString => false
    end.
Proof. destruct s; reflexivity. Qed.

Lemma endsWith_append (a b : string) : Js.endsWith (a +:+ b) b = true.
Proof.
  induction a as [|c a IH].
  - rewrite append_nil_l, endsWith_unfold, String.eqb_refl. reflexivity.
  - rewrite append_cons, endsWith_unfold, IH. apply orb_true_r.
Qed.

Lemma slice_init (s : string) (c : ascii) :
  Js.slice (s +:+ String c "") 0 (-1) = s.
Proof.
  unfold Js.slice. rewrite length_append. simpl String.length.
  set (n := String.length s).
  replace ((-1 <? 0)%Z) with true by reflexivity.
  replace ((0 <? 0)%Z) with false by reflexivity.
  replace (Z.to_nat (Z.min 0 (Z.of_nat (n + 1)))) with 0 by lia.
  replace (Z.to_nat (Z.max (Z.of_nat (n + 1) + -1) 0
                     - Z.min 0 (Z.of_nat (n + 1)))) with n by lia.
  apply substring_prefix.
Qed.

Lemma match_header_name (params name rest : string) :
  is_name name = true -> head_is_name rest = false ->
  params = name +:+ rest ->
  match_header params =
    match rest with
    | EmptyString => Some (name, None)
    | String c rest' =>
        if Js.is_line_terminator c || Js.has_line_terminator rest' then None
        else if Ascii.eqb c "(" && Nat.leb 2 (String.length rest')
                && Js.endsWith rest' ")"
        then Some (name, Some (Js.slice rest' 0 (-1)))
        else if Js.is_space c && negb (String.eqb rest' "")
        then Some (name, Some rest')
        else if Nat.leb (String.length rest') 1 then Some (name, None)
        else None
    end.
Proof.
  intros Hname Hrest ->. unfold is_name in Hname.
  apply andb_true_iff in Hname as [Hne Hall].
  unfold match_header. rewrite (span_name_app _ _ Hall Hrest).
  apply negb_true_iff in Hne. now rewrite Hne.
Qed.

(** X1.  The two ways of writing the actuals of an invocation, and the formals of
    a definition, are read alike: [name(args)] and [name args] both give the
    name and the trimmed text of the arguments. *)
Theorem header_forms (h : helpers) (rule : at_rule) (name args : string) :
  is_name name = true ->
  args <> "" ->
  Js.has_line_terminator args = false ->
  at_params rule = name +:+ "(" +:+ args +:+ ")"
  \/ at_params rule = name +:+ " " +:+ args ->
  parseMixin h rule = Ok (name, Js.trim args).
Proof.
  intros Hname Hargs Hlt [Hp|Hp]; unfold parseMixin.
  - rewrite (match_header_name _ name ("(" +:+ args +:+ ")") Hname eq_refl Hp).
    rewrite append_cons, append_nil_l.
    rewrite has_line_terminator_app, Hlt.
    rewrite length_append, endsWith_append, slice_init.
    replace (Nat.leb 2 (String.length args + String.length ")")) with true
      by (symmetry; apply Nat.leb_le; destruct args; [contradiction | simpl; lia]).
    reflexivity.
  - rewrite (match_header_name _ name (" " +:+ args) Hname eq_refl Hp).
    rewrite append_cons, append_nil_l, Hlt.
    destruct args as [|a args]; [contradiction|].
    reflexivity.
Qed.

Lemma header_forms_witness :
  parseMixin postcss
    {| at_name := "include"; at_params := "m(1, 2)"; at_nodes := None;
       at_source := None |}
  = Ok ("m", "1, 2")
  /\ parseMixin postcss
       {| at_name := "include"; at_params := "m 1, 2"; at_nodes := None;
          at_source := None |}
     = Ok ("m", "1, 2").
Proof.
  split.
  - apply (header_forms postcss
             {| at_name := "include"; at_params := "m(1, 2)"; at_nodes := None;
                at_source := None |} "m" "1, 2" eq_refl);
      [discriminate | reflexivity | left; reflexivity].
  - apply (header_forms postcss
             {| at_name := "include"; at_params := "m 1, 2"; at_nodes := None;
                at_source := None |} "m" "1, 2" eq_refl);
      [discriminate | reflexivity | right; reflexivity].
Defined.

Lemma trimEnd_unfold (c : ascii) (r : string) :
  Js.trimEnd (String c r) =
    if Js.is_space c && String.eqb (Js.trimEnd r) "" then ""
    else String c (Js.trimEnd r).
Proof. reflexivity. Qed.

Lemma trimEnd_idem (s : string) : Js.trimEnd (Js.trimEnd s) = Js.trimEnd s.
Proof.
  induction s as [|c s IH]; [reflexivity|].
  rewrite trimEnd_unfold.
  destruct (Js.is_space c && String.eqb (Js.trimEnd s) "") eqn:E; [reflexivity|].
  now rewrite trimEnd_unfold, IH, E.
Qed.

Lemma trimStart_head (s : string) :
  match Js.trimStart s with
  | String c _ => Js.is_space c = false
  | EmptyString => True
  end.
Proof.
  induction s as [|c s IH]; simpl; [exact I|].
  destruct (Js.is_space c) eqn:E; [exact IH | exact E].
Qed.

Lemma trimStart_id (s : string) :
  match s with
  | String c _ => Js.is_space c = false
  | EmptyString => True
  end ->
  Js.trimStart s = s.
Proof. destruct s as [|c s]; simpl; [reflexivity|]. now intros ->. Qed.

Lemma trimEnd_keeps_head (s : string) :
  match s with
  | String c _ => Js.is_space c = false
  | EmptyString => True
  end ->
  match Js.trimEnd s with
  | String c _ => Js.is_space c = false
  | EmptyString => True
  end.
Proof.
  destruct s as [|c s]; [trivial|]. intros H.
  rewrite trimEnd_unfold, H. exact H.
Qed.

Lemma trim_idem (s : string) : Js.trim (Js.trim s) = Js.trim s.
Proof.
  unfold Js.trim.
  rewrite (trimStart_id (Js.trimEnd (Js.trimStart s))).
  - apply trimEnd_idem.
  - apply trimEnd_keeps_head, trimStart_head.
Qed.

Lemma match_header_sound (params name : string) (paramString : option string) :
  match_header params = Some (name, paramString) ->
  is_name name = true
  /\ (exists rest, params = name +:+ rest)
  /\ Js.has_line_terminator params = false.
Proof.
  unfold match_header. destruct (span_name params) as [n r] eqn:Es.
  apply span_name_sound in Es as (-> & Hall & Hr).
  destruct (String.eqb n "") eqn:En; [discriminate|].
  intros H.
  assert (n = name /\ Js.has_line_terminator r = false) as [-> Hlt].
  { destruct r as [|c rest'].
    - injection H as <- _. auto.
    - change (Js.has_line_terminator (String c rest'))
        with (Js.is_line_terminator c || Js.has_line_terminator rest').
      destruct (Js.is_line_terminator c || Js.has_line_terminator rest');
        [discriminate|].
      destruct (_ && _ && _); [injection H as <- _; auto|].
      destruct (_ && _); [injection H as <- _; auto|].
      destruct (Nat.leb _ _); [injection H as <- _; auto | discriminate]. }
  split; [|split].
  - unfold is_name. now rewrite En, Hall.
  - now exists r.
  - now rewrite has_line_terminator_app, (name_no_terminator _ Hall), Hlt.
Qed.

(** X2.  What [parseMixin] returns: a name of letters, [_] and [-] that the
    header begins with, and a text of parameters without white space at
    either end; the header it accepts is on one line. *)
Theorem header_parsed (h : helpers) (rule : at_rule) (name paramString : string) :
  parseMixin h rule = Ok (name, paramString) ->
  is_name name = true
  /\ Js.trim paramString = paramString
  /\ (exists rest, at_params rule = name +:+ rest)
  /\ Js.has_line_terminator (at_params rule) = false.
Proof.
  unfold parseMixin.
  destruct (match_header (at_params rule)) as [[n p]|] eqn:Hm; [|discriminate].
  intros H. injection H as -> <-.
  destruct (match_header_sound _ _ _ Hm) as (Hname & Hrest & Hlt).
  repeat split; try assumption.
  destruct p as [p|]; [apply trim_idem | reflexivity].
Qed.

Lemma header_parsed_witness :
  is_name "m" = true
  /\ Js.trim "$a, $b: 2" = "$a, $b: 2"
  /\ (exists rest, "m  $a, $b: 2 " = "m" +:+ rest)
  /\ Js.has_line_terminator "m  $a, $b: 2 " = false.
Proof.
  exact (header_parsed postcss
           {| at_name := "mixin"; at_params := "m  $a, $b: 2 "; at_nodes := None;
              at_source := None |} "m" "$a, $b: 2" eq_refl).
Defined.

Lemma match_header_rejects (params : string) :
  head_is_name params = false \/ Js.has_line_terminator params = true ->
  match_header params = None.
Proof.
  intros [H|H]; unfold match_header.
  - destruct params as [|c r]; [reflexivity|].
    simpl in *. now rewrite H.
  - destruct (span_name params) as [n r] eqn:Es.
    apply span_name_sound in Es as (-> & Hall & Hr).
    rewrite has_line_terminator_app, (name_no_terminator _ Hall) in H.
    destruct (String.eqb n ""); [reflexivity|].
    destruct r as [|c rest']; [discriminate|].
    change (Js.has_line_terminator (String c rest'))
      with (Js.is_line_terminator c || Js.has_line_terminator rest') in H.
    simpl in H. now rewrite H.
Qed.

(** X3.  A header that does not begin with a letter, [_] or [-] (the empty header
    among them), or that runs over more than one line, is rejected: the
    definition or the invocation throws [Invalid mixin definition] through
    its node, whatever the registry and the options are. *)
Theorem header_rejected (h : helpers) (mixins : gmap string meta) (rule : at_rule)
    (opts : options) (file : option string) (fuel : nat) :
  head_is_name (at_params rule) = false
  \/ Js.has_line_terminator (at_params rule) = true ->
  parseMixin h rule =
    Throw (CssSyntaxError (at_source rule)
             ("Invalid mixin definition: " +:+ to_string h rule))
  /\ addMixin h mixins rule file =
       Throw (CssSyntaxError (at_source rule)
                ("Invalid mixin definition: " +:+ to_string h rule))
  /\ insertMixin (S fuel) h mixins rule opts =
       Throw (CssSyntaxError (at_source rule)
                ("Invalid mixin definition: " +:+ to_string h rule)).
Proof.
  intros H. apply match_header_rejects in H.
  assert (Hp : parseMixin h rule =
                 Throw (CssSyntaxError (at_source rule)
                          ("Invalid mixin definition: " +:+ to_string h rule))).
  { unfold parseMixin. now rewrite H. }
  split; [exact Hp|]. split.
  - unfold addMixin. now rewrite Hp.
  - simpl. now rewrite Hp.
Qed.

Lemma header_rejected_witness :
  insertMixin 1 postcss ∅
    {| at_name := "include";
       at_params := String "m" (String "(" (String "1" (String "," (String "010" "2)"))));
       at_nodes := None; at_source := Some {| line := 3; column := 1 |} |}
    {| silent := true; mixins_option := ∅ |}
  = Throw (CssSyntaxError (Some {| line := 3; column := 1 |})
             ("Invalid mixin definition: @include "
                +:+ String "m" (String "(" (String "1" (String "," (String "010" "2)")))))).
Proof.
  exact (proj2 (proj2 (header_rejected postcss ∅
           {| at_name := "include";
              at_params := String "m" (String "(" (String "1" (String "," (String "010" "2)"))));
              at_nodes := None; at_source := Some {| line := 3; column := 1 |} |}
           {| silent := true; mixins_option := ∅ |} None 0
           (or_intror eq_refl)))).
Defined.

(** X4.  After the name the header pattern lets one character pass, and one more
    at the end: a name followed by a character that is not white space, and
    by at most one further character, is read as the name alone.  So
    [a()], [a(] and [a$b] all name the mixin [a], without parameters. *)
Theorem header_trailing_characters (h : helpers) (rule : at_rule)
    (name tail : string) (c : ascii) :
  is_name name = true ->
  is_name_char c = false ->
  Js.is_space c = false ->
  String.length tail <= 1 ->
  Js.has_line_terminator tail = false ->
  at_params rule = name +:+ String c tail ->
  parseMixin h rule = Ok (name, "").
Proof.
  intros Hname Hc Hs Hlen Hlt Hp. unfold parseMixin.
  rewrite (match_header_name _ name (String c tail) Hname Hc Hp).
  assert (Hct : Js.is_line_terminator c = false).
  { destruct c as [[] [] [] [] [] [] [] []]; try reflexivity;
      vm_compute in Hs; discriminate. }
  rewrite Hct, Hlt, Hs.
  replace (Nat.leb 2 (String.length tail)) with false
    by (symmetry; apply Nat.leb_gt; lia).
  replace (Nat.leb (String.length tail) 1) with true
    by (symmetry; apply Nat.leb_le; lia).
  now rewrite andb_false_r.
Qed.

Lemma header_trailing_characters_witness :
  parseMixin postcss
    {| at_name := "include"; at_params := "a$b"; at_nodes := None;
       at_source := None |}
  = Ok ("a", "").
Proof.
  apply (header_trailing_characters postcss
           {| at_name := "include"; at_params := "a$b"; at_nodes := None;
              at_source := None |} "a" "b" "$");
    [reflexivity | reflexivity | reflexivity | simpl; lia | reflexivity | reflexivity].
Defined.

(** ** Quotes and formals *)

Lemma quote_no_terminator (c : ascii) :
  Js.is_quote c = true -> Js.is_line_terminator c = false.
Proof.
  destruct c as [[] [] [] [] [] [] [] []]; intros H; try reflexivity;
    vm_compute in H; discriminate.
Qed.

Lemma rev_app_snoc (s acc : string) (c : ascii) :
  String.rev_app (s +:+ String c "") acc = String c (String.rev_app s acc).
Proof.
  revert acc. induction s as [|a s IH]; intros acc; [reflexivity|].
  rewrite append_cons. simpl. now rewrite IH.
Qed.

Lemma rev_snoc (s : string) (c : ascii) :
  String.rev (s +:+ String c "") = String c (String.rev s).
Proof. apply rev_app_snoc. Qed.

Lemma last_char_snoc (s : string) (c : ascii) :
  Js.last_char (s +:+ String c "") = Some c.
Proof. unfold Js.last_char. now rewrite rev_snoc. Qed.

Lemma unwrap_unfold (c : ascii) (r : string) :
  unwrap (String c r) =
    if Js.has_line_terminator (String c r) then String c r
    else if Js.is_quote c && negb (String.eqb r "") then
      if Nat.leb 2 (String.length r)
         && match Js.last_char r with
            | Some d => Js.is_quote d
            | None => false
            end
      then Js.slice r 0 (-1)
      else r
    else String c r.
Proof. reflexivity. Qed.

Lemma has_line_terminator_cons (c : ascii) (r : string) :
  Js.has_line_terminator (String c r) =
    Js.is_line_terminator c || Js.has_line_terminator r.
Proof. reflexivity. Qed.

Lemma eqb_nonempty (s : string) : s <> "" -> String.eqb s "" = false.
Proof. intros H. now apply String.eqb_neq. Qed.

(** X5.  [unwrap] takes one quote off each end of a text, and does not ask the two
    to be the same character.  A closing quote stays when the text does not
    open with one; an opening quote goes even when none closes the text. *)
Theorem unwrap_quotes (q1 q2 : ascii) (s : string) :
  Js.is_quote q1 = true -> Js.is_quote q2 = true ->
  s <> "" -> Js.has_line_terminator s = false ->
  unwrap (String q1 (s +:+ String q2 "")) = s
  /\ (head_is_quote s = false -> unwrap (s +:+ String q2 "") = s +:+ String q2 "")
  /\ ((forall d, Js.last_char s = Some d -> Js.is_quote d = false) ->
      unwrap (String q1 s) = s).
Proof.
  intros Hq1 Hq2 Hs Hlt.
  assert (Hlen : Nat.leb 2 (String.length (s +:+ String q2 "")) = true).
  { apply Nat.leb_le. rewrite length_append.
    destruct s; [contradiction | simpl; lia]. }
  split; [|split].
  - rewrite unwrap_unfold, has_line_terminator_cons, has_line_terminator_app.
    rewrite has_line_terminator_cons.
    rewrite (quote_no_terminator _ Hq1), (quote_no_terminator _ Hq2), Hlt.
    rewrite Hq1, Hlen, last_char_snoc, Hq2, slice_init.
    rewrite eqb_nonempty; [reflexivity|].
    destruct s; [contradiction | discriminate].
  - intros Hhead. destruct s as [|c s]; [contradiction|].
    rewrite append_cons, unwrap_unfold. simpl in Hhead. rewrite Hhead.
    rewrite andb_false_l.
    destruct (Js.has_line_terminator (String c (s +:+ String q2 ""))); reflexivity.
  - intros Hlast. rewrite unwrap_unfold, has_line_terminator_cons.
    rewrite (quote_no_terminator _ Hq1), Hlt, Hq1, (eqb_nonempty _ Hs).
    simpl. destruct (Js.last_char s) as [d|] eqn:Hd.
    + rewrite (Hlast d eq_refl). now rewrite andb_false_r.
    + now rewrite andb_false_r.
Qed.

Lemma unwrap_quotes_witness :
  unwrap "'Helvetica Neue'" = "Helvetica Neue"
  /\ unwrap "Helvetica Neue'" = "Helvetica Neue'"
  /\ unwrap "'Helvetica Neue" = "Helvetica Neue".
Proof.
  destruct (unwrap_quotes "'" "'" "Helvetica Neue" eq_refl eq_refl
              ltac:(discriminate) eq_refl) as (H1 & H2 & H3).
  split; [exact H1|]. split; [exact (H2 eq_refl)|].
  apply H3. intros d Hd. vm_compute in Hd. injection Hd as <-. reflexivity.
Defined.

Lemma string_app_assoc (a b c : string) : (a +:+ b) +:+ c = a +:+ (b +:+ c).
Proof.
  induction a as [|x a IH]; [reflexivity|].
  rewrite !append_cons. now rewrite IH.
Qed.

Lemma includes_char_cons (c sep : ascii) (r : string) :
  Js.includes (String c r) (String sep "") = false ->
  Ascii.eqb c sep = false /\ Js.includes r (String sep "") = false.
Proof.
  rewrite includes_unfold. intros H. apply orb_false_iff in H as [Hp Hr].
  split; [|exact Hr].
  rewrite prefix_cons in Hp. destruct (ascii_dec sep c) as [E|E].
  - destruct r; discriminate.
  - apply Ascii.eqb_neq. congruence.
Qed.

Lemma splitFirst_app (pre after : string) (sep : ascii) :
  Js.includes pre (String sep "") = false ->
  Js.splitFirst (pre +:+ String sep after) sep = pre.
Proof.
  induction pre as [|c pre IH]; intros H.
  - rewrite append_nil_l. simpl. now rewrite Ascii.eqb_refl.
  - apply includes_char_cons in H as [Hc Hr].
    rewrite append_cons. simpl. now rewrite Hc, (IH Hr).
Qed.

Lemma splitFirst_none (s : string) (sep : ascii) :
  Js.includes s (String sep "") = false -> Js.splitFirst s sep = s.
Proof.
  induction s as [|c s IH]; intros H; [reflexivity|].
  apply includes_char_cons in H as [Hc Hr].
  simpl. now rewrite Hc, (IH Hr).
Qed.

Lemma substring_empty (n : nat) (s : string) : String.substring n 0 s = "".
Proof.
  revert n. induction s as [|c s IH]; intros [|n]; simpl; auto.
Qed.

Lemma sliceFrom_beyond (s : string) :
  Js.sliceFrom s (Z.of_nat (String.length s) + 1) = "".
Proof.
  unfold Js.sliceFrom, Js.slice. set (n := String.length s).
  replace ((Z.of_nat n + 1 <? 0)%Z) with false by (symmetry; apply Z.ltb_ge; lia).
  replace ((Z.of_nat n <? 0)%Z) with false by (symmetry; apply Z.ltb_ge; lia).
  replace (Z.to_nat (Z.min (Z.of_nat n) (Z.of_nat n)
                     - Z.min (Z.of_nat n + 1) (Z.of_nat n))) with 0 by lia.
  apply substring_empty.
Qed.

Lemma sliceFrom_tail (c : ascii) (s : string) : Js.sliceFrom (String c s) 1 = s.
Proof. exact (sliceFrom_append (String c "") s). Qed.

(** X6.  A formal is split at its first colon: the text before it, without its
    first character and trimmed, is the name, and the text after it, trimmed
    and without its quotes, is the default; colons in the default are part
    of it.  Without a colon the default is the empty text.  The first
    character is dropped whether or not it is [$]. *)
Theorem formal_split (c : ascii) (name default_value : string) :
  c <> ":"%char ->
  Js.includes name ":" = false ->
  formal (String c (name +:+ ":" +:+ default_value))
    = (Js.trim name, unwrap (Js.trim default_value))
  /\ formal (String c name) = (Js.trim name, "").
Proof.
  intros Hc Hname. apply Ascii.eqb_neq in Hc. split; unfold formal.
  - assert (Harg : Js.splitFirst (String c (name +:+ ":" +:+ default_value)) ":"
                   = String c name).
    { change (":" +:+ default_value) with (String ":" default_value).
      simpl. rewrite Hc. now rewrite (splitFirst_app name default_value ":" Hname). }
    rewrite Harg, sliceFrom_tail.
    replace (String c (name +:+ ":" +:+ default_value))
      with ((String c name +:+ ":") +:+ default_value)
      by (now rewrite string_app_assoc).
    replace (Z.of_nat (String.length (String c name)) + 1)%Z
      with (Z.of_nat (String.length (String c name +:+ ":")))
      by (rewrite length_append; simpl String.length; lia).
    now rewrite sliceFrom_append.
  - assert (Harg : Js.splitFirst (String c name) ":" = String c name).
    { simpl. rewrite Hc. now rewrite (splitFirst_none name ":" Hname). }
    rewrite Harg, sliceFrom_tail, sliceFrom_beyond. reflexivity.
Qed.

Lemma formal_split_witness :
  formal "$img: url(http://x/y.png)" = ("img", "url(http://x/y.png)")
  /\ formal "$img" = ("img", "").
Proof.
  apply (formal_split "$" "img" " url(http://x/y.png)");
    [discriminate | reflexivity].
Defined.

(** ** Definition and expansion *)

Lemma unwrapSingleArguments_empty (rules : list node) :
  unwrapSingleArguments rules [] = rules.
Proof. reflexivity. Qed.

Lemma single_arguments_nil (rule : at_rule) : single_arguments [] rule = Ok [].
Proof. reflexivity. Qed.

Lemma expand_defined (fuel : nat) (h : helpers) (mixins : gmap string meta)
    (definition rule : at_rule) (file : option string) (opts : options)
    (name : string) (body : list node) :
  at_name definition = "mixin" ->
  parseMixin h definition = Ok (name, "") ->
  at_nodes definition = Some body ->
  parseMixin h rule = Ok (name, "") ->
  addMixin h mixins definition file =
    Ok (<[name := {| args := []; content := has_mixin_content definition;
                     mixin := MCss definition; file := file |}]> mixins)
  /\ insertMixin (S fuel) h
       (<[name := {| args := []; content := has_mixin_content definition;
                     mixin := MCss definition; file := file |}]> mixins) rule opts
     = Ok (fst (processMixinContent body rule), rule).
Proof.
  intros Hn Hd Hb Hr.
  split; [unfold addMixin; now rewrite Hd, Hn|].
  rewrite (insertMixin_css fuel h _ rule opts name ""
             {| args := []; content := has_mixin_content definition;
                mixin := MCss definition; file := file |}
             definition body [] Hr (lookup_insert_eq _ _ _) eq_refl Hb eq_refl).
  unfold css_expansion. simpl.
  rewrite unwrapSingleArguments_empty.
  destruct (has_mixin_content definition) eqn:Hc; [reflexivity|].
  unfold has_mixin_content in Hc. rewrite Hb in Hc.
  now rewrite (processMixinContent_no_placeholder body rule
                 (no_placeholder_inside _ Hc)).
Qed.

(** X7.  A mixin without formals, once defined by an at-rule called [mixin],
    expands at an invocation without actuals to its body, with every
    placeholder of the body replaced by the block of the invocation.
    Whatever the registry held under the name before the definition has no
    part in the expansion. *)
Theorem define_then_expand (fuel : nat) (h : helpers) (mixins : gmap string meta)
    (definition rule : at_rule) (file : option string) (opts : options)
    (name : string) (body : list node) :
  at_name definition = "mixin" ->
  parseMixin h definition = Ok (name, "") ->
  at_nodes definition = Some body ->
  parseMixin h rule = Ok (name, "") ->
  exists mixins',
    addMixin h mixins definition file = Ok mixins'
    /\ insertMixin (S fuel) h mixins' rule opts
       = Ok (fst (processMixinContent body rule), rule).
Proof.
  intros Hn Hd Hb Hr. eexists.
  exact (expand_defined fuel h mixins definition rule file opts name body Hn Hd Hb Hr).
Qed.

Lemma define_then_expand_witness :
  exists mixins',
    addMixin postcss (<["m" := css_mixin "m" []]> ∅)
      {| at_name := "mixin"; at_params := "m";
         at_nodes := Some [Decl "a" "1" None; AtRule "mixin-content" "" None None];
         at_source := None |} None
    = Ok mixins'
    /\ insertMixin 1 postcss mixins'
         {| at_name := "include"; at_params := "m";
            at_nodes := Some [Decl "b" "2" None]; at_source := None |}
         no_options
       = Ok (fst (processMixinContent
                    [Decl "a" "1" None; AtRule "mixin-content" "" None None]
                    {| at_name := "include"; at_params := "m";
                       at_nodes := Some [Decl "b" "2" None]; at_source := None |}),
             {| at_name := "include"; at_params := "m";
                at_nodes := Some [Decl "b" "2" None]; at_source := None |}).
Proof.
  exact (define_then_expand 0 postcss (<["m" := css_mixin "m" []]> ∅)
           {| at_name := "mixin"; at_params := "m";
              at_nodes := Some [Decl "a" "1" None; AtRule "mixin-content" "" None None];
              at_source := None |}
           {| at_name := "include"; at_params := "m";
              at_nodes := Some [Decl "b" "2" None]; at_source := None |}
           None no_options "m"
           [Decl "a" "1" None; AtRule "mixin-content" "" None None]
           eq_refl eq_refl eq_refl eq_refl).
Defined.

(** ** Single arguments: what is left alone *)

Lemma find_absent (s key : string) :
  Js.includes s key = false -> Js.find s key = None.
Proof.
  induction s as [|c s IH]; intros H; rewrite includes_unfold in H;
    apply orb_false_iff in H as [Hp Hr]; rewrite find_unfold, Hp.
  - reflexivity.
  - now rewrite (IH Hr).
Qed.

Lemma replace_absent (s key value : string) :
  Js.includes s key = false -> Js.replace s key value = s.
Proof. intros H. unfold Js.replace. now rewrite (find_absent _ _ H). Qed.

Lemma replace_all_keys_absent (value : string) (m : list (string * string)) :
  existsb (Js.includes value) (map fst m) = false ->
  replace_all_keys value m = value.
Proof.
  unfold replace_all_keys. induction m as [|[k v] m IH]; intros H; [reflexivity|].
  simpl in H. apply orb_false_iff in H as [Hk Hm].
  simpl. rewrite (replace_absent _ _ _ Hk). exact (IH Hm).
Qed.

Lemma unwrap_node_without_token (m : list (string * string)) (n : node) :
  mentions (map fst m) n = false -> unwrap_node m n = n.
Proof.
  induction n as [p v s|sel ns s IH|a p ns s IH|t s] using node_nested_ind;
    intros H; simpl in *; try reflexivity.
  - rewrite (replace_all_keys_absent _ _ H).
    now destruct (Js.includes v "single-arg").
  - f_equal. clear -IH H.
    induction IH as [|x l Hx _ IHl]; simpl in *; [reflexivity|].
    apply orb_false_iff in H as [H1 H2]. now rewrite (Hx H1), (IHl H2).
Qed.

(** X8.  A fragment in which no declaration, at the top or inside nested rules,
    has one of the tokens of the map in its value comes back as it is: a
    value that holds the marker, but none of the tokens, is not rewritten. *)
Theorem unwrap_without_token (rules : list node)
    (singleArgumentsMap : list (string * string)) :
  existsb (mentions (map fst singleArgumentsMap)) rules = false ->
  unwrapSingleArguments rules singleArgumentsMap = rules.
Proof.
  intros H. unfold unwrapSingleArguments.
  destruct (Nat.leb (length singleArgumentsMap) 0); [reflexivity|].
  induction rules as [|n rules IH]; [reflexivity|].
  simpl in H. apply orb_false_iff in H as [Hn Hr].
  simpl. now rewrite (unwrap_node_without_token _ _ Hn), (IH Hr).
Qed.

Lemma unwrap_without_token_witness :
  unwrapSingleArguments
    [Decl "a" "single-arg(3, 4)" None;
     Rule ".r" [Decl "b" "single-arg (1, 2)" None] None]
    [("single-arg(1, 2)", "1, 2")]
  = [Decl "a" "single-arg(3, 4)" None;
     Rule ".r" [Decl "b" "single-arg (1, 2)" None] None].
Proof.
  exact (unwrap_without_token
           [Decl "a" "single-arg(3, 4)" None;
            Rule ".r" [Decl "b" "single-arg (1, 2)" None] None]
           [("single-arg(1, 2)", "1, 2")] eq_refl).
Defined.

Lemma Map_set_keys (m : list (string * string)) (k v k' : string) :
  k' ∈ map fst (Map_set m k v) <-> k' = k \/ k' ∈ map fst m.
Proof.
  induction m as [|[k0 v0] m IH]; simpl.
  - rewrite elem_of_cons. reflexivity.
  - destruct (String.eqb k0 k) eqn:E; simpl.
    + apply String.eqb_eq in E. subst k0.
      rewrite !elem_of_cons. tauto.
    + rewrite !elem_of_cons, IH. tauto.
Qed.

Lemma Map_set_NoDup (m : list (string * string)) (k v : string) :
  NoDup (map fst m) -> NoDup (map fst (Map_set m k v)).
Proof.
  induction m as [|[k0 v0] m IH]; simpl; intros H.
  - apply NoDup_singleton.
  - apply NoDup_cons in H as [Hk0 Hm].
    destruct (String.eqb k0 k) eqn:E; simpl.
    + apply String.eqb_eq in E. subst k0. now apply NoDup_cons.
    + apply String.eqb_neq in E. apply NoDup_cons. split; [|auto].
      rewrite Map_set_keys. intros [->|Hin]; [congruence | contradiction].
Qed.

Lemma new_Map_keys (entries m : list (string * string)) :
  NoDup (map fst m) ->
  NoDup (map fst (fold_left (fun m e => Map_set m (fst e) (snd e)) entries m))
  /\ forall k,
       k ∈ map fst (fold_left (fun m e => Map_set m (fst e) (snd e)) entries m)
       <-> k ∈ map fst entries \/ k ∈ map fst m.
Proof.
  revert m. induction entries as [|[k0 v0] entries IH]; intros m Hm; simpl.
  - split; [exact Hm|]. intros k. rewrite elem_of_nil. tauto.
  - destruct (IH (Map_set m k0 v0) (Map_set_NoDup _ _ _ Hm)) as [Hnd Hk].
    split; [exact Hnd|]. intros k.
    rewrite Hk, Map_set_keys, elem_of_cons. tauto.
Qed.

Lemma mapM_keys (f : string -> outcome string) (l : list string)
    (entries : list (string * string)) :
  mapM (fun x => y ← f x; Ok (x, y)) l = Ok entries -> map fst entries = l.
Proof.
  revert entries. induction l as [|x l IH]; intros entries H; simpl in H.
  - now injection H as <-.
  - unfold mbind, outcome_bind in H. destruct (f x) as [y| | |]; try discriminate.
    destruct (mapM _ l) as [es| | |] eqn:El; try discriminate.
    injection H as <-. simpl. f_equal. now apply IH.
Qed.

(** X9.  The map of single arguments has one entry for each distinct actual that
    begins with the marker, and no other: an actual given twice is one key. *)
Theorem single_arguments_keys (params : list string) (rule : at_rule)
    (singleArgumentsMap : list (string * string)) :
  single_arguments params rule = Ok singleArgumentsMap ->
  NoDup (map fst singleArgumentsMap)
  /\ forall key,
       key ∈ map fst singleArgumentsMap
       <-> key ∈ params /\ Js.startsWith key "single-arg" = true.
Proof.
  unfold single_arguments. intros H. unfold mbind, outcome_bind in H.
  destruct (mapM _ _) as [entries| | |] eqn:Hm; try discriminate.
  injection H as <-.
  apply (mapM_keys (fun param => resolveSingleArgumentValue param rule)) in Hm.
  destruct (new_Map_keys entries [] (NoDup_nil_2)) as [Hnd Hk].
  split; [exact Hnd|]. intros key. unfold new_Map. rewrite Hk, Hm.
  rewrite list_elem_of_filter. simpl. rewrite elem_of_nil. tauto.
Qed.

Lemma single_arguments_keys_witness :
  NoDup (map fst [("single-arg(1, 2)", "1, 2")])
  /\ forall key,
       key ∈ map fst [("single-arg(1, 2)", "1, 2")]
       <-> key ∈ ["single-arg(1, 2)"; "3"; "single-arg(1, 2)"]
           /\ Js.startsWith key "single-arg" = true.
Proof.
  exact (single_arguments_keys ["single-arg(1, 2)"; "3"; "single-arg(1, 2)"]
           (invocation "m") [("single-arg(1, 2)", "1, 2")] eq_refl).
Defined.

(** ** Object mixins *)

Lemma content_walk_top (n : node) (from : at_rule) :
  is_placeholder n = false ->
  exists n', fst (content_walk n from) = [n'] /\ node_source n' = node_source n.
Proof.
  destruct n as [p v s|sel ns s|a p ns s|t s]; intros H; simpl in *.
  - eauto.
  - destruct (flat_mapS content_walk ns from) as [l' from']. simpl. eauto.
  - rewrite H. destruct ns as [l|]; [|simpl; eauto].
    destruct (flat_mapS content_walk l from) as [l' from']. simpl. eauto.
  - eauto.
Qed.

Lemma unwrap_node_source (m : list (string * string)) (n : node) :
  node_source (unwrap_node m n) = node_source n.
Proof.
  destruct n as [p v s|sel ns s|a p ns s|t s]; simpl; try reflexivity.
  now destruct (Js.includes v "single-arg").
Qed.

Lemma unwrapSingleArguments_source (l : list node) (m : list (string * string)) :
  map node_source (unwrapSingleArguments l m) = map node_source l.
Proof.
  unfold unwrapSingleArguments. destruct (Nat.leb (length m) 0); [reflexivity|].
  induction l as [|n l IH]; [reflexivity|].
  simpl. now rewrite unwrap_node_source, IH.
Qed.

(** X10.  The nodes an object mixin puts in place of an invocation carry the
    source of the invocation, one for each top node of the object, when
    none of these is a placeholder (placeholders inside them are filled in
    where they are). *)
Theorem object_nodes_source (rule : at_rule) (obj : list node)
    (singleArgumentsMap : list (string * string)) :
  forallb (fun n => negb (is_placeholder n)) obj = true ->
  map node_source (insertObject rule obj singleArgumentsMap)
  = map (fun _ => at_source rule) obj.
Proof.
  intros H. unfold insertObject.
  rewrite (processMixinContent_pair _ rule), unwrapSingleArguments_source.
  induction obj as [|n obj IH]; [reflexivity|].
  simpl in H. apply andb_true_iff in H as [Hn Hobj].
  apply negb_true_iff in Hn.
  change (map (set_source (at_source rule)) (n :: obj))
    with (set_source (at_source rule) n :: map (set_source (at_source rule)) obj).
  rewrite processMixinContent_cons.
  destruct (content_walk_top (set_source (at_source rule) n) rule) as (n' & Hw & Hs).
  { now destruct n. }
  cbn [fst]. rewrite Hw. cbn [app map]. rewrite Hs, (IH Hobj).
  f_equal. now destruct n.
Qed.

Lemma object_nodes_source_witness :
  map node_source
    (insertObject
       {| at_name := "include"; at_params := "m"; at_nodes := None;
          at_source := Some {| line := 7; column := 3 |} |}
       [Decl "a" "1" None; Rule ".r" [AtRule "mixin-content" "" None None] None]
       [])
  = [Some {| line := 7; column := 3 |}; Some {| line := 7; column := 3 |}].
Proof.
  exact (object_nodes_source
           {| at_name := "include"; at_params := "m"; at_nodes := None;
              at_source := Some {| line := 7; column := 3 |} |}
           [Decl "a" "1" None; Rule ".r" [AtRule "mixin-content" "" None None] None]
           [] eq_refl).
Defined.

(** ** Whole sheets *)

(** X11.  A sheet without definitions and invocations, in whatever letter case
    their names are written, goes through the plug-in unchanged, in one
    walk, whatever the options are. *)
Theorem literal_sheet_unchanged (fuel : nat) (h : helpers) (opts : options)
    (root : list node) :
  inert root = true -> process (S fuel) h opts root = Ok root.
Proof.
  intros H. unfold process. simpl. now rewrite (walk_inert _ _ _ _ _ H).
Qed.

Lemma literal_sheet_unchanged_witness :
  process 1 postcss no_options
    [Rule "a" [Decl "color" "$x" None] None;
     AtRule "media" "print" (Some [Comment "mixin-free" None]) None]
  = Ok [Rule "a" [Decl "color" "$x" None] None;
        AtRule "media" "print" (Some [Comment "mixin-free" None]) None].
Proof.
  exact (literal_sheet_unchanged 0 postcss no_options
           [Rule "a" [Decl "color" "$x" None] None;
            AtRule "media" "print" (Some [Comment "mixin-free" None]) None]
           eq_refl).
Defined.




Lemma flat_mapSM_Throw {St A : Type} (f : A -> St -> outcome (list A * St))
    (pre : list A) (x : A) (rest : list A) (s : St) (e : error) :
  flat_mapSM f pre s = Ok (pre, s) -> f x s = Throw e ->
  flat_mapSM f (pre ++ x :: rest) s = Throw e.
Proof.
  intros Hpre Hx. rewrite flat_mapSM_app, Hpre. simpl. now rewrite Hx.
Qed.

(** X13.  Definitions are registered as the walk meets them: an invocation that
    stands before the definition of its mixin, with no mixin of that name in
    the options (and not under a name that the registry inherits as every
    object does), throws [Undefined mixin], whatever follows it in the
    sheet; the exception reaches the caller with the invocation attached. *)
Theorem use_before_definition (fuel : nat) (h : helpers) (opts : options)
    (pre rest : list node) (rule : at_rule) (name ps : string)
    (sa : list (string * string)) :
  inert pre = true ->
  is_include (Js.toLowerCase (at_name rule)) = true ->
  parseMixin h rule = Ok (name, ps) ->
  single_arguments (actuals h ps) rule = Ok sa ->
  mixins_option opts !! name = None ->
  inherited (prepare opts) name = NotInherited ->
  silent opts = false ->
  process (S (S fuel)) h opts (pre ++ of_at_rule rule :: rest)
  = Throw (Attached rule
             (CssSyntaxError (at_source rule) ("Undefined mixin " +:+ name))).
Proof.
  intros Hpre Hinc Hp Hs Hopt Hinh Hsilent. unfold process.
  apply run_aborts_at; try assumption.
  assert (Hm : prepare opts !! name = None)
    by (unfold prepare; now rewrite lookup_fmap, Hopt).
  now rewrite (insertMixin_unknown _ _ _ _ _ _ _ _ Hp Hm Hinh Hs), Hsilent.
Qed.

Lemma use_before_definition_witness :
  process 2 postcss no_options
    [Decl "a" "1" None;
     AtRule "include" "m" None first_position;
     AtRule "mixin" "m" (Some [Decl "b" "1" None]) None]
  = Throw (Attached {| at_name := "include"; at_params := "m"; at_nodes := None;
                       at_source := first_position |}
             (CssSyntaxError first_position "Undefined mixin m")).
Proof.
  exact (use_before_definition 0 postcss no_options
           [Decl "a" "1" None]
           [AtRule "mixin" "m" (Some [Decl "b" "1" None]) None]
           {| at_name := "include"; at_params := "m"; at_nodes := None;
              at_source := first_position |} "m" "" []
           eq_refl eq_refl eq_refl eq_refl eq_refl eq_refl eq_refl).
Defined.

(** X14.  A definition without formals followed by an invocation of it, without
    actuals, gives the body of the mixin with the block of the invocation in
    the place of each placeholder, when nothing in that is left to expand;
    a mixin of the same name in the options gives way to the definition. *)
Theorem definition_then_invocation (fuel : nat) (h : helpers) (opts : options)
    (definition rule : at_rule) (name : string) (body : list node) :
  at_name definition = "mixin" ->
  parseMixin h definition = Ok (name, "") ->
  at_nodes definition = Some body ->
  is_include (Js.toLowerCase (at_name rule)) = true ->
  parseMixin h rule = Ok (name, "") ->
  inert (fst (processMixinContent body rule)) = true ->
  process (S (S fuel)) h opts [of_at_rule definition; of_at_rule rule]
  = Ok (fst (processMixinContent body rule)).
Proof.
  intros Hname Hd Hb Hinc Hr Hlit.
  destruct (expand_defined fuel h (prepare opts) definition rule None opts
              name body Hname Hd Hb Hr) as [Hadd Hins].
  unfold process. cbn [run flat_mapSM].
  assert (Hw1 : walkSync (S fuel) h opts (of_at_rule definition) (prepare opts, false)
                = Ok ([], (<[name := {| args := [];
                                        content := has_mixin_content definition;
                                        mixin := MCss definition; file := None |}]>
                             (prepare opts), true))).
  { rewrite walkSync_definition by (rewrite Hname; reflexivity).
    cbn [fst]. now rewrite Hadd. }
  rewrite Hw1.
  assert (Hw2 : walkSync (S fuel) h opts (of_at_rule rule)
                  (<[name := {| args := [];
                                content := has_mixin_content definition;
                                mixin := MCss definition; file := None |}]>
                     (prepare opts), true)
                = Ok (fst (processMixinContent body rule),
                      (<[name := {| args := [];
                                    content := has_mixin_content definition;
                                    mixin := MCss definition; file := None |}]>
                         (prepare opts), true))).
  { rewrite (walkSync_invocation _ _ _ _ _ Hinc). cbn [fst]. now rewrite Hins. }
  rewrite Hw2. cbn [app]. rewrite app_nil_r.
  cbn [run]. now rewrite (walk_inert _ _ _ _ _ Hlit).
Qed.

Lemma definition_then_invocation_witness :
  process 2 postcss
    {| silent := false; mixins_option := {[ "m" := MObject [Decl "z" "0" None] ]} |}
    [AtRule "mixin" "m"
       (Some [Decl "a" "1" None; AtRule "mixin-content" "" None None]) None;
     AtRule "include" "m" (Some [Decl "b" "2" None]) None]
  = Ok [Decl "a" "1" None; Decl "b" "2" None].
Proof.
  exact (definition_then_invocation 0 postcss
           {| silent := false;
              mixins_option := {[ "m" := MObject [Decl "z" "0" None] ]} |}
           {| at_name := "mixin"; at_params := "m";
              at_nodes := Some [Decl "a" "1" None; AtRule "mixin-content" "" None None];
              at_source := None |}
           {| at_name := "include"; at_params := "m";
              at_nodes := Some [Decl "b" "2" None]; at_source := None |}
           "m" [Decl "a" "1" None; AtRule "mixin-content" "" None None]
           eq_refl eq_refl eq_refl eq_refl eq_refl eq_refl).
Defined.

(** ** The loader *)

Lemma existsb_eqb (value : string) (set : list string) :
  existsb (String.eqb value) set = true <-> value ∈ set.
Proof.
  induction set as [|x set IH]; simpl.
  - rewrite elem_of_nil. split; [discriminate | tauto].
  - rewrite orb_true_iff, IH, elem_of_cons, String.eqb_eq. tauto.
Qed.

Lemma Set_add_elem (set : list string) (value x : string) :
  x ∈ Loader.Set_add set value <-> x = value \/ x ∈ set.
Proof.
  unfold Loader.Set_add. destruct (existsb (String.eqb value) set) eqn:E.
  - apply existsb_eqb in E. split; [tauto|]. intros [->|H]; assumption.
  - rewrite elem_of_app, list_elem_of_singleton. tauto.
Qed.

Lemma Set_add_NoDup (set : list string) (value : string) :
  NoDup set -> NoDup (Loader.Set_add set value).
Proof.
  intros H. unfold Loader.Set_add.
  destruct (existsb (String.eqb value) set) eqn:E; [exact H|].
  apply NoDup_app. split; [exact H|]. split; [|apply NoDup_singleton].
  intros x Hx Hv. apply list_elem_of_singleton in Hv. subst x.
  apply existsb_eqb in Hx. congruence.
Qed.

Lemma fold_Set_add (values set : list string) :
  NoDup set ->
  NoDup (fold_left Loader.Set_add values set)
  /\ (forall x, x ∈ fold_left Loader.Set_add values set <-> x ∈ values \/ x ∈ set)
  /\ (NoDup (set ++ values) -> fold_left Loader.Set_add values set = set ++ values).
Proof.
  revert set. induction values as [|v values IH]; intros set Hset; simpl.
  - split; [exact Hset|]. split.
    + intros x. rewrite elem_of_nil. tauto.
    + intros _. now rewrite app_nil_r.
  - destruct (IH _ (Set_add_NoDup set v Hset)) as (Hnd & Hin & Hord).
    split; [exact Hnd|]. split.
    + intros x. rewrite Hin, Set_add_elem, elem_of_cons. tauto.
    + intros Hall. assert (Hv : Loader.Set_add set v = set ++ [v]).
      { unfold Loader.Set_add. destruct (existsb (String.eqb v) set) eqn:E; [|reflexivity].
        apply existsb_eqb in E. apply NoDup_app in Hall as (_ & Hdis & _).
        exfalso. apply (Hdis v E). now left. }
      rewrite Hv in *. rewrite Hord; rewrite <- app_assoc; [reflexivity | exact Hall].
Qed.

Lemma fold_left_push {A B : Type} (f : A -> B) (l : list A) (acc : list B) :
  fold_left (fun acc x => acc ++ [f x]) l acc = acc ++ map f l.
Proof.
  revert acc. induction l as [|x l IH]; intros acc; simpl.
  - now rewrite app_nil_r.
  - now rewrite IH, <- app_assoc.
Qed.

Lemma watchNewMixins_messages (messages : list Loader.message)
    (mixinsDirs : list string) :
  Loader.watchNewMixins messages mixinsDirs =
    messages ++ map (fun dir => Loader.DirDependency dir Loader.MIXINS_GLOB "")
                    (Loader.new_Set mixinsDirs).
Proof. unfold Loader.watchNewMixins. apply (fold_left_push _ _ messages). Qed.

(** X15.  The hook [OnceExit] reports each directory of [opts.mixinsDir] once, as a
    message of type [dir-dependency] with the glob of the mixin files and an
    empty parent, after the messages that were there: one message for a
    directory given as a text, none for an absent option or the empty text,
    and for an array one for each distinct directory, in the order of the
    array when it has no repetition. *)
Theorem watched_directories (opts : Loader.loading) (messages : list Loader.message) :
  exists dirs,
    Loader.OnceExit opts messages =
      messages ++ map (fun dir => Loader.DirDependency dir Loader.MIXINS_GLOB "") dirs
    /\ NoDup dirs
    /\ (forall dir,
          dir ∈ dirs <->
          match Loader.mixinsDir opts with
          | Some (Loader.OnePath path) => path <> "" /\ dir = path
          | Some (Loader.Paths array) => dir ∈ array
          | None => False
          end)
    /\ (forall array,
          Loader.mixinsDir opts = Some (Loader.Paths array) -> NoDup array ->
          dirs = array).
Proof.
  assert (Harray : forall array,
    exists dirs,
      (if Nat.ltb 0 (length array) then Loader.watchNewMixins messages array
       else messages)
      = messages ++ map (fun dir => Loader.DirDependency dir Loader.MIXINS_GLOB "") dirs
      /\ NoDup dirs
      /\ (forall dir, dir ∈ dirs <-> dir ∈ array)
      /\ (NoDup array -> dirs = array)).
  { intros array. destruct array as [|d array].
    - exists []. simpl. rewrite app_nil_r.
      split; [reflexivity|]. split; [apply NoDup_nil_2|]. split; [tauto | reflexivity].
    - exists (Loader.new_Set (d :: array)).
      change (Nat.ltb 0 (length (d :: array))) with true. cbn iota.
      destruct (fold_Set_add (d :: array) [] (NoDup_nil_2)) as (Hnd & Hin & Hord).
      split; [apply watchNewMixins_messages|]. split; [exact Hnd|]. split.
      + intros dir. unfold Loader.new_Set. rewrite Hin, elem_of_nil. tauto.
      + intros H. exact (Hord H). }
  unfold Loader.OnceExit, Loader.mixinsDir_array.
  destruct (Loader.mixinsDir opts) as [[path|array]|]; simpl.
  - destruct (String.eqb path "") eqn:E; simpl.
    + exists []. simpl. rewrite app_nil_r. apply String.eqb_eq in E.
      split; [reflexivity|]. split; [apply NoDup_nil_2|]. split; [|discriminate].
      intros dir. rewrite elem_of_nil. tauto.
    + destruct (Harray [path]) as (dirs & Hm & Hnd & Hin & _).
      exists dirs. apply String.eqb_neq in E.
      split; [exact Hm|]. split; [exact Hnd|]. split; [|discriminate].
      intros dir. rewrite Hin, list_elem_of_singleton. tauto.
  - destruct (Harray array) as (dirs & Hm & Hnd & Hin & Hord).
    exists dirs. split; [exact Hm|]. split; [exact Hnd|]. split; [exact Hin|].
    intros array' H. injection H as <-. exact Hord.
  - exists []. simpl. rewrite app_nil_r.
    split; [reflexivity|]. split; [apply NoDup_nil_2|]. split; [|discriminate].
    intros dir. rewrite elem_of_nil. tauto.
Qed.

Lemma addGlobalMixins_fold (messages : list Loader.message) (local : gmap string meta)
    (global : list (string * meta)) (parent : option string) :
  fst (Loader.addGlobalMixins messages local global parent) =
    messages ++ map (fun entry => Loader.Dependency (file (snd entry)) (default "" parent))
                    global
  /\ snd (Loader.addGlobalMixins messages local global parent) =
       fold_left (fun registry entry => <[fst entry := snd entry]> registry) global local.
Proof.
  unfold Loader.addGlobalMixins. revert messages local.
  induction global as [|e global IH]; intros messages local; simpl.
  - now rewrite app_nil_r.
  - destruct (IH (messages ++ [Loader.Dependency (file (snd e)) (default "" parent)])
                 (<[fst e := snd e]> local)) as [-> ->].
    now rewrite <- app_assoc.
Qed.

Lemma fold_insert_lookup (global : list (string * meta)) (local : gmap string meta)
    (name : string) :
  (name ∉ map fst global ->
   fold_left (fun registry entry => <[fst entry := snd entry]> registry) global local
     !! name = local !! name)
  /\ (NoDup (map fst global) -> forall m, (name, m) ∈ global ->
      fold_left (fun registry entry => <[fst entry := snd entry]> registry) global local
        !! name = Some m).
Proof.
  revert local. induction global as [|[k v] global IH]; intros local; simpl.
  - split; [reflexivity|]. intros _ m H. now apply elem_of_nil in H.
  - destruct (IH (<[k := v]> local)) as [IHout IHin]. split.
    + intros H. apply not_elem_of_cons in H as [Hne H].
      rewrite (IHout H). now rewrite lookup_insert_ne.
    + intros Hnd m Hin. apply NoDup_cons in Hnd as [Hk Hnd].
      apply elem_of_cons in Hin as [Heq|Hin].
      * injection Heq as -> ->. rewrite (IHout Hk). apply lookup_insert_eq.
      * now apply IHin.
Qed.

(** X16.  [addGlobalMixins] lays the mixins read from files over the registry:
    a name read from a file gets the entry of the file, in place of an entry
    from the options if there was one, and every other name keeps what it
    had.  For each mixin read it reports one dependency on the file of the
    mixin, with [opts.parent], or the empty text, as its parent, after the
    messages that were there. *)
Theorem global_mixins_added (messages : list Loader.message)
    (local : gmap string meta) (global : list (string * meta))
    (parent : option string) :
  NoDup (map fst global) ->
  fst (Loader.addGlobalMixins messages local global parent) =
    messages ++ map (fun entry => Loader.Dependency (file (snd entry)) (default "" parent))
                    global
  /\ (forall name m,
        (name, m) ∈ global ->
        snd (Loader.addGlobalMixins messages local global parent) !! name = Some m)
  /\ (forall name,
        name ∉ map fst global ->
        snd (Loader.addGlobalMixins messages local global parent) !! name
        = local !! name).
Proof.
  intros Hnd.
  destruct (addGlobalMixins_fold messages local global parent) as [Hm Hr].
  split; [exact Hm|]. rewrite Hr. split.
  - intros name m Hin. now apply (proj2 (fold_insert_lookup global local name)).
  - intros name Hout. now apply (proj1 (fold_insert_lookup global local name)).
Qed.

Lemma slashes_no_backslash (path : string) :
  Js.includes (Loader.slashes path) "\" = false.
Proof.
  induction path as [|c path IH]; [reflexivity|].
  simpl Loader.slashes. rewrite includes_unfold, IH, orb_false_r, prefix_cons.
  destruct (Ascii.eqb c "\") eqn:E.
  - reflexivity.
  - apply Ascii.eqb_neq in E. destruct (ascii_dec "\" c); [congruence | reflexivity].
Qed.

Lemma slashes_id (path : string) :
  Js.includes path "\" = false -> Loader.slashes path = path.
Proof.
  induction path as [|c path IH]; intros H; [reflexivity|].
  apply includes_char_cons in H as [Hc Hr].
  simpl. now rewrite Hc, (IH Hr).
Qed.

Lemma slashes_all (array : list string) :
  Forall (fun path => Js.includes path "\" = false) array ->
  map Loader.slashes array = array.
Proof.
  induction 1 as [|x l Hx _ IH]; [reflexivity|].
  simpl. now rewrite (slashes_id x Hx), IH.
Qed.

(** X17.  No glob that the plug-in hands to the loader holds a backslash, whatever
    [join] returns; and files given in [opts.mixinsFiles] without one are
    handed over as they are, after the globs of the directories. *)
Theorem globs_without_backslash (join : string -> string -> string)
    (opts : Loader.loading) :
  Forall (fun glob => Js.includes glob "\" = false) (Loader.loadFrom join opts)
  /\ (forall array,
        Loader.mixinsFiles opts = Some (Loader.Paths array) ->
        Forall (fun path => Js.includes path "\" = false) array ->
        exists globs, Loader.loadFrom join opts = globs ++ array).
Proof.
  split.
  - unfold Loader.loadFrom. apply Forall_forall. intros glob Hin.
    apply list_elem_of_fmap in Hin as (path & -> & _).
    apply slashes_no_backslash.
  - intros array Hfiles Hall. unfold Loader.loadFrom. rewrite Hfiles. simpl.
    rewrite map_app, (slashes_all array Hall). eexists. reflexivity.
Qed.

Lemma global_mixins_added_witness :
  fst (Loader.addGlobalMixins [] (prepare no_options) [("a", file_mixin)] None)
  = [] ++ map (fun entry => Loader.Dependency (file (snd entry)) (default "" None))
              [("a", file_mixin)]
  /\ (forall name m,
        (name, m) ∈ [("a", file_mixin)] ->
        snd (Loader.addGlobalMixins [] (prepare no_options) [("a", file_mixin)] None)
          !! name = Some m)
  /\ (forall name,
        name ∉ map fst [("a", file_mixin)] ->
        snd (Loader.addGlobalMixins [] (prepare no_options) [("a", file_mixin)] None)
          !! name
        = prepare no_options !! name).
Proof.
  apply (global_mixins_added [] (prepare no_options) [("a", file_mixin)] None).
  apply NoDup_singleton.
Defined.

Lemma js_module_nested_ind (P : Loader.js_module -> Prop) :
  (forall id children, Forall P children -> P (Loader.JsModule id children)) ->
  forall module, P module.
Proof.
  intros H. fix IH 1. intros [id children]. apply H.
  induction children as [|x children IHc]; constructor; [apply IH | exact IHc].
Qed.

Lemma visit_children (moduleId : string) (children : list Loader.js_module) :
  Forall evicts children ->
  forall messages cache,
    (forall id,
       snd (fold_left
              (fun st childModule =>
                 Loader.processModulesForHotReloadRecursively childModule
                   (fst st ++ [Loader.Dependency (Some (Loader.module_id childModule))
                                                 moduleId], snd st))
              children (messages, cache)) !! id
       = if bool_decide (id ∈ flat_map module_ids children) then None else cache !! id)
    /\ exists pushed,
         fst (fold_left
                (fun st childModule =>
                   Loader.processModulesForHotReloadRecursively childModule
                     (fst st ++ [Loader.Dependency (Some (Loader.module_id childModule))
                                                   moduleId], snd st))
                children (messages, cache))
         = messages ++ pushed
         /\ length pushed
            = fold_right (fun child n => S (descendants child) + n) 0 children
         /\ Forall (fun message =>
                      exists child parent,
                        message = Loader.Dependency (Some child) parent
                        /\ child ∈ flat_map module_ids children
                        /\ (parent = moduleId \/ parent ∈ flat_map module_ids children))
                   pushed.
Proof.
  induction 1 as [|x children Hx _ IH]; intros messages cache.
  - split; [intros id; reflexivity|]. exists []. simpl. rewrite app_nil_r.
    repeat split. constructor.
  - cbn [fold_left fst snd].
    destruct (Hx (messages ++ [Loader.Dependency (Some (Loader.module_id x)) moduleId])
                 cache) as [Hcache (pushed & Hm & Hlen & Hall)].
    destruct (Loader.processModulesForHotReloadRecursively x
                (messages ++ [Loader.Dependency (Some (Loader.module_id x)) moduleId],
                 cache)) as [messages1 cache1] eqn:E.
    cbn [fst snd] in Hcache, Hm.
    destruct (IH messages1 cache1) as [Hcache' (pushed' & Hm' & Hlen' & Hall')].
    split.
    + intros id. rewrite Hcache', Hcache. cbn [flat_map].
      destruct (bool_decide (id ∈ flat_map module_ids children)) eqn:E1;
        destruct (bool_decide (id ∈ module_ids x)) eqn:E2;
        destruct (bool_decide (id ∈ module_ids x ++ flat_map module_ids children)) eqn:E3;
        try reflexivity; exfalso;
        rewrite ?bool_decide_eq_true, ?bool_decide_eq_false in *;
        rewrite elem_of_app in E3; tauto.
    + exists (Loader.Dependency (Some (Loader.module_id x)) moduleId :: pushed ++ pushed').
      split; [|split].
      * rewrite Hm', Hm, <- !app_assoc. reflexivity.
      * cbn [length fold_right]. rewrite length_app, Hlen, Hlen'. lia.
      * cbn [flat_map]. constructor.
        -- exists (Loader.module_id x), moduleId. split; [reflexivity|].
           split; [|now left]. apply elem_of_app. left.
           destruct x as [id cs]. now left.
        -- apply Forall_app. split.
           ++ eapply Forall_impl; [exact Hall|].
              intros message (child & parent & -> & Hc & Hp).
              exists child, parent. split; [reflexivity|].
              split; [apply elem_of_app; now left|].
              right. apply elem_of_app. now left.
           ++ eapply Forall_impl; [exact Hall'|].
              intros message (child & parent & -> & Hc & Hp).
              exists child, parent. split; [reflexivity|].
              split; [apply elem_of_app; now right|].
              destruct Hp as [Hp|Hp]; [now left|].
              right. apply elem_of_app. now right.
Qed.

(** X18.  After [processModulesForHotReloadRecursively] no module under the one it
    is called on, that module included, is left in [require.cache], and every
    other entry of the cache is as before; the messages that were there are
    kept, and one dependency is reported for each module under it, as often
    as it is reached, with a module of the tree as its parent. *)
Theorem hot_reload_evicts (module : Loader.js_module)
    (messages : list Loader.message) (cache : gmap string Loader.js_module) :
  (forall id,
     snd (Loader.processModulesForHotReloadRecursively module (messages, cache)) !! id
     = if bool_decide (id ∈ module_ids module) then None else cache !! id)
  /\ exists pushed,
       fst (Loader.processModulesForHotReloadRecursively module (messages, cache))
       = messages ++ pushed
       /\ length pushed = descendants module
       /\ Forall (fun message =>
                    exists child parent,
                      message = Loader.Dependency (Some child) parent
                      /\ child ∈ module_ids module
                      /\ parent ∈ module_ids module) pushed.
Proof.
  revert messages cache. change (evicts module).
  induction module as [moduleId children IH] using js_module_nested_ind.
  intros messages cache.
  destruct (visit_children moduleId children IH messages cache)
    as [Hcache (pushed & Hm & Hlen & Hall)].
  cbn [Loader.processModulesForHotReloadRecursively fst snd].
  split.
  - intros id. cbn [module_ids].
    destruct (decide (id = moduleId)) as [->|Hne].
    + rewrite lookup_delete_eq.
      rewrite bool_decide_eq_true_2; [reflexivity | now left].
    + rewrite lookup_delete_ne by congruence. rewrite Hcache.
      destruct (bool_decide (id ∈ flat_map module_ids children)) eqn:E1;
        destruct (bool_decide (id ∈ moduleId :: flat_map module_ids children)) eqn:E2;
        try reflexivity; exfalso;
        rewrite ?bool_decide_eq_true, ?bool_decide_eq_false in *;
        rewrite elem_of_cons in E2; tauto.
  - exists pushed. split; [exact Hm|]. split; [exact Hlen|].
    eapply Forall_impl; [exact Hall|].
    intros message (child & parent & -> & Hc & Hp).
    exists child, parent. split; [reflexivity|]. cbn [module_ids].
    split; [now right|]. destruct Hp as [->|Hp]; [now left | now right].
Qed.

(** ** Mixins from the options *)

(** X19.  An object mixin given in the options expands where it is invoked: the
    invocation gives way to the nodes of the object, and nothing else is left
    to do when these hold no invocation and no definition that the host
    would find. *)
Theorem options_mixin_expands (fuel : nat) (h : helpers) (opts : options)
    (rule : at_rule) (name : string) (obj : list node) :
  is_include (Js.toLowerCase (at_name rule)) = true ->
  parseMixin h rule = Ok (name, "") ->
  mixins_option opts !! name = Some (MObject obj) ->
  inert (insertObject rule obj []) = true ->
  process (S (S fuel)) h opts [of_at_rule rule] = Ok (insertObject rule obj []).
Proof.
  intros Hinc Hp Hopt Hlit. unfold process. cbn [run flat_mapSM].
  assert (Hw : walkSync (S fuel) h opts (of_at_rule rule) (prepare opts, false)
               = Ok (insertObject rule obj [], (prepare opts, true))).
  { rewrite (walkSync_invocation _ _ _ _ _ Hinc).
    cbn [fst insertMixin]. rewrite Hp. simpl.
    unfold prepare. rewrite lookup_fmap, Hopt. reflexivity. }
  rewrite Hw. cbn [app]. rewrite app_nil_r.
  cbn [run]. now rewrite (walk_inert _ _ _ _ _ Hlit).
Qed.

Lemma options_mixin_expands_witness :
  process 2 postcss
    {| silent := false;
       mixins_option := {[ "m" := MObject [Decl "z" "0" None] ]} |}
    [AtRule "include" "m" None first_position]
  = Ok (insertObject
          {| at_name := "include"; at_params := "m"; at_nodes := None;
             at_source := first_position |}
          [Decl "z" "0" None] []).
Proof.
  exact (options_mixin_expands 0 postcss
           {| silent := false;
              mixins_option := {[ "m" := MObject [Decl "z" "0" None] ]} |}
           {| at_name := "include"; at_params := "m"; at_nodes := None;
              at_source := first_position |}
           "m" [Decl "z" "0" None] eq_refl eq_refl eq_refl eq_refl).
Defined.

(** ** The table of bound values *)



(** ** Placeholders after the injection of content *)

Lemma no_placeholder_outside (l : list node) :
  no_placeholder l = true -> existsb (has_at_rule "mixin-content") l = false.
Proof.
  unfold no_placeholder. induction l as [|n l IH]; simpl; [reflexivity|].
  intros H. apply andb_true_iff in H as [Hn Hl].
  apply negb_true_iff in Hn. now rewrite Hn, IH.
Qed.

Lemma no_placeholder_walk (from : at_rule) (l : list node) :
  Forall (fun n => no_placeholder (fst (content_walk n from)) = true) l ->
  no_placeholder (fst (processMixinContent l from)) = true.
Proof.
  induction 1 as [|n l Hn _ IH]; [reflexivity|].
  rewrite processMixinContent_cons. cbn [fst].
  now rewrite no_placeholder_app, Hn, IH.
Qed.

Lemma content_walk_leaves_none (from : at_rule) (n : node) :
  no_placeholder (default [] (at_nodes from)) = true ->
  no_placeholder (fst (content_walk n from)) = true.
Proof.
  intros Hfrom.
  induction n as [p v s|sel ns s IH|a p ns s IH|t s] using node_nested_ind;
    try reflexivity.
  - rewrite content_walk_rule. cbn [fst]. unfold no_placeholder at 1. simpl.
    now rewrite (no_placeholder_outside _ (no_placeholder_walk from ns IH)).
  - destruct (String.eqb a "mixin-content") eqn:Ea.
    + simpl. rewrite Ea. unfold replace_content, clone.
      destruct (at_nodes from) as [[|x l]|]; try reflexivity. exact Hfrom.
    + destruct ns as [l|].
      * rewrite (content_walk_at_rule _ _ _ _ _ Ea). cbn [fst].
        unfold no_placeholder at 1. simpl. rewrite Ea.
        now rewrite (no_placeholder_outside _ (no_placeholder_walk from l IH)).
      * simpl. rewrite Ea. unfold no_placeholder. simpl. now rewrite Ea.
Qed.

(** X21.  After [processMixinContent] a fragment holds no placeholder, at any
    depth, when the block of the invocation holds none: every placeholder is
    either replaced or removed. *)
Theorem content_leaves_no_placeholder (rule : list node) (from : at_rule) :
  no_placeholder (default [] (at_nodes from)) = true ->
  no_placeholder (fst (processMixinContent rule from)) = true.
Proof.
  intros Hfrom. apply no_placeholder_walk, Forall_forall.
  intros n _. now apply content_walk_leaves_none.
Qed.

Lemma content_leaves_no_placeholder_witness :
  no_placeholder
    (fst (processMixinContent
            [AtRule "mixin-content" "" None None;
             Rule ".r" [AtRule "media" "print"
                          (Some [AtRule "mixin-content" "" None None]) None] None]
            {| at_name := "include"; at_params := "m";
               at_nodes := Some [Decl "a" "1" None]; at_source := None |}))
  = true.
Proof.
  exact (content_leaves_no_placeholder
           [AtRule "mixin-content" "" None None;
            Rule ".r" [AtRule "media" "print"
                         (Some [AtRule "mixin-content" "" None None]) None] None]
           {| at_name := "include"; at_params := "m";
              at_nodes := Some [Decl "a" "1" None]; at_source := None |}
           eq_refl).
Defined.

(** ** Function mixins *)

(** X22.  An invocation in the block of an invocation of a function mixin is
    expanded before the function is called: the function gets the invocation
    with the expansion in the place of the inner invocation, next to the
    actuals, and what it returns is inserted as an object mixin is; when it
    returns no object, nothing is inserted. *)
Theorem function_mixin_block (h : helpers) (mixins : gmap string meta)
    (opts : options) (rule inner inner' : at_rule) (name ps : string)
    (sa : list (string * string)) (m : meta)
    (fn : at_rule -> list string -> option (list node))
    (pre post inserted : list node) (k0 : nat) :
  parseMixin h rule = Ok (name, ps) ->
  single_arguments (actuals h ps) rule = Ok sa ->
  mixins !! name = Some m ->
  mixin m = MFunction fn ->
  at_nodes rule = Some (pre ++ of_at_rule inner :: post) ->
  literal pre = true -> literal post = true ->
  is_include (at_name inner) = true ->
  (forall fuel, k0 <= fuel ->
     insertMixin fuel h mixins inner opts = Ok (inserted, inner')) ->
  literal (default [] (at_nodes inner')) = true ->
  exists K, forall fuel, K <= fuel ->
    insertMixin fuel h mixins rule opts =
      Ok (match fn (with_nodes rule (Some (pre ++ inserted ++ post))) (actuals h ps) with
          | Some obj =>
              insertObject (with_nodes rule (Some (pre ++ inserted ++ post))) obj sa
          | None => []
          end,
          with_nodes rule (Some (pre ++ inserted ++ post))).
Proof.
  intros Hp Hs Hm Hfn Hblock Hpre Hpost Hinc Hins Hsite.
  destruct (walk_includes_literal h mixins opts pre Hpre) as [K1 H1].
  destruct (walk_includes_literal h mixins opts post Hpost) as [K2 H2].
  destruct (walk_includes_literal h mixins opts _ Hsite) as [K3 H3].
  exists (S (S (Nat.max (Nat.max K1 K2) (Nat.max K3 k0)))).
  intros [|[|fuel]] Hf; try lia.
  assert (Hw : walk_includes (S fuel) h mixins (pre ++ of_at_rule inner :: post) opts
               = Ok (pre ++ inserted ++ post)).
  { change (of_at_rule inner :: post) with ([of_at_rule inner] ++ post).
    rewrite !walk_includes_app, H1, H2 by lia.
    rewrite (walk_includes_site _ _ _ _ _ Hinc), Hins by lia. simpl.
    destruct (at_nodes inner') as [l|]; [|reflexivity].
    simpl in H3. now rewrite H3 by lia. }
  cbn [insertMixin]. rewrite Hp.
  cbn -[walk_includes actuals insertObject with_nodes single_arguments].
  rewrite Hs.
  cbn -[walk_includes actuals insertObject with_nodes single_arguments].
  rewrite Hm, Hfn, Hblock, Hw.
  cbn -[walk_includes actuals insertObject with_nodes single_arguments].
  now destruct (fn _ _).
Qed.

Lemma function_mixin_block_witness :
  exists K, forall fuel, K <= fuel ->
    insertMixin fuel postcss block_registry block_invocation no_options
    = Ok ([Decl "x" "1" None],
          {| at_name := "include"; at_params := "f";
             at_nodes := Some [Decl "x" "1" None]; at_source := None |}).
Proof.
  assert (Hp : parseMixin postcss block_invocation = Ok ("f", ""))
    by (vm_compute; reflexivity).
  assert (Hs : single_arguments (actuals postcss "") block_invocation = Ok [])
    by (vm_compute; reflexivity).
  assert (Hm : block_registry !! "f" = Some block_mixin)
    by (vm_compute; reflexivity).
  assert (Hins : forall fuel, 1 <= fuel ->
            insertMixin fuel postcss block_registry (invocation "b") no_options
            = Ok ([Decl "x" "1" None], invocation "b")).
  { intros [|fuel] Hf; [lia|].
    apply (insertMixin_css fuel postcss block_registry (invocation "b") no_options
             "b" ""
             {| args := []; content := false;
                mixin := MCss {| at_name := "mixin"; at_params := "b";
                                 at_nodes := Some [Decl "x" "1" None];
                                 at_source := None |};
                file := None |}
             {| at_name := "mixin"; at_params := "b";
                at_nodes := Some [Decl "x" "1" None]; at_source := None |}
             [Decl "x" "1" None] []);
      vm_compute; reflexivity. }
  destruct (function_mixin_block postcss block_registry no_options block_invocation
              (invocation "b") (invocation "b") "f" "" [] block_mixin
              (fun rule _ => at_nodes rule) [] [] [Decl "x" "1" None] 1
              Hp Hs Hm eq_refl eq_refl eq_refl eq_refl eq_refl Hins eq_refl)
    as [K HK].
  exists K. intros fuel Hf. rewrite (HK fuel Hf). reflexivity.
Defined.

(** ** White space around a single argument *)

Lemma trimStart_spaces (ws s : string) :
  all_chars Js.is_space ws = true -> Js.trimStart (ws +:+ s) = Js.trimStart s.
Proof.
  induction ws as [|c ws IH]; intros H; [reflexivity|].
  simpl in H. apply andb_true_iff in H as [Hc Hws].
  rewrite append_cons. simpl. now rewrite Hc, (IH Hws).
Qed.

Lemma trimEnd_all_spaces (ws : string) :
  all_chars Js.is_space ws = true -> Js.trimEnd ws = "".
Proof.
  induction ws as [|c ws IH]; intros H; [reflexivity|].
  simpl in H. apply andb_true_iff in H as [Hc Hws].
  now rewrite trimEnd_unfold, Hc, (IH Hws).
Qed.

Lemma trimEnd_spaces (s ws : string) :
  all_chars Js.is_space ws = true -> Js.trimEnd (s +:+ ws) = Js.trimEnd s.
Proof.
  intros H. induction s as [|c s IH].
  - rewrite append_nil_l. now apply trimEnd_all_spaces.
  - rewrite append_cons, !trimEnd_unfold, IH. reflexivity.
Qed.

Lemma trimEnd_snoc (s : string) (c : ascii) :
  Js.is_space c = false -> Js.trimEnd (s +:+ String c "") = s +:+ String c "".
Proof.
  intros Hc. induction s as [|a s IH].
  - rewrite append_nil_l, trimEnd_unfold, Hc. reflexivity.
  - rewrite append_cons, trimEnd_unfold, IH.
    destruct s; rewrite andb_false_r; reflexivity.
Qed.

(** X23.  White space between the marker and the opening parenthesis, and after
    the closing one, does not count: the token resolves to the text between
    the parentheses. *)
Theorem single_arg_spacing (ws1 ws2 inner : string) (parentNode : at_rule) :
  all_chars Js.is_space ws1 = true ->
  all_chars Js.is_space ws2 = true ->
  resolveSingleArgumentValue
    ("single-arg" +:+ ws1 +:+ ("(" +:+ inner +:+ ")") +:+ ws2) parentNode
  = Ok inner.
Proof.
  intros H1 H2. unfold resolveSingleArgumentValue.
  rewrite (sliceFrom_append "single-arg"). unfold Js.trim.
  rewrite (trimStart_spaces _ _ H1).
  assert (Hcore : "(" +:+ inner +:+ ")" = String "(" inner +:+ String ")" "")
    by reflexivity.
  rewrite Hcore.
  replace (Js.trimStart ((String "(" inner +:+ String ")" "") +:+ ws2))
    with ((String "(" inner +:+ String ")" "") +:+ ws2) by reflexivity.
  rewrite (trimEnd_spaces _ _ H2), (trimEnd_snoc _ ")" eq_refl).
  rewrite endsWith_append. rewrite <- Hcore, slice_inner.
  unfold Js.startsWith. now rewrite prefix_append.
Qed.

Lemma single_arg_spacing_witness :
  resolveSingleArgumentValue "single-arg  (1, 2)  " (invocation "m") = Ok "1, 2".
Proof.
  exact (single_arg_spacing "  " "  " "1, 2" (invocation "m") eq_refl eq_refl).
Defined.

(** ** The loader on sample options *)

Example watches_each_directory_once :
  Loader.OnceExit
    {| Loader.mixinsDir := Some (Loader.Paths ["a"; "b"; "a"]);
       Loader.mixinsFiles := None; Loader.parent := None |} []
  = [Loader.DirDependency "a" Loader.MIXINS_GLOB "";
     Loader.DirDependency "b" Loader.MIXINS_GLOB ""]
  /\ Loader.OnceExit
       {| Loader.mixinsDir := Some (Loader.OnePath "a");
          Loader.mixinsFiles := None; Loader.parent := None |} []
     = [Loader.DirDependency "a" Loader.MIXINS_GLOB ""]
  /\ Loader.OnceExit
       {| Loader.mixinsDir := Some (Loader.OnePath "");
          Loader.mixinsFiles := None; Loader.parent := None |} []
     = [].
Proof. repeat split; vm_compute; reflexivity. Qed.

(** With a [join] that puts a backslash between its arguments, as on
    Windows. *)
Example globs_of_a_directory_and_a_file :
  Loader.loadFrom (fun dir glob => dir +:+ "\" +:+ glob)
    {| Loader.mixinsDir := Some (Loader.OnePath "mixins");
       Loader.mixinsFiles := Some (Loader.OnePath "more\a.css");
       Loader.parent := None |}
  = ["mixins/*.{js,cjs,mjs,json,css,sss,pcss}"; "more/a.css"].
Proof. vm_compute. reflexivity. Qed.

(** A module [a] that requires [b] and [c], where [b] requires [c] too: [c]
    is reported under both. *)
Example reports_a_shared_module_twice :
  fst (Loader.processModulesForHotReloadRecursively
         (Loader.JsModule "a"
            [Loader.JsModule "b" [Loader.JsModule "c" []]; Loader.JsModule "c" []])
         ([], ∅))
  = [Loader.Dependency (Some "b") "a"; Loader.Dependency (Some "c") "b";
     Loader.Dependency (Some "c") "a"].
Proof. vm_compute. reflexivity. Qed.
